(** * Wildberries parsers: catalogue flattening, category lookup, page harvest

    A shallow embedding of the two programs of the repository,
    [stable-version/start.py] and [legacy-version/start.py], and the
    properties of their catalogue walk, category lookup, page parser,
    pagination loop and sales enrichment.

    Python values that come out of [json.load] / [response.json()] are
    modelled by the type [json]; Python exceptions by [exn]; a computation
    that may raise by [result].  Network replies are an explicit parameter
    (an oracle indexed by page and attempt), and the requests and console
    lines of a run are collected in a trace. *)

From Stdlib Require Import List String Ascii ZArith Lia Bool Arith.
From Stdlib Require Decimal DecimalString DecimalNat DecimalZ.
Import ListNotations.
Open Scope string_scope.
Open Scope Z_scope.
Open Scope list_scope.
Set Warnings "-register-all".

(** ** Python values *)

(** A binary64 float: not-a-number, an infinity, or the finite value
    [m * 2^e]. *)
Inductive float64 :=
| FNan
| FInf (negative : bool)
| FFin (m e : Z).

(** What [json.load] builds.  A dict is kept as its list of items in
    insertion order (keys distinct after parsing); lookup takes the first
    binding of a key. *)
Inductive json :=
| JNull
| JBool (b : bool)
| JInt (z : Z)
| JFloat (f : float64)
| JStr (s : string)
| JArr (l : list json)
| JObj (d : list (string * json)).

(** Exceptions that the modelled code can meet.  [KeyError] carries the
    missing key. *)
Inductive exn :=
| KeyError (key : json)
| IndexError
| TypeError
| AttributeError
| ValueError
| OverflowError
| RecursionError
| ConnectTimeout
| ReadTimeout
| ConnectionError
| TooManyRedirects
| JSONDecodeError.

(** The Python class name of an exception. *)
Definition exn_name (e : exn) : string :=
  match e with
  | KeyError _ => "KeyError"
  | IndexError => "IndexError"
  | TypeError => "TypeError"
  | AttributeError => "AttributeError"
  | ValueError => "ValueError"
  | OverflowError => "OverflowError"
  | RecursionError => "RecursionError"
  | ConnectTimeout => "ConnectTimeout"
  | ReadTimeout => "ReadTimeout"
  | ConnectionError => "ConnectionError"
  | TooManyRedirects => "TooManyRedirects"
  | JSONDecodeError => "JSONDecodeError"
  end.

(** The failure classes of the specification (section 7): timeouts, lost
    connections and malformed bodies are transient, every other failure is
    permanent.  The programs themselves never classify an exception. *)
Definition spec_transient (e : exn) : bool :=
  match e with
  | ConnectTimeout | ReadTimeout | ConnectionError | JSONDecodeError => true
  | _ => false
  end.

Inductive result (A : Type) :=
| Ok (a : A)
| Raise (e : exn).
Arguments Ok {A} a.
Arguments Raise {A} e.

Definition bind {A B} (r : result A) (k : A -> result B) : result B :=
  match r with
  | Ok a => k a
  | Raise e => Raise e
  end.

Notation "x <- r ;; k" := (bind r (fun x => k))
  (at level 61, r at next level, right associativity).

(** [for x in xs: ys.append(f(x))], stopping at the first exception. *)
Fixpoint map_result {A B} (f : A -> result B) (xs : list A) : result (list B) :=
  match xs with
  | [] => Ok []
  | x :: xs' => y <- f x ;; ys <- map_result f xs' ;; Ok (y :: ys)
  end.

(** *** Dicts *)

Fixpoint dict_get (k : string) (d : list (string * json)) : option json :=
  match d with
  | [] => None
  | (k', v) :: d' => if String.eqb k k' then Some v else dict_get k d'
  end.

(** The same lookup with the two continuations passed in, so that a walk
    can recurse into the value found ([dict_find_get] relates the two). *)
Definition dict_find {A} (k : string) (found : json -> A) (missing : A)
  : list (string * json) -> A :=
  fix go (d : list (string * json)) : A :=
    match d with
    | [] => missing
    | (k', v) :: d' => if String.eqb k k' then found v else go d'
    end.

(** [k in d] *)
Definition dict_mem (k : string) (d : list (string * json)) : bool :=
  match dict_get k d with Some _ => true | None => false end.

(** [x[k]] for a string key [k]: a dict looks the key up, every other
    value rejects a string subscript. *)
Definition getitem (x : json) (k : string) : result json :=
  match x with
  | JObj d => match dict_get k d with
              | Some v => Ok v
              | None => Raise (KeyError (JStr k))
              end
  | _ => Raise TypeError
  end.

(** [x.get(k)]: only a dict has the method; a missing key gives [None]. *)
Definition dot_get (x : json) (k : string) : result json :=
  match x with
  | JObj d => match dict_get k d with
              | Some v => Ok v
              | None => Ok JNull
              end
  | _ => Raise AttributeError
  end.

(** [x[0]] *)
Definition getitem0 (x : json) : result json :=
  match x with
  | JArr (v :: _) => Ok v
  | JArr [] => Raise IndexError
  | JStr (String c _) => Ok (JStr (String c ""))
  | JStr EmptyString => Raise IndexError
  | JObj _ => Raise (KeyError (JInt 0))
  | _ => Raise TypeError
  end.

Fixpoint chars (s : string) : list json :=
  match s with
  | EmptyString => []
  | String c s' => JStr (String c "") :: chars s'
  end.

(** [for x in v]: a list gives its elements, a dict its keys, a string its
    characters; nothing else is iterable. *)
Definition iter (v : json) : result (list json) :=
  match v with
  | JArr l => Ok l
  | JObj d => Ok (map (fun kv => JStr (fst kv)) d)
  | JStr s => Ok (chars s)
  | _ => Raise TypeError
  end.

(** [s == v] for a string [s] and a JSON value [v]. *)
Definition str_eq (s : string) (v : json) : bool :=
  match v with
  | JStr t => String.eqb s t
  | _ => false
  end.

(** *** Strings *)

(** [s.split(sep)] for a non-empty [sep]: scan from the left; at an
    occurrence of [sep] close the current piece and skip the occurrence
    ([skip] counts the characters of it still to pass). *)
Fixpoint split_aux (sep s : string) (skip : nat) (cur : string) : list string :=
  match s with
  | EmptyString => [cur]
  | String c s' =>
    match skip with
    | S k => split_aux sep s' k cur
    | O =>
      if String.prefix sep s
      then cur :: split_aux sep s' (String.length sep - 1)%nat ""
      else split_aux sep s' 0 (String.append cur (String c ""))
    end
  end.

Definition split (sep s : string) : list string := split_aux sep s 0 "".

Definition site : string := "https://www.wildberries.ru".

(** [s.split("https://www.wildberries.ru")[-1]] *)
Definition url_suffix (s : string) : string := last (split site s) "".

(** *** Numbers *)

Definition shl (x n : Z) : Z := x * 2 ^ Z.max n 0.

(** For [a, b > 0], the [k] with [2^k <= a/b < 2^(k+1)]. *)
Definition quot_log2 (a b : Z) : Z :=
  let d := Z.log2 a - Z.log2 b in
  if shl b d <=? shl a (- d) then d else d - 1.

(** [a / b] rounded to the nearest binary64 (ties to even), as mantissa and
    exponent, for [a >= 0] and [b > 0]: 53 bits of mantissa, exponent not
    below -1074. *)
Definition round_div (a b : Z) : Z * Z :=
  let e := Z.max (quot_log2 a b - 52) (-1074) in
  let num := shl a (- e) in
  let den := shl b e in
  let q := num / den in
  let r := num mod den in
  let m := if 2 * r <? den then q
           else if den <? 2 * r then q + 1
           else if Z.even q then q else q + 1 in
  (m, e).

Definition signed_round_div (a b : Z) : Z * Z :=
  if a <? 0 then let (m, e) := round_div (- a) b in (- m, e)
  else round_div a b.

Definition too_large (me : Z * Z) : bool :=
  let (m, e) := me in 2 ^ 1024 <=? shl (Z.abs m) e.

(** [a / b] on two ints with [b > 0] (the programs divide by the literal
    100): the correctly rounded quotient, or [OverflowError]. *)
Definition int_truediv (a b : Z) : result float64 :=
  let me := signed_round_div a b in
  if too_large me then Raise OverflowError
  else Ok (FFin (fst me) (snd me)).

(** [f / b] on a float and an int [b > 0]. *)
Definition float_truediv (f : float64) (b : Z) : float64 :=
  match f with
  | FNan => FNan
  | FInf s => FInf s
  | FFin m e =>
    let me := signed_round_div (shl m e) (shl b (- e)) in
    if too_large me then FInf (m <? 0) else FFin (fst me) (snd me)
  end.

(** [x / b] for a JSON value [x] and an int [b > 0]. *)
Definition truediv (x : json) (b : Z) : result float64 :=
  match x with
  | JInt a => int_truediv a b
  | JBool t => int_truediv (if t then 1 else 0) b
  | JFloat f => Ok (float_truediv f b)
  | _ => Raise TypeError
  end.

(** [int(f)]: truncation toward zero. *)
Definition py_int (f : float64) : result Z :=
  match f with
  | FNan => Raise ValueError
  | FInf _ => Raise OverflowError
  | FFin m e => Ok (if 0 <=? e then m * 2 ^ e else Z.quot m (2 ^ (- e)))
  end.

(** [int(x / 100)] *)
Definition int_div_100 (x : json) : result Z :=
  f <- truediv x 100 ;; py_int f.

(** ** What both programs share *)

(** One entry of the flattened catalogue: the dict with the keys [name],
    [url], [shard] and [query]. *)
Record FlatCategory := mkFlat {
  name : json;
  url : json;
  shard : json;
  query : json
}.

(** A reply of [requests.get]: its status code, and what [.json()] gives
    on it. *)
Record Response := mkResponse {
  status_code : Z;
  json_of : result json
}.

(** The remote side: the outcome of the [attempt]-th [requests.get]
    (counted from 0) of the listing URL of [page].  The URL is a function
    of the chosen category and the page, so a request is identified by its
    page number. *)
Definition Remote := nat -> nat -> result Response.

(** Console lines, by the [print] call that writes them. *)
Inductive message :=
| Loading_items_from_page (page : nat)
| Items_added (n : nat)
| Loading_finished
| Status_scraping_page (status : Z) (page : nat)
| Products_added (n : nat)
| Finished_collecting (total : nat).

(** What a run does to the outside, in order. *)
Inductive event :=
| Request (page : nat)
| Sales_request (id : json)
| Print (m : message).

(** The pages requested in a trace, in order. *)
Fixpoint requested (tr : list event) : list nat :=
  match tr with
  | [] => []
  | Request p :: tr' => p :: requested tr'
  | _ :: tr' => requested tr'
  end.

(** ** Text for the request URLs *)

(** A Python [str] as the list of its code points; the URL builders work on
    this view, since [str.split()] goes by the code point. *)
Definition text := list N.

(** The text of a literal of the source (all of them ASCII). *)
Definition codes (s : string) : text :=
  map N_of_ascii (list_ascii_of_string s).

(** [str.isspace] on one code point: the whitespace at which
    [str.split()] cuts. *)
Definition is_space (c : N) : bool :=
  (((9 <=? c) && (c <=? 13)) || ((28 <=? c) && (c <=? 32))
   || (c =? 133) || (c =? 160) || (c =? 5760)
   || ((8192 <=? c) && (c <=? 8202))
   || (c =? 8232) || (c =? 8233) || (c =? 8239) || (c =? 8287)
   || (c =? 12288))%N.

(** [s.split()]: the maximal runs of non-whitespace, [cur] being the run
    under way. *)
Fixpoint split_ws (s : text) (cur : text) : list text :=
  match s with
  | [] => match cur with [] => [] | _ :: _ => [cur] end
  | c :: s' =>
    if is_space c
    then match cur with
         | [] => split_ws s' []
         | _ :: _ => cur :: split_ws s' []
         end
    else split_ws s' (cur ++ [c])
  end.

(** [sep.join(words)] *)
Fixpoint join (sep : text) (words : list text) : text :=
  match words with
  | [] => []
  | [w] => w
  | w :: ws => w ++ sep ++ join sep ws
  end.

(** [str(n)] for an int [n >= 0], and for any int. *)
Definition decimal (n : nat) : text :=
  codes (DecimalString.NilEmpty.string_of_uint (Nat.to_uint n)).

Definition decimal_int (z : Z) : text :=
  codes (DecimalString.NilEmpty.string_of_int (Z.to_int z)).

(** ** stable-version/start.py *)

Module Stable.

(** [traverse_json]: the walk appends to the list it is given.  A category
    that lacks one of the four keys raises [KeyError] inside the [try] and
    the loop goes on with the next one ([continue]); any other exception
    leaves the walk.  This is the walk as long as the interpreter's
    recursion limit is not met; [traverse_json_within] below is the walk
    with the limit. *)
Fixpoint traverse_json (parent_category : json) (flattened_catalogue : list FlatCategory)
  {struct parent_category} : result (list FlatCategory) :=
  match parent_category with
  | JArr l =>
    (fix loop (l : list json) (flattened_catalogue : list FlatCategory) {struct l} :=
       match l with
       | [] => Ok flattened_catalogue
       | category :: rest =>
         match category with
         | JObj d =>
           match dict_get "name" d, dict_get "url" d,
                 dict_get "shard" d, dict_get "query" d with
           | Some n, Some u, Some s, Some q =>
             let appended := flattened_catalogue ++ [mkFlat n u s q] in
             dict_find "childs"
               (fun childs => c <- traverse_json childs appended ;; loop rest c)
               (loop rest appended) d
           | _, _, _, _ => loop rest flattened_catalogue
           end
         | _ => Raise TypeError
         end
       end) l flattened_catalogue
  | JObj [] => Ok flattened_catalogue
  | JObj (_ :: _) => Raise TypeError
  | JStr EmptyString => Ok flattened_catalogue
  | JStr (String _ _) => Raise TypeError
  | _ => Raise TypeError
  end.

(** [process_catalogue], on the parsed content of the catalogue file. *)
Definition process_catalogue (catalogue_file : json) : result (list FlatCategory) :=
  traverse_json catalogue_file [].

(** [extract_category_data]: [None] when no category matches. *)
Fixpoint extract_category_data (catalogue : list FlatCategory) (user_input : string)
  : option (json * json * json) :=
  match catalogue with
  | [] => None
  | category :: rest =>
    if str_eq (url_suffix user_input) (url category) || str_eq user_input (name category)
    then Some (name category, shard category, query category)
    else extract_category_data rest user_input
  end.

(** A product card.  [Link] is rendered from the item's id and keeps it;
    [Selled] is absent until [get_sales_data] sets it. *)
Record ProductCard := mkCard {
  Link : json;
  ID : json;
  Name : json;
  Brand : json;
  Brand_ID : json;
  Price : Z;
  Discounted_price : Z;
  Rating : json;
  Reviews : json;
  Selled : option json
}.

(** One element of the comprehension of [get_products_on_page]; the keys
    are read in the order of the dict display. *)
Definition product_card (item : json) : result ProductCard :=
  link <- getitem item "id" ;;
  id <- getitem item "id" ;;
  nm <- getitem item "name" ;;
  brand <- getitem item "brand" ;;
  brand_id <- getitem item "brandId" ;;
  priceU <- getitem item "priceU" ;;
  price <- int_div_100 priceU ;;
  salePriceU <- getitem item "salePriceU" ;;
  discounted <- int_div_100 salePriceU ;;
  rating <- getitem item "rating" ;;
  feedbacks <- getitem item "feedbacks" ;;
  Ok (mkCard link id nm brand brand_id price discounted rating feedbacks None).

Definition get_products_on_page (page_data : json) : result (list ProductCard) :=
  data <- getitem page_data "data" ;;
  products <- getitem data "products" ;;
  items <- iter products ;;
  map_result product_card items.

(** The parser object: the cards collected so far, and what the run has
    done to the outside. *)
Record Parser := mkParser {
  product_cards : list ProductCard;
  trace : list event
}.

Definition emit (ev : event) (self : Parser) : Parser :=
  mkParser (product_cards self) (trace self ++ [ev]).

Definition extend (cards : list ProductCard) (self : Parser) : Parser :=
  mkParser (product_cards self ++ cards) (trace self).

(** [requests.get(url, headers=self.headers).json()], asked once. *)
Definition get_json (remote : Remote) (page : nat) : result json :=
  response <- remote page 0%nat ;; json_of response.

(** [add_data_from_page]: [Ok true] when the page has no products. *)
Definition add_data_from_page (remote : Remote) (page : nat) (self : Parser)
  : Parser * result bool :=
  let self := emit (Request page) self in
  match get_json remote page with
  | Raise e => (self, Raise e)
  | Ok response =>
    match get_products_on_page response with
    | Raise e => (self, Raise e)
    | Ok [] => (emit (Print Loading_finished) self, Ok true)
    | Ok page_data =>
      (emit (Print (Items_added (List.length page_data))) (extend page_data self), Ok false)
    end
  end.

(** The body of [for page in ...] of [get_all_products_in_category], over
    the pages still to visit; [break] ends it. *)
Fixpoint for_pages (remote : Remote) (pages : list nat) (self : Parser)
  : Parser * result unit :=
  match pages with
  | [] => (self, Ok tt)
  | page :: rest =>
    let self := emit (Print (Loading_items_from_page page)) self in
    match add_data_from_page remote page self with
    | (self, Raise e) => (self, Raise e)
    | (self, Ok true) => (self, Ok tt)
    | (self, Ok false) => for_pages remote rest self
    end
  end.

(** [range(1, 101)] *)
Definition page_range : list nat := seq 1 100.

Definition get_all_products_in_category (remote : Remote) (self : Parser)
  : Parser * result unit :=
  for_pages remote page_range self.

(** [card['Selled'] = v] *)
Definition with_selled (card : ProductCard) (v : json) : ProductCard :=
  mkCard (Link card) (ID card) (Name card) (Brand card) (Brand_ID card) (Price card)
         (Discounted_price card) (Rating card) (Reviews card) (Some v).

(** The same on the card at position [i] of the list, the cards being
    mutated in place. *)
Fixpoint set_selled (i : nat) (v : json) (cards : list ProductCard) : list ProductCard :=
  match cards, i with
  | [], _ => []
  | c :: cs, O => with_selled c v :: cs
  | c :: cs, S j => c :: set_selled j v cs
  end.

(** [response[0]['qnt']] on the reply of the sales endpoint. *)
Definition sold_quantity (reply : result Response) : result json :=
  response <- reply ;;
  body <- json_of response ;;
  first <- getitem0 body ;;
  getitem first "qnt".

(** The loop of [get_sales_data] from position [i] on, [todo] being the
    cards not yet visited.  [sales i] is the outcome of the request made
    for the card at position [i].  Only [requests.ConnectTimeout] is
    handled; the progress line is not recorded. *)
Fixpoint sales_loop (sales : nat -> result Response) (i : nat)
  (todo : list ProductCard) (self : Parser) : Parser * result unit :=
  match todo with
  | [] => (self, Ok tt)
  | card :: rest =>
    let self := emit (Sales_request (ID card)) self in
    match sold_quantity (sales i) with
    | Ok qnt =>
      sales_loop sales (S i) rest
        (mkParser (set_selled i qnt (product_cards self)) (trace self))
    | Raise ConnectTimeout =>
      sales_loop sales (S i) rest
        (mkParser (set_selled i (JStr "no data") (product_cards self)) (trace self))
    | Raise e => (self, Raise e)
    end
  end.

Definition get_sales_data (sales : nat -> result Response) (self : Parser)
  : Parser * result unit :=
  sales_loop sales 0 (product_cards self) self.


(** [get_all_products_in_search_result]: the same loop, over the pages of
    the search URL of the keyword; [remote] then answers for those. *)
Definition get_all_products_in_search_result (remote : Remote) (self : Parser)
  : Parser * result unit :=
  for_pages remote page_range self.


(** [build_catalogue_url]: [shard] and [query] are the texts that the
    f-string renders for [category_data[1]] and [category_data[2]] (for
    strings, the strings themselves). *)
Definition build_catalogue_url (shard query : text) (page : nat) : text :=
  codes "https://catalog.wb.ru/catalog/" ++ shard ++ codes "/"
  ++ codes "catalog?appType=1&" ++ query ++ codes "&curr=rub"
  ++ codes "&dest=-1257786&page=" ++ decimal page ++ codes "&sort=popular&spp=24".

(** [build_search_url] *)
Definition build_search_url (key_word : text) (page : nat) : text :=
  let query := join (codes "%20") (split_ws key_word []) in
  codes "https://search.wb.ru/exactmatch/ru/common/v4/search?"
  ++ codes "appType=1&curr=rub&dest=-1257786&page=" ++ decimal page
  ++ codes "&query=" ++ query ++ codes "&resultset=catalog&sort=popular&spp=24".


(** The loop of [traverse_json] over the categories of one list, the
    recursive call being [walk]. *)
Fixpoint walk_categories
  (walk : json -> list FlatCategory -> result (list FlatCategory))
  (categories : list json) (flattened_catalogue : list FlatCategory)
  : result (list FlatCategory) :=
  match categories with
  | [] => Ok flattened_catalogue
  | category :: rest =>
    match category with
    | JObj d =>
      match dict_get "name" d, dict_get "url" d,
            dict_get "shard" d, dict_get "query" d with
      | Some n, Some u, Some s, Some q =>
        let appended := flattened_catalogue ++ [mkFlat n u s q] in
        match dict_get "childs" d with
        | Some childs =>
          c <- walk childs appended ;; walk_categories walk rest c
        | None => walk_categories walk rest appended
        end
      | _, _, _, _ => walk_categories walk rest flattened_catalogue
      end
    | _ => Raise TypeError
    end
  end.

(** [traverse_json] under the interpreter's recursion limit: [frames] is
    the number of nested calls that the interpreter still allows when
    [traverse_json] is called.  A call made when none is left raises
    [RecursionError], which the [try] of the loop does not catch; every
    level of [childs] takes one call.  The calls counted are those of
    Python functions, as CPython counts them from 3.12 on; an older
    interpreter also counts the call of a built-in method while it runs,
    which costs the deepest call one frame. *)
Fixpoint traverse_json_within (frames : nat) (parent_category : json)
  (flattened_catalogue : list FlatCategory) : result (list FlatCategory) :=
  match frames with
  | O => Raise RecursionError
  | S frames' =>
    categories <- iter parent_category ;;
    walk_categories (traverse_json_within frames') categories flattened_catalogue
  end.

(** [process_catalogue] on the parsed content of the catalogue file, with
    [frames] nested calls left when it calls [traverse_json]. *)
Definition process_catalogue_within (frames : nat) (catalogue_file : json)
  : result (list FlatCategory) :=
  traverse_json_within frames catalogue_file [].

End Stable.

(** ** legacy-version/start.py *)

Module Legacy.

(** The dict that [extract_category_data] appends for a mapping: [name]
    and [url] are subscripted, [shard] and [query] read with [.get]. *)
Definition category (d : list (string * json)) : result FlatCategory :=
  n <- getitem (JObj d) "name" ;;
  s <- dot_get (JObj d) "shard" ;;
  u <- getitem (JObj d) "url" ;;
  q <- dot_get (JObj d) "query" ;;
  Ok (mkFlat n u s q).

(** [extract_category_data]: a mapping gives its own entry, followed by
    what its [childs] give; anything else is iterated.  Iterating a
    non-empty string never bottoms out (each character is again a string),
    which Python ends with [RecursionError].  This is the walk as long as
    the interpreter's recursion limit is not met otherwise;
    [extract_category_data_within] below is the walk with the limit. *)
Fixpoint extract_category_data (catalog : json) : result (list FlatCategory) :=
  match catalog with
  | JObj d =>
    dict_find "childs"
      (fun childs =>
         c <- category d ;;
         below <- extract_category_data childs ;;
         Ok (c :: below))
      (c <- category d ;; Ok [c]) d
  | JArr l =>
    (fix loop (l : list json) : result (list FlatCategory) :=
       match l with
       | [] => Ok []
       | child :: rest =>
         below <- extract_category_data child ;;
         categories <- loop rest ;;
         Ok (below ++ categories)
       end) l
  | JStr EmptyString => Ok []
  | JStr (String _ _) => Raise RecursionError
  | _ => Raise TypeError
  end.

(** The loop of [find_category_in_catalog]; [ValueError] when it ends. *)
Fixpoint find_in (catalog_list : list FlatCategory) (self_url : string)
  : result FlatCategory :=
  match catalog_list with
  | [] => Raise ValueError
  | catalog :: rest =>
    if str_eq (url_suffix self_url) (url catalog) then Ok catalog
    else find_in rest self_url
  end.

Definition find_category_in_catalog (catalog_data : json) (self_url : string)
  : result FlatCategory :=
  catalog_list <- extract_category_data catalog_data ;;
  find_in catalog_list self_url.

(** A product of [extract_product_data]; [p_link] is rendered from the
    item's id and keeps it. *)
Record Product := mkProduct {
  p_id : json;
  p_name : json;
  p_price : Z;
  p_salePriceU : Z;
  p_cashback : json;
  p_sale : json;
  p_brand : json;
  p_rating : json;
  p_supplier : json;
  p_supplierRating : json;
  p_feedbacks : json;
  p_reviewRating : json;
  p_promoTextCard : json;
  p_promoTextCat : json;
  p_link : json
}.

Definition product (item : json) : result Product :=
  id <- dot_get item "id" ;;
  nm <- dot_get item "name" ;;
  priceU <- dot_get item "priceU" ;;
  price <- int_div_100 priceU ;;
  salePriceU <- dot_get item "salePriceU" ;;
  sale_price <- int_div_100 salePriceU ;;
  cashback <- dot_get item "feedbackPoints" ;;
  sale <- dot_get item "sale" ;;
  brand <- dot_get item "brand" ;;
  rating <- dot_get item "rating" ;;
  supplier <- dot_get item "supplier" ;;
  supplierRating <- dot_get item "supplierRating" ;;
  feedbacks <- dot_get item "feedbacks" ;;
  reviewRating <- dot_get item "reviewRating" ;;
  promoTextCard <- dot_get item "promoTextCard" ;;
  promoTextCat <- dot_get item "promoTextCat" ;;
  link <- dot_get item "id" ;;
  Ok (mkProduct id nm price sale_price cashback sale brand rating supplier
        supplierRating feedbacks reviewRating promoTextCard promoTextCat link).

Definition extract_product_data (json_data : json) : result (list Product) :=
  data <- getitem json_data "data" ;;
  products <- getitem data "products" ;;
  items <- iter products ;;
  map_result product items.

(** [scrape_page] under [@retry(Exception, tries=-1, delay=0)]: whatever
    [requests.get] or [response.json()] raises, the call is made again, so
    the function returns a body or never returns.  [fuel] bounds the
    attempts looked at; [None] means that they all failed. *)
Fixpoint scrape_page (fuel : nat) (remote : Remote) (page attempt : nat)
  (tr : list event) : option (list event * json) :=
  match fuel with
  | O => None
  | S fuel' =>
    let tr := tr ++ [Request page] in
    match remote page attempt with
    | Raise _ => scrape_page fuel' remote page (S attempt) tr
    | Ok response =>
      let tr := tr ++ [Print (Status_scraping_page (status_code response) page)] in
      match json_of response with
      | Raise _ => scrape_page fuel' remote page (S attempt) tr
      | Ok data => Some (tr, data)
      end
    end
  end.

(** The loop of [collect_products] over the pages still to visit, with the
    closing line printed after it. *)
Fixpoint for_pages (fuel : nat) (remote : Remote) (pages : list nat)
  (products : list Product) (tr : list event)
  : option (list event * result (list Product)) :=
  match pages with
  | [] => Some (tr ++ [Print (Finished_collecting (List.length products))], Ok products)
  | page :: rest =>
    match scrape_page fuel remote page 0 tr with
    | None => None
    | Some (tr, data) =>
      match extract_product_data data with
      | Raise e => Some (tr, Raise e)
      | Ok product_list =>
        let tr := tr ++ [Print (Products_added (List.length product_list))] in
        match product_list with
        | [] => Some (tr ++ [Print (Finished_collecting (List.length products))], Ok products)
        | _ :: _ => for_pages fuel remote rest (products ++ product_list) tr
        end
      end
    end
  end.

(** [range(1, 51)] *)
Definition page_range : list nat := seq 1 50.

(** [collect_products]: the trace of the run and what it returns or
    raises; [None] when some page exhausts [fuel]. *)
Definition collect_products (fuel : nat) (remote : Remote)
  : option (list event * result (list Product)) :=
  for_pages fuel remote page_range [] [].


(** The URL that [scrape_page] builds: [shard] and [query] are the texts
    rendered for [self.category["shard"]] and [self.category["query"]]. *)
Definition page_url (shard query : text) (min_price max_price discount : Z)
  (page : nat) : text :=
  codes "https://catalog.wb.ru/catalog/" ++ shard
  ++ codes "/catalog?appType=1&curr=rub"
  ++ codes "&dest=-1257786&locale=ru&page=" ++ decimal page
  ++ codes "&priceU=" ++ decimal_int (min_price * 100) ++ codes ";"
  ++ decimal_int (max_price * 100)
  ++ codes "&sort=popular&spp=0&" ++ query
  ++ codes "&discount=" ++ decimal_int discount.

(** The loop [for child in catalog: categories.extend(...)] of
    [extract_category_data], the recursive call being [walk]. *)
Fixpoint extend_each (walk : json -> result (list FlatCategory))
  (children : list json) : result (list FlatCategory) :=
  match children with
  | [] => Ok []
  | child :: rest =>
    below <- walk child ;;
    categories <- extend_each walk rest ;;
    Ok (below ++ categories)
  end.

(** [extract_category_data] under the interpreter's recursion limit:
    [frames] is the number of nested calls that the interpreter still
    allows when the function is called, counted as for the stable walk.  A
    mapping takes one call and the list under its [childs] another, so
    every level of the catalogue takes two. *)
Fixpoint extract_category_data_within (frames : nat) (catalog : json)
  : result (list FlatCategory) :=
  match frames with
  | O => Raise RecursionError
  | S frames' =>
    match catalog with
    | JObj d =>
      c <- category d ;;
      match dict_get "childs" d with
      | Some childs =>
        below <- extract_category_data_within frames' childs ;;
        Ok (c :: below)
      | None => Ok [c]
      end
    | _ =>
      children <- iter catalog ;;
      extend_each (extract_category_data_within frames') children
    end
  end.

End Legacy.

(** ** Counting the nodes of a catalogue *)

(** A node is a mapping; its children are what its [childs] holds.  The
    number of nodes, anywhere in the catalogue, that carry both [name] and
    [url]. *)
Fixpoint count_named (catalog : json) : nat :=
  match catalog with
  | JObj d =>
    ((if dict_mem "name" d && dict_mem "url" d then 1 else 0)
     + dict_find "childs" (fun childs => count_named childs) 0 d)%nat
  | JArr l =>
    (fix sum (l : list json) : nat :=
       match l with
       | [] => 0
       | child :: rest => count_named child + sum rest
       end%nat) l
  | _ => 0%nat
  end.

(** A node with all of [name], [url], [shard] and [query]. *)
Definition complete (d : list (string * json)) : bool :=
  dict_mem "name" d && dict_mem "url" d && dict_mem "shard" d && dict_mem "query" d.

(** The number of complete nodes that have only complete nodes above
    them. *)
Fixpoint count_complete (catalog : json) : nat :=
  match catalog with
  | JArr l =>
    (fix sum (l : list json) : nat :=
       match l with
       | [] => 0
       | JObj d :: rest =>
         (if complete d
          then S (dict_find "childs" (fun childs => count_complete childs) 0 d)
          else 0) + sum rest
       | _ :: rest => sum rest
       end%nat) l
  | _ => 0%nat
  end.

(** A catalogue as the stable walk expects it: a list of mappings, the
    [childs] of every complete one again such a list. *)
Fixpoint list_of_nodes (catalog : json) : bool :=
  match catalog with
  | JArr l =>
    (fix all (l : list json) : bool :=
       match l with
       | [] => true
       | JObj d :: rest =>
         (if complete d
          then dict_find "childs" (fun childs => list_of_nodes childs) true d
          else true) && all rest
       | _ :: rest => false
       end) l
  | _ => false
  end.

(** A catalogue as the legacy walk expects it: a mapping with [name] and
    [url] whose [childs], if any, is again a catalogue, or a list of
    catalogues. *)
Fixpoint named_tree (catalog : json) : bool :=
  match catalog with
  | JObj d =>
    dict_mem "name" d && dict_mem "url" d
    && dict_find "childs" (fun childs => named_tree childs) true d
  | JArr l =>
    (fix all (l : list json) : bool :=
       match l with
       | [] => true
       | child :: rest => named_tree child && all rest
       end) l
  | _ => false
  end.

(** ** The depth of a catalogue *)

(** The nested calls of [traverse_json] that walking a catalogue takes at
    most, the first call included: one for the list, and one more for
    every level of [childs] under complete nodes. *)
Fixpoint stable_depth (catalog : json) : nat :=
  match catalog with
  | JArr l =>
    S ((fix deepest (l : list json) : nat :=
          match l with
          | [] => 0%nat
          | JObj d :: rest =>
            Nat.max
              (if complete d
               then dict_find "childs" (fun childs => stable_depth childs) 0%nat d
               else 0%nat)
              (deepest rest)
          | _ :: rest => deepest rest
          end) l)
  | _ => 1%nat
  end.

(** The nested calls of the legacy [extract_category_data] that walking a
    catalogue of mappings and lists takes at most, the first included: one
    for a mapping, one for a list. *)
Fixpoint legacy_depth (catalog : json) : nat :=
  match catalog with
  | JObj d => S (dict_find "childs" (fun childs => legacy_depth childs) 0%nat d)
  | JArr l =>
    S ((fix deepest (l : list json) : nat :=
          match l with
          | [] => 0%nat
          | child :: rest => Nat.max (legacy_depth child) (deepest rest)
          end) l)
  | _ => 1%nat
  end.

(** ** Reading the walks *)

(** The entry the stable walk appends for a mapping, if it appends one. *)
Definition stable_entry (d : list (string * json)) : option FlatCategory :=
  match dict_get "name" d, dict_get "url" d, dict_get "shard" d, dict_get "query" d with
  | Some n, Some u, Some s, Some q => Some (mkFlat n u s q)
  | _, _, _, _ => None
  end.

(** What the stable walk appends below a mapping it has emitted. *)
Definition stable_below (d : list (string * json)) : result (list FlatCategory) :=
  match dict_get "childs" d with
  | Some childs => Stable.process_catalogue childs
  | None => Ok []
  end.

(** What the legacy walk returns for the children of a mapping. *)
Definition legacy_below (d : list (string * json)) : result (list FlatCategory) :=
  match dict_get "childs" d with
  | Some childs => Legacy.extract_category_data childs
  | None => Ok []
  end.

(** Induction on JSON values, with the hypothesis for the elements of a
    list and the values of a dict. *)
Section json_induction.
Variable P : json -> Prop.
Hypothesis HNull : P JNull.
Hypothesis HBool : forall b, P (JBool b).
Hypothesis HInt : forall z, P (JInt z).
Hypothesis HFloat : forall f, P (JFloat f).
Hypothesis HStr : forall s, P (JStr s).
Hypothesis HArr : forall l, Forall P l -> P (JArr l).
Hypothesis HObj : forall d, Forall (fun kv => P (snd kv)) d -> P (JObj d).

Fixpoint json_nested_ind (j : json) : P j :=
  match j with
  | JNull => HNull
  | JBool b => HBool b
  | JInt z => HInt z
  | JFloat f => HFloat f
  | JStr s => HStr s
  | JArr l =>
    HArr l ((fix go (l : list json) : Forall P l :=
               match l with
               | [] => Forall_nil _
               | x :: l' => Forall_cons x (json_nested_ind x) (go l')
               end) l)
  | JObj d =>
    HObj d ((fix go (d : list (string * json)) : Forall (fun kv => P (snd kv)) d :=
               match d with
               | [] => Forall_nil _
               | kv :: d' => Forall_cons kv (json_nested_ind (snd kv)) (go d')
               end) d)
  end.
End json_induction.

(** [sep] occurs in [s] with [i] characters before it. *)
Definition occurs_at (sep s : string) (i : nat) : Prop :=
  exists a b, s = (a ++ sep ++ b)%string /\ String.length a = i.

(** ** What a page gives *)

(** [requests.get(...).json()] on one reply of the remote side. *)
Definition reply_json (reply : result Response) : result json :=
  response <- reply ;; json_of response.

(** Stable: the one request of [page] is answered and parses to [l]. *)
Definition stable_page_gives (remote : Remote) (page : nat) (l : list Stable.ProductCard)
  : Prop :=
  exists body, reply_json (remote page 0%nat) = Ok body
               /\ Stable.get_products_on_page body = Ok l.

(** Stable: the request of [page], or the parsing of its answer, raises
    [e]. *)
Definition stable_page_raises (remote : Remote) (page : nat) (e : exn) : Prop :=
  reply_json (remote page 0%nat) = Raise e
  \/ exists body, reply_json (remote page 0%nat) = Ok body
                  /\ Stable.get_products_on_page body = Raise e.

(** Legacy: the first [failed] requests of [page] raise, the next one is
    answered with [body]. *)
Definition legacy_page_body (remote : Remote) (page failed : nat) (body : json) : Prop :=
  (forall a, (a < failed)%nat -> exists e, reply_json (remote page a) = Raise e)
  /\ reply_json (remote page failed) = Ok body.

Definition legacy_page_gives (remote : Remote) (page failed : nat)
  (l : list Legacy.Product) : Prop :=
  exists body, legacy_page_body remote page failed body
               /\ Legacy.extract_product_data body = Ok l.

(** The requests of a run that asks for each of [pages] in turn, page [p]
    being asked [S (failed p)] times. *)
Definition asked (failed : nat -> nat) (pages : list nat) : list nat :=
  flat_map (fun p => repeat p (S (failed p))) pages.

(** The console lines and requests of the stable loop over pages that all
    have records. *)
Definition stable_log (recs : nat -> list Stable.ProductCard) (pages : list nat)
  : list event :=
  flat_map (fun q => [Print (Loading_items_from_page q); Request q;
                      Print (Items_added (List.length (recs q)))]) pages.

(** ** What the enrichment gives *)

(** The cards with [sold i] set on the card at position [i], positions
    counted from [i0]. *)
Fixpoint enriched (sold : nat -> json) (i0 : nat) (cards : list Stable.ProductCard)
  : list Stable.ProductCard :=
  match cards with
  | [] => []
  | c :: cs => Stable.with_selled c (sold i0) :: enriched sold (S i0) cs
  end.

(** The ids for which a trace asks the sales endpoint, in order. *)
Fixpoint sales_requested (tr : list event) : list json :=
  match tr with
  | [] => []
  | Sales_request id :: tr' => id :: sales_requested tr'
  | _ :: tr' => sales_requested tr'
  end.

(** ** Further notions on catalogues *)

(** A list of complete nodes whose [childs], where present, are again such
    lists. *)
Fixpoint complete_tree (catalog : json) : bool :=
  match catalog with
  | JArr l =>
    (fix all (l : list json) : bool :=
       match l with
       | [] => true
       | JObj d :: rest =>
         complete d
         && dict_find "childs" (fun childs => complete_tree childs) true d
         && all rest
       | _ :: rest => false
       end) l
  | _ => false
  end.

(** The mappings of a catalogue in pre-order: a mapping, then those of its
    [childs]; the elements of a list one after the other. *)
Fixpoint mappings (catalog : json) : list (list (string * json)) :=
  match catalog with
  | JObj d => d :: dict_find "childs" (fun childs => mappings childs) [] d
  | JArr l =>
    (fix each (l : list json) : list (list (string * json)) :=
       match l with
       | [] => []
       | child :: rest => mappings child ++ each rest
       end) l
  | _ => []
  end.

(** ** Further notions on the harvest *)

(** Stable: what the one request of [page] and the parsing of its answer
    give. *)
Definition stable_page_outcome (remote : Remote) (page : nat)
  : result (list Stable.ProductCard) :=
  body <- reply_json (remote page 0%nat) ;; Stable.get_products_on_page body.

(** The records that [page] adds to the cards: those it parses to, none
    when it raises. *)
Definition stable_records (remote : Remote) (page : nat) : list Stable.ProductCard :=
  match stable_page_outcome remote page with
  | Ok l => l
  | Raise _ => []
  end.

(** Legacy: the loop of [collect_products] on the bodies that the pages
    are answered with, the requests left out. *)
Fixpoint legacy_on_bodies (body : nat -> json) (pages : list nat)
  (products : list Legacy.Product) : result (list Legacy.Product) :=
  match pages with
  | [] => Ok products
  | page :: rest =>
    match Legacy.extract_product_data (body page) with
    | Raise e => Raise e
    | Ok [] => Ok products
    | Ok product_list => legacy_on_bodies body rest (products ++ product_list)
    end
  end.

(** ** Further notions on the enrichment *)

(** [c'] is the card [c], or [c] with some value under [Selled]. *)
Definition same_but_selled (c c' : Stable.ProductCard) : Prop :=
  c' = c \/ exists v, c' = Stable.with_selled c v.

(** The trace events of the sales requests for some cards. *)
Definition sales_requests (cards : list Stable.ProductCard) : list event :=
  map (fun c => Sales_request (Stable.ID c)) cards.

(** ** A sample sales endpoint *)

Definition sales_all_five : nat -> result Response :=
  fun _ => Ok (mkResponse 200 (Ok (JArr [JObj [("qnt", JInt 5)]]))).


(** ** Sample data *)

Definition full_node (n u s q : string) (more : list (string * json))
  : list (string * json) :=
  ("name", JStr n) :: ("url", JStr u) :: ("shard", JStr s) :: ("query", JStr q) :: more.

Definition boots : list (string * json) :=
  full_node "Boots" "/shoes/boots" "s2" "cat=2" [].

Definition shoes : list (string * json) :=
  full_node "Shoes" "/shoes" "s1" "cat=1" [("childs", JArr [JObj boots])].

Definition hats : list (string * json) :=
  full_node "Hats" "/hats" "s3" "cat=3" [].

Definition toys : list (string * json) :=
  full_node "Toys" "/toys" "s4" "cat=4" [].

(** A catalogue [n] levels deep: one complete node per level, each under
    the [childs] of the one above. *)
Fixpoint chain (n : nat) : json :=
  match n with
  | O => JArr []
  | S n' => JArr [JObj (full_node "Hats" "/hats" "s3" "cat=3" [("childs", chain n')])]
  end.

(** A grouping node: [name] and [url] but no [shard] or [query], with a
    complete node below it. *)
Definition grouping : list (string * json) :=
  [("name", JStr "Women"); ("url", JStr "/women"); ("childs", JArr [JObj hats])].

(** A record without [name]. *)
Definition nameless : list (string * json) :=
  [("url", JStr "/promo")].

(** A catalogue in which the name of one entry is the url of a later
    one. *)
Definition clashing : list FlatCategory :=
  [mkFlat (JStr "/hats") (JStr "/misc") (JStr "s9") (JStr "cat=9");
   mkFlat (JStr "Hats") (JStr "/hats") (JStr "s3") (JStr "cat=3")].

(** A listing item and a page holding some. *)
Definition item (id : Z) : json :=
  JObj [("id", JInt id); ("name", JStr "Boot"); ("brand", JStr "Acme");
        ("brandId", JInt 7); ("priceU", JInt 123456); ("salePriceU", JInt 99999);
        ("rating", JInt 5); ("feedbacks", JInt 12)].

Definition page_body (items : list json) : json :=
  JObj [("data", JObj [("products", JArr items)])].

Definition reply (body : json) : result Response :=
  Ok (mkResponse 200 (Ok body)).

(** A remote side that has one item on every page. *)
Definition remote_one_each : Remote :=
  fun page _ => reply (page_body [item (Z.of_nat page)]).

(** A remote side that has the items 1 to [n] on the first page and
    nothing after it. *)
Definition remote_all_at_once (n : nat) : Remote :=
  fun page _ =>
    match page with
    | 1%nat => reply (page_body (map (fun i => item (Z.of_nat i)) (seq 1 n)))
    | _ => reply (page_body [])
    end.

(** A remote side whose first answer to every page is a redirect loop and
    whose later answers are empty pages. *)
Definition remote_redirects_once : Remote :=
  fun _ attempt =>
    match attempt with
    | O => Raise TooManyRedirects
    | S _ => reply (page_body [])
    end.

(** A remote side on which every connection times out. *)
Definition remote_unreachable : Remote :=
  fun _ _ => Raise ConnectTimeout.

(** A remote side that answers the first page and rejects the second with
    an error payload. *)
Definition remote_rejects_second : Remote :=
  fun page _ =>
    match page with
    | 1%nat => reply (page_body [item 1])
    | _ => reply (JObj [("error", JStr "bad parameters")])
    end.

(** The card and the product that the two parsers make of [item id]. *)
Definition card_of (id : Z) : Stable.ProductCard :=
  Stable.mkCard (JInt id) (JInt id) (JStr "Boot") (JStr "Acme") (JInt 7)
    1234 999 (JInt 5) (JInt 12) None.

Definition product_of (id : Z) : Legacy.Product :=
  Legacy.mkProduct (JInt id) (JStr "Boot") 1234 999 JNull JNull (JStr "Acme")
    (JInt 5) JNull JNull (JInt 12) JNull JNull JNull (JInt id).

(** A parser object as [__init__] leaves it. *)
Definition fresh : Stable.Parser := Stable.mkParser [] [].

(** A sales endpoint that answers 5 for every card but the second, whose
    request times out while the reply is read. *)
Definition sales_second_read_timeout : nat -> result Response :=
  fun i =>
    match i with
    | 1%nat => Raise ReadTimeout
    | _ => reply (JArr [JObj [("qnt", JInt 5)]])
    end.

(** A sales endpoint that answers 5 for every card but the second, whose
    connection times out. *)
Definition sales_second_connect_timeout : nat -> result Response :=
  fun i =>
    match i with
    | 1%nat => Raise ConnectTimeout
    | _ => reply (JArr [JObj [("qnt", JInt 5)]])
    end.

Definition three_cards : Stable.Parser :=
  Stable.mkParser [card_of 1; card_of 2; card_of 3] [].

(** ** Lemmas on dicts and results *)

Lemma dict_find_get {A} (k : string) (found : json -> A) (missing : A) d :
  dict_find k found missing d
  = match dict_get k d with Some v => found v | None => missing end.
Proof.
  induction d as [|[k' v] d IH]; simpl; [reflexivity|].
  destruct (String.eqb k k'); [reflexivity|exact IH].
Qed.

Lemma dict_get_Forall (P : json -> Prop) k d v :
  Forall (fun kv => P (snd kv)) d -> dict_get k d = Some v -> P v.
Proof.
  induction 1 as [|[k' v'] d Hv _ IH]; simpl; [discriminate|].
  destruct (String.eqb k k'); [|exact IH].
  intros [= <-]. exact Hv.
Qed.

Lemma bind_Ok {A B} (r : result A) (k : A -> result B) b :
  bind r k = Ok b <-> exists a, r = Ok a /\ k a = Ok b.
Proof.
  destruct r as [a|e]; simpl; split.
  - intros H. exists a. auto.
  - intros (a' & [= <-] & H). exact H.
  - discriminate.
  - intros (a' & [=] & _).
Qed.

Lemma bind_assoc {A B C} (r : result A) (f : A -> result B) (g : B -> result C) :
  bind (bind r f) g = bind r (fun a => bind (f a) g).
Proof. destruct r; reflexivity. Qed.

Lemma bind_ret {A} (r : result A) : bind r Ok = r.
Proof. destruct r; reflexivity. Qed.

Lemma stable_entry_complete d :
  complete d = true <-> exists e, stable_entry d = Some e.
Proof.
  unfold complete, stable_entry, dict_mem.
  destruct (dict_get "name" d), (dict_get "url" d),
    (dict_get "shard" d), (dict_get "query" d); simpl;
    split; try discriminate; try (intros [e [=]]); eauto.
Qed.

Lemma stable_entry_incomplete d :
  complete d = false <-> stable_entry d = None.
Proof.
  unfold complete, stable_entry, dict_mem.
  destruct (dict_get "name" d), (dict_get "url" d),
    (dict_get "shard" d), (dict_get "query" d); simpl;
    split; try discriminate; reflexivity.
Qed.

(** ** The stable walk *)

Lemma traverse_nil acc : Stable.traverse_json (JArr []) acc = Ok acc.
Proof. reflexivity. Qed.

Lemma traverse_cons_obj d rest acc :
  Stable.traverse_json (JArr (JObj d :: rest)) acc
  = match stable_entry d with
    | Some e =>
      c <- match dict_get "childs" d with
           | Some childs => Stable.traverse_json childs (acc ++ [e])
           | None => Ok (acc ++ [e])
           end ;;
      Stable.traverse_json (JArr rest) c
    | None => Stable.traverse_json (JArr rest) acc
    end.
Proof.
  unfold stable_entry. cbn [Stable.traverse_json].
  destruct (dict_get "name" d), (dict_get "url" d),
    (dict_get "shard" d), (dict_get "query" d); try reflexivity.
  rewrite dict_find_get. destruct (dict_get "childs" d); reflexivity.
Qed.

Lemma traverse_cons_other x rest acc :
  (forall d, x <> JObj d) ->
  Stable.traverse_json (JArr (x :: rest)) acc = Raise TypeError.
Proof.
  intros H. destruct x; try reflexivity. destruct (H d eq_refl).
Qed.

Arguments Stable.traverse_json : simpl never.

(** Induction that also reaches the values stored in the elements of a
    list, as the walks do through [childs]. *)
Lemma json_deep_ind (P : json -> Prop) :
  P JNull -> (forall b, P (JBool b)) -> (forall z, P (JInt z)) ->
  (forall f, P (JFloat f)) -> (forall s, P (JStr s)) ->
  (forall l,
      Forall (fun x => P x /\ forall d k v, x = JObj d -> dict_get k d = Some v -> P v) l ->
      P (JArr l)) ->
  (forall d, (forall k v, dict_get k d = Some v -> P v) -> P (JObj d)) ->
  forall j, P j.
Proof.
  intros HN HB HI HF HS HA HO j.
  enough (P j /\ forall d k v, j = JObj d -> dict_get k d = Some v -> P v) by tauto.
  induction j as [| | | |s|l IH|d IH] using json_nested_ind;
    try (split; [auto|discriminate]).
  assert (Hd : forall k v, dict_get k d = Some v -> P v).
  { intros k v Hk.
    apply (dict_get_Forall
             (fun j => P j /\ forall d k v, j = JObj d -> dict_get k d = Some v -> P v)
             k d v IH Hk). }
  split; [apply HO; exact Hd|].
  intros d' k v [= <-]. apply Hd.
Qed.

(** The walk only appends: started from [acc] it gives [acc] followed by
    what it gives started from the empty list, and it raises in the same
    cases. *)
Lemma traverse_acc j :
  forall acc,
    Stable.traverse_json j acc
    = l <- Stable.traverse_json j [] ;; Ok (acc ++ l).
Proof.
  induction j as [| | | |s|l IH|d IH] using json_deep_ind; intros acc;
    try reflexivity.
  - destruct s; unfold Stable.traverse_json; cbn [bind];
      [rewrite app_nil_r|]; reflexivity.
  - revert acc. induction IH as [|x l [_ Hx] _ IHl]; intros acc.
    + rewrite !traverse_nil. cbn [bind]. rewrite app_nil_r. reflexivity.
    + destruct x; try reflexivity.
      rewrite !traverse_cons_obj.
      destruct (stable_entry d) as [e|]; [|apply IHl].
      destruct (dict_get "childs" d) as [childs|] eqn:Hc.
      * pose proof (Hx d _ _ eq_refl Hc) as Hch.
        rewrite (Hch (acc ++ [e])), (Hch ([] ++ [e])).
        destruct (Stable.traverse_json childs []) as [lc|err]; simpl; [|reflexivity].
        rewrite (IHl ((acc ++ [e]) ++ lc)), (IHl (e :: lc)).
        destruct (Stable.traverse_json (JArr l) []) as [lr|err]; simpl; [|reflexivity].
        rewrite <- !app_assoc. reflexivity.
      * simpl.
        rewrite (IHl (acc ++ [e])), (IHl [e]).
        destruct (Stable.traverse_json (JArr l) []) as [lr|err]; simpl; [|reflexivity].
        rewrite <- !app_assoc. reflexivity.
  - destruct d; unfold Stable.traverse_json; cbn [bind];
      [rewrite app_nil_r|]; reflexivity.
Qed.

Lemma process_nil : Stable.process_catalogue (JArr []) = Ok [].
Proof. reflexivity. Qed.

(** The stable walk of a list, read off its first element. *)
Lemma process_cons_obj d rest :
  Stable.process_catalogue (JArr (JObj d :: rest))
  = match stable_entry d with
    | Some e =>
      below <- stable_below d ;;
      after <- Stable.process_catalogue (JArr rest) ;;
      Ok (e :: below ++ after)
    | None => Stable.process_catalogue (JArr rest)
    end.
Proof.
  unfold Stable.process_catalogue, stable_below. rewrite traverse_cons_obj.
  destruct (stable_entry d) as [e|]; [|reflexivity].
  destruct (dict_get "childs" d) as [childs|].
  - rewrite traverse_acc. unfold Stable.process_catalogue.
    destruct (Stable.traverse_json childs []) as [lc|err]; [|reflexivity].
    cbn [bind app]. rewrite traverse_acc.
    destruct (Stable.traverse_json (JArr rest) []); reflexivity.
  - cbn [bind app]. rewrite traverse_acc.
    destruct (Stable.traverse_json (JArr rest) []); reflexivity.
Qed.

Lemma process_app l1 l2 :
  Stable.process_catalogue (JArr (l1 ++ l2))
  = before <- Stable.process_catalogue (JArr l1) ;;
    after <- Stable.process_catalogue (JArr l2) ;;
    Ok (before ++ after).
Proof.
  induction l1 as [|x l1 IH].
  - rewrite process_nil. cbn [bind app].
    destruct (Stable.process_catalogue (JArr l2)); reflexivity.
  - rewrite <- app_comm_cons. destruct x; try reflexivity.
    rewrite !process_cons_obj. destruct (stable_entry d) as [e|]; [|exact IH].
    destruct (stable_below d) as [lc|err]; [|reflexivity].
    cbn [bind]. rewrite IH.
    destruct (Stable.process_catalogue (JArr l1)) as [la|err]; [|reflexivity].
    cbn [bind].
    destruct (Stable.process_catalogue (JArr l2)) as [lb|err]; [|reflexivity].
    cbn [bind]. rewrite app_comm_cons, !app_assoc. reflexivity.
Qed.

(** On a list of nodes the stable walk returns, and returns one entry per
    complete node below complete nodes only. *)
Lemma stable_walk_length catalog :
  list_of_nodes catalog = true ->
  exists l, Stable.process_catalogue catalog = Ok l
            /\ List.length l = count_complete catalog.
Proof.
  induction catalog as [| | | |s|l IH|d IH] using json_deep_ind;
    try discriminate.
  induction IH as [|x l [_ Hx] _ IHl]; intros Hs.
  - exists []. split; reflexivity.
  - destruct x; try discriminate.
    cbn [list_of_nodes] in Hs. apply andb_true_iff in Hs as [Hd Hrest].
    destruct (IHl Hrest) as (lr & Er & Hr).
    rewrite process_cons_obj. cbn [count_complete].
    cbn [count_complete] in Hr.
    destruct (complete d) eqn:Hc.
    + apply stable_entry_complete in Hc as [e He]. rewrite He.
      rewrite dict_find_get in Hd. rewrite dict_find_get.
      unfold stable_below.
      destruct (dict_get "childs" d) as [childs|] eqn:Hch.
      * destruct (Hx d _ _ eq_refl Hch Hd) as (lc & Ec & Hlc).
        rewrite Ec, Er. cbn [bind]. eexists. split; [reflexivity|].
        cbn [List.length]. rewrite length_app. lia.
      * rewrite Er. cbn [bind]. eexists. split; [reflexivity|].
        cbn [List.length app]. lia.
    + apply stable_entry_incomplete in Hc. rewrite Hc, Er.
      exists lr. split; [reflexivity|]. lia.
Qed.

(** ** The legacy walk *)

Lemma extract_nil : Legacy.extract_category_data (JArr []) = Ok [].
Proof. reflexivity. Qed.

Lemma extract_cons x rest :
  Legacy.extract_category_data (JArr (x :: rest))
  = below <- Legacy.extract_category_data x ;;
    categories <- Legacy.extract_category_data (JArr rest) ;;
    Ok (below ++ categories).
Proof. reflexivity. Qed.

Lemma extract_obj d :
  Legacy.extract_category_data (JObj d)
  = c <- Legacy.category d ;;
    below <- legacy_below d ;;
    Ok (c :: below).
Proof.
  cbn [Legacy.extract_category_data]. rewrite dict_find_get.
  unfold legacy_below. destruct (dict_get "childs" d); [reflexivity|].
  destruct (Legacy.category d); reflexivity.
Qed.

Arguments Legacy.extract_category_data : simpl never.

Lemma extract_app l1 l2 :
  Legacy.extract_category_data (JArr (l1 ++ l2))
  = before <- Legacy.extract_category_data (JArr l1) ;;
    after <- Legacy.extract_category_data (JArr l2) ;;
    Ok (before ++ after).
Proof.
  induction l1 as [|x l1 IH].
  - rewrite extract_nil. cbn [bind app].
    destruct (Legacy.extract_category_data (JArr l2)); reflexivity.
  - rewrite <- app_comm_cons, !extract_cons.
    destruct (Legacy.extract_category_data x) as [lx|err]; [|reflexivity].
    cbn [bind]. rewrite IH.
    destruct (Legacy.extract_category_data (JArr l1)) as [la|err]; [|reflexivity].
    cbn [bind].
    destruct (Legacy.extract_category_data (JArr l2)) as [lb|err]; [|reflexivity].
    cbn [bind]. rewrite app_assoc. reflexivity.
Qed.

Lemma category_named d :
  dict_mem "name" d && dict_mem "url" d = true ->
  exists c, Legacy.category d = Ok c.
Proof.
  unfold dict_mem, Legacy.category, getitem, dot_get.
  destruct (dict_get "name" d), (dict_get "url" d); try discriminate.
  intros _. destruct (dict_get "shard" d), (dict_get "query" d);
    cbn [bind]; eauto.
Qed.

Lemma category_unnamed d :
  dict_mem "name" d && dict_mem "url" d = false ->
  Legacy.category d
  = Raise (KeyError (JStr (if dict_mem "name" d then "url" else "name"))).
Proof.
  unfold dict_mem, Legacy.category, getitem, dot_get.
  destruct (dict_get "name" d), (dict_get "url" d); try discriminate;
    intros _; cbn [bind]; try reflexivity.
  destruct (dict_get "shard" d); reflexivity.
Qed.

(** On a tree of named nodes the legacy walk returns, and returns one
    entry per node. *)
Lemma legacy_walk_length catalog :
  named_tree catalog = true ->
  exists l, Legacy.extract_category_data catalog = Ok l
            /\ List.length l = count_named catalog.
Proof.
  induction catalog as [| | | |s|l IH|d IH] using json_deep_ind;
    try discriminate.
  - induction IH as [|x l [Hx _] _ IHl]; intros Hs.
    + exists []. split; reflexivity.
    + cbn [named_tree] in Hs. apply andb_true_iff in Hs as [Hd Hrest].
      destruct (Hx Hd) as (lx & Ex & Hlx).
      destruct (IHl Hrest) as (lr & Er & Hr).
      rewrite extract_cons, Ex, Er. cbn [bind].
      eexists. split; [reflexivity|].
      rewrite length_app, Hlx, Hr. reflexivity.
  - intros Hs. cbn [named_tree] in Hs.
    apply andb_true_iff in Hs as [Hn Hc].
    rewrite extract_obj. destruct (category_named d Hn) as [c Ec].
    rewrite Ec. cbn [bind count_named]. rewrite Hn.
    rewrite dict_find_get in Hc. rewrite dict_find_get. unfold legacy_below.
    destruct (dict_get "childs" d) as [childs|] eqn:Hch.
    + destruct (IH _ _ Hch Hc) as (lc & Elc & Hlc).
      rewrite Elc. cbn [bind]. eexists. split; [reflexivity|].
      cbn [List.length]. lia.
    + cbn [bind]. eexists. split; reflexivity.
Qed.

(** ** The walks under the recursion limit *)

Lemma walk_categories_cons_obj walk d rest acc :
  Stable.walk_categories walk (JObj d :: rest) acc
  = match stable_entry d with
    | Some e =>
      c <- match dict_get "childs" d with
           | Some childs => walk childs (acc ++ [e])
           | None => Ok (acc ++ [e])
           end ;;
      Stable.walk_categories walk rest c
    | None => Stable.walk_categories walk rest acc
    end.
Proof.
  unfold stable_entry. cbn [Stable.walk_categories].
  destruct (dict_get "name" d), (dict_get "url" d),
    (dict_get "shard" d), (dict_get "query" d); try reflexivity.
  destruct (dict_get "childs" d); reflexivity.
Qed.

Lemma walk_categories_app walk l1 l2 :
  forall acc,
    Stable.walk_categories walk (l1 ++ l2) acc
    = c <- Stable.walk_categories walk l1 acc ;; Stable.walk_categories walk l2 c.
Proof.
  induction l1 as [|x l1 IH]; intros acc; [reflexivity|].
  rewrite <- app_comm_cons. destruct x; try reflexivity.
  rewrite !walk_categories_cons_obj.
  destruct (stable_entry d) as [e|]; [|apply IH].
  destruct (dict_get "childs" d) as [childs|]; cbn [bind]; [|apply IH].
  destruct (walk childs (acc ++ [e])) as [c|err]; cbn [bind]; [apply IH|reflexivity].
Qed.

Lemma traverse_within_list frames l acc :
  Stable.traverse_json_within (S frames) (JArr l) acc
  = Stable.walk_categories (Stable.traverse_json_within frames) l acc.
Proof. reflexivity. Qed.

(** A value that is not a list needs one call only. *)
Lemma traverse_within_leaf frames j acc :
  (forall l, j <> JArr l) ->
  Stable.traverse_json_within (S frames) j acc = Stable.traverse_json j acc.
Proof.
  intros H. destruct j as [| | | |s|l|d]; try reflexivity.
  - destruct s; reflexivity.
  - destruct (H l eq_refl).
  - destruct d as [|[k v] d]; reflexivity.
Qed.

Lemma stable_depth_pos catalog : (1 <= stable_depth catalog)%nat.
Proof. destruct catalog; cbn [stable_depth]; lia. Qed.

Lemma stable_depth_rest x rest :
  (stable_depth (JArr rest) <= stable_depth (JArr (x :: rest)))%nat.
Proof. destruct x; cbn [stable_depth]; lia. Qed.

Lemma stable_depth_childs d rest childs :
  complete d = true -> dict_get "childs" d = Some childs ->
  (S (stable_depth childs) <= stable_depth (JArr (JObj d :: rest)))%nat.
Proof.
  intros Hd Hc. cbn [stable_depth]. rewrite Hd, dict_find_get, Hc. lia.
Qed.

(** With as many calls left as the catalogue is deep, the limit is not
    met: the walk is the walk without limit. *)
Lemma stable_within_enough frames :
  forall catalog acc,
    (stable_depth catalog <= frames)%nat ->
    Stable.traverse_json_within frames catalog acc = Stable.traverse_json catalog acc.
Proof.
  induction frames as [|frames IH]; intros catalog acc H.
  - pose proof (stable_depth_pos catalog). lia.
  - destruct catalog as [| | | |s|l|d];
      try (apply traverse_within_leaf; discriminate).
    rewrite traverse_within_list. revert acc H.
    induction l as [|x l IHl]; intros acc H; [reflexivity|].
    assert (Hrest : (stable_depth (JArr l) <= S frames)%nat)
      by (pose proof (stable_depth_rest x l); lia).
    destruct x; try reflexivity.
    rewrite walk_categories_cons_obj, traverse_cons_obj.
    destruct (stable_entry d) as [e|] eqn:He; [|apply IHl; exact Hrest].
    assert (Hd : complete d = true) by (apply stable_entry_complete; eauto).
    destruct (dict_get "childs" d) as [childs|] eqn:Hc.
    + rewrite IH by (pose proof (stable_depth_childs d l childs Hd Hc); lia).
      destruct (Stable.traverse_json childs (acc ++ [e])) as [c|err];
        cbn [bind]; [apply IHl; exact Hrest|reflexivity].
    + cbn [bind]. apply IHl. exact Hrest.
Qed.

(** Whatever is left, the limit changes the walk in one way only: it can
    end it with [RecursionError]. *)
Lemma stable_within_cases frames :
  forall catalog acc,
    Stable.traverse_json_within frames catalog acc = Raise RecursionError
    \/ Stable.traverse_json_within frames catalog acc = Stable.traverse_json catalog acc.
Proof.
  induction frames as [|frames IH]; intros catalog acc; [left; reflexivity|].
  destruct catalog as [| | | |s|l|d];
    try (right; apply traverse_within_leaf; discriminate).
  rewrite traverse_within_list. revert acc.
  induction l as [|x l IHl]; intros acc; [right; reflexivity|].
  destruct x; try (right; reflexivity).
  rewrite walk_categories_cons_obj, traverse_cons_obj.
  destruct (stable_entry d) as [e|]; [|apply IHl].
  destruct (dict_get "childs" d) as [childs|]; [|cbn [bind]; apply IHl].
  destruct (IH childs (acc ++ [e])) as [E|E]; rewrite E; [left; reflexivity|].
  destruct (Stable.traverse_json childs (acc ++ [e])) as [c|err];
    cbn [bind]; [apply IHl|right; reflexivity].
Qed.

Lemma extend_each_app walk l1 l2 :
  Legacy.extend_each walk (l1 ++ l2)
  = before <- Legacy.extend_each walk l1 ;;
    after <- Legacy.extend_each walk l2 ;;
    Ok (before ++ after).
Proof.
  induction l1 as [|x l1 IH]; cbn [app Legacy.extend_each].
  - cbn [bind]. destruct (Legacy.extend_each walk l2); reflexivity.
  - destruct (walk x) as [lx|err]; [|reflexivity]. cbn [bind]. rewrite IH.
    destruct (Legacy.extend_each walk l1) as [la|err]; [|reflexivity].
    cbn [bind].
    destruct (Legacy.extend_each walk l2) as [lb|err]; [|reflexivity].
    cbn [bind]. rewrite app_assoc. reflexivity.
Qed.

Lemma extract_within_list frames l :
  Legacy.extract_category_data_within (S frames) (JArr l)
  = Legacy.extend_each (Legacy.extract_category_data_within frames) l.
Proof. reflexivity. Qed.

Lemma extract_within_obj frames d :
  Legacy.extract_category_data_within (S frames) (JObj d)
  = c <- Legacy.category d ;;
    below <- match dict_get "childs" d with
             | Some childs => Legacy.extract_category_data_within frames childs
             | None => Ok []
             end ;;
    Ok (c :: below).
Proof.
  cbn [Legacy.extract_category_data_within].
  destruct (Legacy.category d); [|reflexivity].
  destruct (dict_get "childs" d); reflexivity.
Qed.

(** A non-empty string is iterated without end: whatever is left, the walk
    meets the limit. *)
Lemma extract_within_string frames :
  forall c s,
    Legacy.extract_category_data_within frames (JStr (String c s))
    = Raise RecursionError.
Proof.
  induction frames as [|frames IH]; intros c s; [reflexivity|].
  cbn [Legacy.extract_category_data_within iter chars bind Legacy.extend_each].
  rewrite IH. reflexivity.
Qed.

Lemma legacy_depth_pos catalog : (1 <= legacy_depth catalog)%nat.
Proof. destruct catalog; cbn [legacy_depth]; lia. Qed.

Lemma legacy_depth_cons x rest :
  (S (legacy_depth x) <= legacy_depth (JArr (x :: rest)))%nat
  /\ (legacy_depth (JArr rest) <= legacy_depth (JArr (x :: rest)))%nat.
Proof. cbn [legacy_depth]. lia. Qed.

Lemma legacy_depth_childs d childs :
  dict_get "childs" d = Some childs ->
  legacy_depth (JObj d) = S (legacy_depth childs).
Proof. intros Hc. cbn [legacy_depth]. rewrite dict_find_get, Hc. reflexivity. Qed.

Lemma legacy_within_enough frames :
  forall catalog,
    (legacy_depth catalog <= frames)%nat ->
    Legacy.extract_category_data_within frames catalog
    = Legacy.extract_category_data catalog.
Proof.
  induction frames as [|frames IH]; intros catalog H.
  - pose proof (legacy_depth_pos catalog). lia.
  - destruct catalog as [| | | |s|l|d]; try reflexivity.
    + destruct s; [reflexivity|]. rewrite extract_within_string. reflexivity.
    + rewrite extract_within_list. revert H.
      induction l as [|x l IHl]; intros H; [reflexivity|].
      destruct (legacy_depth_cons x l) as [Hx Hrest].
      cbn [Legacy.extend_each]. rewrite extract_cons.
      rewrite IH by lia. rewrite IHl by lia. reflexivity.
    + rewrite extract_within_obj, extract_obj. unfold legacy_below.
      destruct (dict_get "childs" d) as [childs|] eqn:Hc; [|reflexivity].
      rewrite IH by (rewrite (legacy_depth_childs d childs Hc) in H; lia).
      reflexivity.
Qed.

Lemma legacy_within_cases frames :
  forall catalog,
    Legacy.extract_category_data_within frames catalog = Raise RecursionError
    \/ Legacy.extract_category_data_within frames catalog
       = Legacy.extract_category_data catalog.
Proof.
  induction frames as [|frames IH]; intros catalog; [left; reflexivity|].
  destruct catalog as [| | | |s|l|d]; try (right; reflexivity).
  - destruct s; [right; reflexivity|left; apply extract_within_string].
  - rewrite extract_within_list.
    induction l as [|x l IHl]; [right; reflexivity|].
    cbn [Legacy.extend_each]. rewrite extract_cons.
    destruct (IH x) as [E|E]; rewrite E; [left; reflexivity|].
    destruct (Legacy.extract_category_data x) as [lx|err];
      cbn [bind]; [|right; reflexivity].
    destruct IHl as [El|El]; rewrite El; [left; reflexivity|right; reflexivity].
  - rewrite extract_within_obj, extract_obj. unfold legacy_below.
    destruct (Legacy.category d) as [c|err]; cbn [bind]; [|right; reflexivity].
    destruct (dict_get "childs" d) as [childs|]; [|right; reflexivity].
    destruct (IH childs) as [E|E]; rewrite E; [left; reflexivity|right; reflexivity].
Qed.

(** When the walks return under the limit, they return what the walks
    without limit return. *)
Lemma within_returns frames catalog l :
  (Stable.process_catalogue_within frames catalog = Ok l ->
   Stable.process_catalogue catalog = Ok l)
  /\
  (Legacy.extract_category_data_within frames catalog = Ok l ->
   Legacy.extract_category_data catalog = Ok l).
Proof.
  unfold Stable.process_catalogue_within, Stable.process_catalogue. split; intros H.
  - destruct (stable_within_cases frames catalog []) as [E|E]; congruence.
  - destruct (legacy_within_cases frames catalog) as [E|E]; congruence.
Qed.

Lemma stable_depth_cons_obj d rest :
  stable_depth (JArr (JObj d :: rest))
  = Nat.max
      (S (if complete d
          then match dict_get "childs" d with
               | Some childs => stable_depth childs
               | None => 0%nat
               end
          else 0%nat))
      (stable_depth (JArr rest)).
Proof.
  cbn [stable_depth]. rewrite dict_find_get, Nat.succ_max_distr. reflexivity.
Qed.

(** On a list of nodes the walk without limit returns, whatever the list
    it is handed. *)
Lemma stable_walk_returns catalog acc :
  list_of_nodes catalog = true ->
  exists l, Stable.traverse_json catalog acc = Ok l.
Proof.
  intros Hs. destruct (stable_walk_length catalog Hs) as (l & E & _).
  unfold Stable.process_catalogue in E. rewrite traverse_acc, E.
  eexists. reflexivity.
Qed.

(** A list of nodes deeper than the calls that are left ends the stable
    walk with [RecursionError]. *)
Lemma stable_too_deep frames :
  forall catalog acc,
    list_of_nodes catalog = true ->
    (frames < stable_depth catalog)%nat ->
    Stable.traverse_json_within frames catalog acc = Raise RecursionError.
Proof.
  induction frames as [|frames IH]; intros catalog acc Hs H; [reflexivity|].
  destruct catalog as [| | | |s|l|d]; try discriminate Hs.
  rewrite traverse_within_list. revert acc Hs H.
  induction l as [|x l IHl]; intros acc Hs H; [cbn [stable_depth] in H; lia|].
  destruct x; try discriminate Hs.
  cbn [list_of_nodes] in Hs. apply andb_true_iff in Hs as [Hd Hrest].
  rewrite stable_depth_cons_obj in H.
  rewrite walk_categories_cons_obj.
  destruct (complete d) eqn:Hc.
  - apply stable_entry_complete in Hc as [e He]. rewrite He.
    rewrite dict_find_get in Hd.
    destruct (dict_get "childs" d) as [childs|] eqn:Hch.
    + destruct (Nat.le_gt_cases (stable_depth childs) frames) as [Hle|Hgt].
      * rewrite stable_within_enough by exact Hle.
        destruct (stable_walk_returns childs (acc ++ [e]) Hd) as [c Ec].
        rewrite Ec. cbn [bind]. apply IHl; [exact Hrest|lia].
      * rewrite (IH childs (acc ++ [e]) Hd Hgt). reflexivity.
    + cbn [bind]. apply IHl; [exact Hrest|lia].
  - apply stable_entry_incomplete in Hc. rewrite Hc.
    apply IHl; [exact Hrest|lia].
Qed.

(** A tree of named nodes deeper than the calls that are left ends the
    legacy walk with [RecursionError]. *)
Lemma legacy_too_deep frames :
  forall catalog,
    named_tree catalog = true ->
    (frames < legacy_depth catalog)%nat ->
    Legacy.extract_category_data_within frames catalog = Raise RecursionError.
Proof.
  induction frames as [|frames IH]; intros catalog Hs H; [reflexivity|].
  destruct catalog as [| | | |s|l|d]; try discriminate Hs.
  - rewrite extract_within_list. revert Hs H.
    induction l as [|x l IHl]; intros Hs H; [cbn [legacy_depth] in H; lia|].
    cbn [named_tree] in Hs. apply andb_true_iff in Hs as [Hx Hrest].
    cbn [Legacy.extend_each].
    destruct (Nat.le_gt_cases (legacy_depth x) frames) as [Hle|Hgt].
    + rewrite legacy_within_enough by exact Hle.
      destruct (legacy_walk_length x Hx) as (lx & Ex & _). rewrite Ex.
      cbn [bind]. rewrite IHl; [reflexivity|exact Hrest|].
      cbn [legacy_depth] in H. cbn [legacy_depth]. lia.
    + rewrite (IH x Hx Hgt). reflexivity.
  - cbn [named_tree] in Hs. apply andb_true_iff in Hs as [Hn Hc].
    rewrite extract_within_obj. destruct (category_named d Hn) as [c Ec].
    rewrite Ec. cbn [bind]. rewrite dict_find_get in Hc.
    destruct (dict_get "childs" d) as [childs|] eqn:Hch.
    + rewrite (legacy_depth_childs d childs Hch) in H.
      rewrite (IH childs Hc) by lia. reflexivity.
    + cbn [legacy_depth] in H. rewrite dict_find_get, Hch in H. lia.
Qed.

(** ** Claims on the catalogue walk *)

(** C9.  The walk lists the catalogue in pre-order.  For a node among its
    siblings, in both programs: when the node is emitted, the result is
    what the earlier siblings give, then the node's own entry, then at
    once what its [childs] give, and only then what the later siblings
    give. *)
Theorem flatten_preorder (pre : list json) (d : list (string * json)) (post : list json) :
  (forall e lp lc lq,
      stable_entry d = Some e ->
      Stable.process_catalogue (JArr pre) = Ok lp ->
      stable_below d = Ok lc ->
      Stable.process_catalogue (JArr post) = Ok lq ->
      Stable.process_catalogue (JArr (pre ++ JObj d :: post))
      = Ok (lp ++ e :: lc ++ lq))
  /\
  (forall c lp lc lq,
      Legacy.category d = Ok c ->
      Legacy.extract_category_data (JArr pre) = Ok lp ->
      legacy_below d = Ok lc ->
      Legacy.extract_category_data (JArr post) = Ok lq ->
      Legacy.extract_category_data (JArr (pre ++ JObj d :: post))
      = Ok (lp ++ c :: lc ++ lq)).
Proof.
  split.
  - intros e lp lc lq He Hp Hc Hq.
    rewrite process_app, Hp. cbn [bind].
    rewrite process_cons_obj, He, Hc, Hq. reflexivity.
  - intros c lp lc lq He Hp Hc Hq.
    rewrite extract_app, Hp. cbn [bind].
    rewrite extract_cons, extract_obj, He, Hc, Hq. reflexivity.
Qed.

Lemma flatten_preorder_witness :
  Stable.process_catalogue (JArr ([JObj hats] ++ JObj shoes :: [JObj toys]))
  = Ok ([mkFlat (JStr "Hats") (JStr "/hats") (JStr "s3") (JStr "cat=3")]
        ++ mkFlat (JStr "Shoes") (JStr "/shoes") (JStr "s1") (JStr "cat=1")
        :: [mkFlat (JStr "Boots") (JStr "/shoes/boots") (JStr "s2") (JStr "cat=2")]
        ++ [mkFlat (JStr "Toys") (JStr "/toys") (JStr "s4") (JStr "cat=4")])
  /\
  Legacy.extract_category_data (JArr ([JObj hats] ++ JObj shoes :: [JObj toys]))
  = Ok ([mkFlat (JStr "Hats") (JStr "/hats") (JStr "s3") (JStr "cat=3")]
        ++ mkFlat (JStr "Shoes") (JStr "/shoes") (JStr "s1") (JStr "cat=1")
        :: [mkFlat (JStr "Boots") (JStr "/shoes/boots") (JStr "s2") (JStr "cat=2")]
        ++ [mkFlat (JStr "Toys") (JStr "/toys") (JStr "s4") (JStr "cat=4")]).
Proof.
  destruct (flatten_preorder [JObj hats] shoes [JObj toys]) as [HS HL].
  split; [apply HS | apply HL]; reflexivity.
Defined.

(** C2, as the programs have it, [frames] being the nested calls that the
    interpreter still allows when the walk is called.  Stable: on a list
    of nodes that is less deep than [frames] the walk returns one entry
    per complete node (all of [name], [url], [shard], [query]) that has
    only complete nodes above it; an incomplete node is passed over
    without an exception, its [childs] are not visited, and its siblings
    are walked as if it were not there.  Legacy: on a tree whose nodes all
    carry [name] and [url] and that is less deep than [frames] the walk
    returns one entry per node; a node without [name] or [url] raises
    [KeyError], which ends the walk.  The depth is bounded strictly, which
    leaves the deepest call one frame for the built-in calls that an
    interpreter before 3.12 counts too.  A list of nodes, or a tree of
    named nodes, that is deeper than [frames] gives no entry: the walk
    ends with [RecursionError]. *)
Theorem flatten_counts (frames : nat) (catalog : json) (pre : list json)
  (d : list (string * json)) (post : list json) :
  ((stable_depth catalog < frames)%nat ->
   list_of_nodes catalog = true ->
   exists l, Stable.process_catalogue_within frames catalog = Ok l
             /\ List.length l = count_complete catalog)
  /\
  (complete d = false ->
   Stable.process_catalogue_within frames (JArr (pre ++ JObj d :: post))
   = Stable.process_catalogue_within frames (JArr (pre ++ post)))
  /\
  ((legacy_depth catalog < frames)%nat ->
   named_tree catalog = true ->
   exists l, Legacy.extract_category_data_within frames catalog = Ok l
             /\ List.length l = count_named catalog)
  /\
  (dict_mem "name" d && dict_mem "url" d = false ->
   (2 < frames)%nat ->
   forall lp, Legacy.extract_category_data_within frames (JArr pre) = Ok lp ->
   Legacy.extract_category_data_within frames (JArr (pre ++ JObj d :: post))
   = Raise (KeyError (JStr (if dict_mem "name" d then "url" else "name"))))
  /\
  ((frames < stable_depth catalog)%nat ->
   list_of_nodes catalog = true ->
   Stable.process_catalogue_within frames catalog = Raise RecursionError)
  /\
  ((frames < legacy_depth catalog)%nat ->
   named_tree catalog = true ->
   Legacy.extract_category_data_within frames catalog = Raise RecursionError).
Proof.
  split.
  { intros Hf Hs. unfold Stable.process_catalogue_within.
    rewrite stable_within_enough by lia. apply stable_walk_length. exact Hs. }
  split.
  { intros Hd. apply stable_entry_incomplete in Hd.
    unfold Stable.process_catalogue_within.
    destruct frames as [|frames]; [reflexivity|].
    rewrite !traverse_within_list, !walk_categories_app.
    destruct (Stable.walk_categories _ pre []) as [c|err]; [|reflexivity].
    cbn [bind]. rewrite walk_categories_cons_obj, Hd. reflexivity. }
  split.
  { intros Hf Hs. rewrite legacy_within_enough by lia.
    apply legacy_walk_length. exact Hs. }
  split.
  { intros Hd Hf lp Hp.
    destruct frames as [|[|frames]]; [lia|lia|].
    rewrite extract_within_list in Hp.
    rewrite extract_within_list, extend_each_app, Hp.
    cbn [bind Legacy.extend_each].
    rewrite extract_within_obj, (category_unnamed d Hd). reflexivity. }
  split.
  { intros Hf Hs. apply stable_too_deep; assumption. }
  intros Hf Hs. apply legacy_too_deep; assumption.
Qed.

Lemma flatten_counts_witness :
  (exists l, Stable.process_catalogue_within 1000 (JArr [JObj hats; JObj shoes]) = Ok l
             /\ List.length l = 3%nat)
  /\
  Stable.process_catalogue_within 1000
    (JArr ([JObj hats] ++ JObj nameless :: [JObj toys]))
  = Stable.process_catalogue_within 1000 (JArr ([JObj hats] ++ [JObj toys]))
  /\
  (exists l, Legacy.extract_category_data_within 1000 (JArr [JObj hats; JObj shoes])
             = Ok l
             /\ List.length l = 3%nat)
  /\
  Legacy.extract_category_data_within 1000
    (JArr ([JObj hats] ++ JObj nameless :: [JObj toys]))
  = Raise (KeyError (JStr "name"))
  /\
  Stable.process_catalogue_within 1000 (chain 1200) = Raise RecursionError
  /\
  Legacy.extract_category_data_within 1000 (chain 1200) = Raise RecursionError.
Proof.
  destruct (flatten_counts 1000 (JArr [JObj hats; JObj shoes])
              [JObj hats] nameless [JObj toys]) as (H1 & H2 & H3 & H4 & _).
  destruct (flatten_counts 1000 (chain 1200) [] [] [])
    as (_ & _ & _ & _ & H5 & H6).
  split; [apply H1; [vm_compute; lia|reflexivity]|].
  split; [apply H2; reflexivity|].
  split; [apply H3; [vm_compute; lia|reflexivity]|].
  split.
  { refine (H4 eq_refl _
              [mkFlat (JStr "Hats") (JStr "/hats") (JStr "s3") (JStr "cat=3")] _);
      [lia|reflexivity]. }
  split; [apply H5; [vm_compute; lia|vm_compute; reflexivity]|].
  apply H6; [vm_compute; lia|vm_compute; reflexivity].
Defined.

(** C2 as stated fails, with the 1000 nested calls that the interpreter
    allows by default.  Stable: the grouping node carries [name] and [url]
    and has a complete child, so two nodes carry both keys, yet nothing is
    emitted: the node is passed over for want of [shard], and its child
    with it.  Legacy: a record without [name] raises.  And a catalogue of
    1200 nodes, all complete, each under the [childs] of the one before,
    gives no entry at all: both walks end with [RecursionError]. *)
Lemma flatten_counts_counterexample :
  count_named (JArr [JObj grouping]) = 2%nat
  /\ Stable.process_catalogue_within 1000 (JArr [JObj grouping]) = Ok []
  /\ Legacy.extract_category_data_within 1000 (JArr [JObj nameless; JObj hats])
     = Raise (KeyError (JStr "name"))
  /\ count_named (chain 1200) = 1200%nat
  /\ Stable.process_catalogue_within 1000 (chain 1200) = Raise RecursionError
  /\ Legacy.extract_category_data_within 1000 (chain 1200) = Raise RecursionError.
Proof. repeat split; vm_compute; reflexivity. Qed.

(** ** Splitting at the site prefix *)

Lemma prefix_app (a s : string) : String.prefix a (a ++ s)%string = true.
Proof.
  induction a as [|c a IH]; cbn; [destruct s; reflexivity|].
  destruct (ascii_dec c c) as [_|N]; [exact IH|destruct (N eq_refl)].
Qed.

Lemma prefix_split (a s : string) :
  String.prefix a s = true -> exists b, s = (a ++ b)%string.
Proof.
  revert s. induction a as [|c a IH]; intros s H.
  - exists s. reflexivity.
  - destruct s as [|c' s]; [discriminate|]. cbn in H.
    destruct (ascii_dec c c') as [<-|]; [|discriminate].
    destruct (IH s H) as [b ->]. exists b. reflexivity.
Qed.

Lemma split_aux_skip sep (u s : string) cur :
  split_aux sep (u ++ s)%string (String.length u) cur = split_aux sep s 0 cur.
Proof.
  induction u as [|c u IH]; cbn; [destruct s; reflexivity|exact IH].
Qed.

Lemma split_aux_not_nil sep s skip cur : split_aux sep s skip cur <> [].
Proof.
  revert skip cur. induction s as [|c s IH]; intros skip cur; cbn [split_aux];
    [discriminate|].
  destruct skip; [|apply IH].
  destruct (String.prefix sep (String c s)); [discriminate|apply IH].
Qed.

Lemma last_cons_not_nil {A} (x : A) l dflt : l <> [] -> last (x :: l) dflt = last l dflt.
Proof. destruct l; [intros H; destruct (H eq_refl)|reflexivity]. Qed.

(** A leading separator gives an empty first piece and is passed over. *)
Lemma split_leading_sep c sep' (s : string) :
  split (String c sep') (String c sep' ++ s)%string = "" :: split (String c sep') s.
Proof.
  unfold split. set (sep := String c sep').
  change (sep ++ s)%string with (String c (sep' ++ s)%string).
  cbn [split_aux].
  change (String c (sep' ++ s)%string) with (sep ++ s)%string.
  rewrite prefix_app. f_equal.
  replace (String.length sep - 1)%nat with (String.length sep')
    by (unfold sep; cbn [String.length]; lia).
  apply split_aux_skip.
Qed.

Lemma url_suffix_site (s : string) : url_suffix (site ++ s)%string = url_suffix s.
Proof.
  unfold url_suffix, site. rewrite split_leading_sep.
  apply last_cons_not_nil, split_aux_not_nil.
Qed.

Lemma append_assoc (a b c : string) : ((a ++ b) ++ c = a ++ b ++ c)%string.
Proof. induction a as [|x a IH]; cbn; [reflexivity|rewrite IH; reflexivity]. Qed.

Lemma append_nil_r (a : string) : (a ++ "")%string = a.
Proof. induction a as [|x a IH]; cbn; [reflexivity|rewrite IH; reflexivity]. Qed.

Lemma length_append (a b : string) :
  String.length (a ++ b)%string = (String.length a + String.length b)%nat.
Proof. induction a as [|x a IH]; cbn; [reflexivity|rewrite IH; reflexivity]. Qed.

(** The last piece of a split: the whole string when the separator does
    not occur, and otherwise what follows an occurrence after which no
    further one starts. *)
Lemma split_aux_last c0 sep' (n : nat) :
  let sep := String c0 sep' in
  forall s cur, (String.length s <= n)%nat ->
    let r := last (split_aux sep s 0 cur) "" in
    (r = (cur ++ s)%string /\ forall i, ~ occurs_at sep s i)
    \/ (exists a, s = (a ++ sep ++ r)%string /\ forall i, ~ occurs_at sep r i).
Proof.
  intros sep. induction n as [|n IH]; intros s cur Hn r.
  - destruct s; [|cbn in Hn; lia]. left. split.
    + subst r. cbn. rewrite append_nil_r. reflexivity.
    + intros i (a & b & E & _). destruct a; discriminate.
  - destruct s as [|c s]; [apply (IH "" cur); cbn; lia|].
    subst r. cbn [split_aux].
    destruct (String.prefix sep (String c s)) eqn:Hp.
    + destruct (prefix_split _ _ Hp) as [t Et].
      unfold sep in Et. cbn in Et. injection Et as Ec Es. subst c s.
      replace (String.length sep - 1)%nat with (String.length sep')
        by (unfold sep; cbn [String.length]; lia).
      rewrite split_aux_skip.
      rewrite last_cons_not_nil by apply split_aux_not_nil.
      assert (Ht : (String.length t <= n)%nat).
      { cbn in Hn. rewrite length_append in Hn. lia. }
      right. destruct (IH t "" Ht) as [[E N]|(a & E & N)].
      * exists "". rewrite E. cbn [String.append]. split; [reflexivity|exact N].
      * exists (sep ++ a)%string. split; [|exact N].
        rewrite E at 1. unfold sep. cbn. rewrite append_assoc. reflexivity.
    + assert (Hs : (String.length s <= n)%nat) by (cbn in Hn; lia).
      destruct (IH s (cur ++ String c "")%string Hs) as [[E N]|(a & E & N)].
      * left. split.
        { rewrite E, append_assoc. reflexivity. }
        intros i (a & b & Eab & _). destruct a as [|x a].
        { cbn in Eab. rewrite Eab in Hp.
          change (String c0 (sep' ++ b)%string) with (sep ++ b)%string in Hp.
          rewrite prefix_app in Hp. discriminate. }
        cbn in Eab. injection Eab as _ Eab.
        apply (N (String.length a)). exists a, b. auto.
      * right. exists (String c a). split; [|exact N].
        change (String c s = String c (a ++ sep ++
                  last (split_aux sep s 0 (cur ++ String c "")) "")%string).
        f_equal. exact E.
Qed.

(** The site prefix does not overlap itself: in [site ++ t] an occurrence
    that starts after the first character lies in [t]. *)
Lemma site_no_overlap (c t b : string) :
  (site ++ t = c ++ site ++ b)%string -> c <> "" ->
  exists c', t = (c' ++ site ++ b)%string.
Proof.
  unfold site. intros E Hc.
  destruct c as [|x c]; [destruct (Hc eq_refl)|clear Hc].
  cbn in E. injection E as _ E. clear x.
  do 25 (destruct c as [|x c];
         [discriminate E|cbn in E; injection E as _ E; clear x]).
  exists c. exact E.
Qed.

Lemma append_split_longer (a a' x y : string) :
  (a ++ x = a' ++ y)%string -> (String.length a < String.length a')%nat ->
  exists c, c <> "" /\ a' = (a ++ c)%string /\ x = (c ++ y)%string.
Proof.
  revert a'. induction a as [|h a IH]; intros a' E L.
  - cbn in E. exists a'. repeat split; auto. intros ->. cbn in L. lia.
  - destruct a' as [|h' a']; [cbn in L; lia|].
    cbn in E. injection E as <- E. cbn in L.
    destruct (IH a' E ltac:(lia)) as (c & Hc & -> & ->).
    exists c. repeat split; auto.
Qed.

(** [url_suffix] gives what follows the last occurrence of the site
    prefix, and the whole input when there is none. *)
Lemma url_suffix_after_last (s : string) :
  (url_suffix s = s /\ forall i, ~ occurs_at site s i)
  \/ (exists a, s = (a ++ site ++ url_suffix s)%string
                /\ forall i, occurs_at site s i -> (i <= String.length a)%nat).
Proof.
  unfold url_suffix, split.
  destruct (split_aux_last "h" "ttps://www.wildberries.ru" (String.length s) s ""
              (le_n _)) as [[E N]|(a & E & N)].
  - left. split; [exact E|exact N].
  - right. exists a. split; [exact E|].
    intros i (a' & b & E' & <-).
    destruct (Nat.le_gt_cases (String.length a') (String.length a)) as [|L];
      [assumption|exfalso].
    rewrite E in E' at 1.
    destruct (append_split_longer _ _ _ _ E' L) as (c & Hc & _ & E2).
    destruct (site_no_overlap _ _ _ E2 Hc) as [c' E3].
    apply (N (String.length c')). exists c', b. auto.
Qed.

(** ** Claims on the category lookup *)

Lemma str_eq_true s v : str_eq s v = true <-> v = JStr s.
Proof.
  destruct v; cbn; try (split; [discriminate|intros [=]]).
  rewrite String.eqb_eq. split; [intros ->; reflexivity|intros [= ->]; reflexivity].
Qed.

Lemma str_eq_false s v : str_eq s v = false <-> v <> JStr s.
Proof.
  rewrite <- str_eq_true. destruct (str_eq s v); split; try discriminate; auto.
  intros H. destruct (H eq_refl).
Qed.

Lemma stable_lookup_skip pre rest q :
  (forall c', In c' pre -> url c' <> JStr (url_suffix q) /\ name c' <> JStr q) ->
  Stable.extract_category_data (pre ++ rest) q = Stable.extract_category_data rest q.
Proof.
  induction pre as [|c' pre IH]; intros H; [reflexivity|].
  cbn [app Stable.extract_category_data].
  destruct (H c' (or_introl eq_refl)) as [Hu Hn].
  apply str_eq_false in Hu, Hn. rewrite Hu, Hn. cbn [orb].
  apply IH. intros x Hx. apply H. right. exact Hx.
Qed.

Lemma legacy_lookup_skip pre rest q :
  (forall c', In c' pre -> url c' <> JStr (url_suffix q)) ->
  Legacy.find_in (pre ++ rest) q = Legacy.find_in rest q.
Proof.
  induction pre as [|c' pre IH]; intros H; [reflexivity|].
  cbn [app Legacy.find_in].
  pose proof (H c' (or_introl eq_refl)) as Hu.
  apply str_eq_false in Hu. rewrite Hu.
  apply IH. intros x Hx. apply H. right. exact Hx.
Qed.

(** C3, as the programs have it.  The stable lookup returns the name,
    shard and query of the first entry, in list order, whose [url] is the
    URL suffix of the input or whose [name] is the input, and [None] when
    no entry is such; so of two entries with the same name the earlier one
    is returned.  The legacy lookup compares the [url] only: it returns
    the first entry whose [url] is the URL suffix of the input and raises
    [ValueError] when there is none. *)
Theorem lookup_first_match (pre post : list FlatCategory) (c : FlatCategory) (q : string) :
  ((forall c', In c' pre -> url c' <> JStr (url_suffix q) /\ name c' <> JStr q) ->
   (url c = JStr (url_suffix q) \/ name c = JStr q) ->
   Stable.extract_category_data (pre ++ c :: post) q
   = Some (name c, shard c, query c))
  /\
  ((forall c', In c' pre -> url c' <> JStr (url_suffix q) /\ name c' <> JStr q) ->
   Stable.extract_category_data pre q = None)
  /\
  ((forall c', In c' pre -> url c' <> JStr (url_suffix q)) ->
   url c = JStr (url_suffix q) ->
   Legacy.find_in (pre ++ c :: post) q = Ok c)
  /\
  ((forall c', In c' pre -> url c' <> JStr (url_suffix q)) ->
   Legacy.find_in pre q = Raise ValueError).
Proof.
  repeat split.
  - intros Hpre Hc. rewrite stable_lookup_skip by exact Hpre.
    cbn [Stable.extract_category_data].
    destruct Hc as [Hc|Hc]; apply str_eq_true in Hc; rewrite Hc;
      [|rewrite orb_true_r]; reflexivity.
  - intros Hpre. rewrite <- (app_nil_r pre).
    rewrite stable_lookup_skip by exact Hpre. reflexivity.
  - intros Hpre Hc. rewrite legacy_lookup_skip by exact Hpre.
    cbn [Legacy.find_in]. apply str_eq_true in Hc. rewrite Hc. reflexivity.
  - intros Hpre. rewrite <- (app_nil_r pre).
    rewrite legacy_lookup_skip by exact Hpre. reflexivity.
Qed.

Lemma lookup_first_match_witness :
  Stable.extract_category_data
    ([mkFlat (JStr "Toys") (JStr "/toys") (JStr "s4") (JStr "cat=4")]
     ++ mkFlat (JStr "Hats") (JStr "/hats") (JStr "s3") (JStr "cat=3")
     :: [mkFlat (JStr "Hats") (JStr "/sale/hats") (JStr "s7") (JStr "cat=7")]) "Hats"
  = Some (JStr "Hats", JStr "s3", JStr "cat=3")
  /\
  Stable.extract_category_data
    [mkFlat (JStr "Toys") (JStr "/toys") (JStr "s4") (JStr "cat=4")] "Hats" = None
  /\
  Legacy.find_in
    ([mkFlat (JStr "Toys") (JStr "/toys") (JStr "s4") (JStr "cat=4")]
     ++ mkFlat (JStr "Hats") (JStr "/hats") (JStr "s3") (JStr "cat=3")
     :: [mkFlat (JStr "Caps") (JStr "/hats") (JStr "s7") (JStr "cat=7")])
    "https://www.wildberries.ru/hats"
  = Ok (mkFlat (JStr "Hats") (JStr "/hats") (JStr "s3") (JStr "cat=3"))
  /\
  Legacy.find_in
    [mkFlat (JStr "Toys") (JStr "/toys") (JStr "s4") (JStr "cat=4")]
    "https://www.wildberries.ru/hats"
  = Raise ValueError.
Proof.
  assert (Hne : forall c' : FlatCategory,
             In c' [mkFlat (JStr "Toys") (JStr "/toys") (JStr "s4") (JStr "cat=4")] ->
             url c' <> JStr "Hats" /\ name c' <> JStr "Hats").
  { intros c' [<-|[]]. split; discriminate. }
  assert (Hnu : forall c' : FlatCategory,
             In c' [mkFlat (JStr "Toys") (JStr "/toys") (JStr "s4") (JStr "cat=4")] ->
             url c' <> JStr "/hats").
  { intros c' [<-|[]]. discriminate. }
  split; [|split; [|split]].
  - apply (lookup_first_match _ _
             (mkFlat (JStr "Hats") (JStr "/hats") (JStr "s3") (JStr "cat=3")) "Hats");
      [exact Hne|right; reflexivity].
  - apply (lookup_first_match _ []
             (mkFlat (JStr "Hats") (JStr "/hats") (JStr "s3") (JStr "cat=3")) "Hats").
    exact Hne.
  - apply (lookup_first_match _ _
             (mkFlat (JStr "Hats") (JStr "/hats") (JStr "s3") (JStr "cat=3"))
             "https://www.wildberries.ru/hats"); [exact Hnu|reflexivity].
  - apply (lookup_first_match _ []
             (mkFlat (JStr "Hats") (JStr "/hats") (JStr "s3") (JStr "cat=3"))
             "https://www.wildberries.ru/hats").
    exact Hnu.
Defined.

(** C3 as stated fails on the legacy lookup: an entry whose name is the
    input is not returned, the lookup raises (the stable lookup returns
    it). *)
Lemma lookup_first_match_counterexample :
  Legacy.find_category_in_catalog (JArr [JObj hats]) "Hats" = Raise ValueError
  /\ Legacy.extract_category_data (JArr [JObj hats])
     = Ok [mkFlat (JStr "Hats") (JStr "/hats") (JStr "s3") (JStr "cat=3")]
  /\ Stable.extract_category_data
       [mkFlat (JStr "Hats") (JStr "/hats") (JStr "s3") (JStr "cat=3")] "Hats"
     = Some (JStr "Hats", JStr "s3", JStr "cat=3").
Proof. repeat split; reflexivity. Qed.

Lemma stable_lookup_site catalogue s :
  (forall c, In c catalogue ->
             name c <> JStr (site ++ s)%string /\ name c <> JStr s) ->
  Stable.extract_category_data catalogue (site ++ s)%string
  = Stable.extract_category_data catalogue s.
Proof.
  induction catalogue as [|c rest IH]; intros H; [reflexivity|].
  cbn [Stable.extract_category_data].
  destruct (H c (or_introl eq_refl)) as [H1 H2].
  apply str_eq_false in H1, H2. rewrite H1, H2, url_suffix_site, !orb_false_r.
  rewrite IH; [reflexivity|]. intros x Hx. apply H. right. exact Hx.
Qed.

Lemma legacy_lookup_site catalog_list s :
  Legacy.find_in catalog_list (site ++ s)%string = Legacy.find_in catalog_list s.
Proof.
  induction catalog_list as [|c rest IH]; [reflexivity|].
  cbn [Legacy.find_in]. rewrite url_suffix_site, IH. reflexivity.
Qed.

(** C10, as the programs have it.  Both lookups compare an entry's [url]
    with what follows the last occurrence of the site prefix in the input
    (the whole input when the prefix does not occur).  So the legacy
    lookup gives the same for [site ++ s] as for [s]; the stable lookup,
    which also compares names with the whole input, does so when no
    entry's name is [site ++ s] or [s]. *)
Theorem lookup_site_prefix (catalogue : list FlatCategory) (catalog_data : json)
  (s : string) :
  ((forall c, In c catalogue ->
              name c <> JStr (site ++ s)%string /\ name c <> JStr s) ->
   Stable.extract_category_data catalogue (site ++ s)%string
   = Stable.extract_category_data catalogue s)
  /\
  Legacy.find_category_in_catalog catalog_data (site ++ s)%string
  = Legacy.find_category_in_catalog catalog_data s
  /\
  ((url_suffix s = s /\ forall i, ~ occurs_at site s i)
   \/ (exists a, s = (a ++ site ++ url_suffix s)%string
                 /\ forall i, occurs_at site s i -> (i <= String.length a)%nat)).
Proof.
  split; [apply stable_lookup_site|].
  split; [|apply url_suffix_after_last].
  unfold Legacy.find_category_in_catalog.
  destruct (Legacy.extract_category_data catalog_data); [|reflexivity].
  apply legacy_lookup_site.
Qed.

Lemma lookup_site_prefix_witness :
  Stable.extract_category_data clashing (site ++ "/misc")%string
  = Stable.extract_category_data clashing "/misc".
Proof.
  apply (lookup_site_prefix clashing JNull "/misc").
  intros c [<-|[<-|[]]]; split; discriminate.
Defined.

(** C10 as stated fails on the stable lookup: no name is the prefixed
    input, yet the prefixed input finds the entry with that url and the
    bare input finds an earlier entry with that name. *)
Lemma lookup_site_prefix_counterexample :
  (forall c, In c clashing -> name c <> JStr (site ++ "/hats")%string)
  /\ Stable.extract_category_data clashing (site ++ "/hats")%string
     = Some (JStr "Hats", JStr "s3", JStr "cat=3")
  /\ Stable.extract_category_data clashing "/hats"
     = Some (JStr "/hats", JStr "s9", JStr "cat=9").
Proof.
  split; [|split; reflexivity].
  intros c [<-|[<-|[]]]; discriminate.
Qed.

(** ** Prices *)

(** Rounding [v * S / 100] to the nearest integer and dropping the [S]
    again loses nothing once [S] exceeds 50: the fraction of [v / 100] is
    at most 99/100. *)
Lemma round_then_truncate (v S : Z) :
  0 <= v -> 64 <= S ->
  let q := v * S / 100 in
  let r := (v * S) mod 100 in
  let m := if 2 * r <? 100 then q
           else if 100 <? 2 * r then q + 1
           else if Z.even q then q else q + 1 in
  0 <= m /\ m / S = v / 100.
Proof.
  intros Hv HS q r m.
  pose proof (Z.div_mod v 100 ltac:(lia)) as Ev.
  pose proof (Z.mod_pos_bound v 100 ltac:(lia)) as Ht.
  set (n := v / 100) in *. set (t := v mod 100) in *.
  assert (Hn : 0 <= n) by (apply Z.div_pos; lia).
  assert (EvS : v * S = t * S + (n * S) * 100) by (rewrite Ev; ring).
  assert (Eq : q = t * S / 100 + n * S).
  { unfold q. rewrite EvS. apply Z.div_add. lia. }
  assert (Er : r = (t * S) mod 100).
  { unfold r. rewrite EvS. apply Z.mod_add. lia. }
  pose proof (Z.div_mod (t * S) 100 ltac:(lia)) as Eu.
  pose proof (Z.mod_pos_bound (t * S) 100 ltac:(lia)) as Hr.
  rewrite <- Er in Eu, Hr. set (u := t * S / 100) in *.
  assert (Hu0 : 0 <= u) by (apply Z.div_pos; nia).
  assert (HtS : t * S <= 99 * S) by nia.
  assert (Hm : exists w, m = n * S + w /\ 0 <= w < S).
  { unfold m.
    destruct (2 * r <? 100) eqn:C1; [exists u; split; lia|].
    apply Z.ltb_ge in C1.
    destruct (100 <? 2 * r); [exists (u + 1); split; lia|].
    destruct (Z.even q); [exists u|exists (u + 1)]; split; lia. }
  destruct Hm as (w & -> & Hw). split; [nia|].
  rewrite Z.add_comm, Z.div_add by lia.
  rewrite (Z.div_small w S) by lia. reflexivity.
Qed.

Lemma quot_log2_100_bounds (v : Z) :
  0 <= v < 100 * 2 ^ 47 -> -7 <= quot_log2 v 100 <= 46.
Proof.
  intros Hv. unfold quot_log2.
  change (Z.log2 100) with 6.
  pose proof (Z.log2_nonneg v) as H0.
  assert (H53 : Z.log2 v <= 53).
  { destruct (Z.eq_dec v 0) as [->|Hne]; [cbn; lia|].
    assert (Z.log2 v < 54); [|lia].
    apply Z.log2_lt_pow2; lia. }
  destruct (shl 100 (Z.log2 v - 6) <=? shl v (- (Z.log2 v - 6))) eqn:T; [|lia].
  apply Z.leb_le in T.
  destruct (Z.eq_dec (Z.log2 v) 53) as [E|]; [|lia].
  exfalso. rewrite E in T. unfold shl in T. cbn in T. lia.
Qed.

(** [int(v / 100)] is the floor of the quotient for a non-negative [v]
    whose quotient is below [2^47]. *)
Lemma int_div_100_floor (v : Z) :
  0 <= v < 100 * 2 ^ 47 -> int_div_100 (JInt v) = Ok (v / 100).
Proof.
  intros Hv. pose proof (quot_log2_100_bounds v Hv) as Hk.
  unfold int_div_100, truediv, int_truediv, signed_round_div.
  destruct (v <? 0) eqn:Hneg; [apply Z.ltb_lt in Hneg; lia|].
  unfold round_div. set (k := quot_log2 v 100) in *.
  replace (Z.max (k - 52) (-1074)) with (k - 52) by lia.
  set (S := 2 ^ (52 - k)).
  assert (HS : 64 <= S <= 2 ^ 59).
  { unfold S. split.
    - change 64 with (2 ^ 6). apply Z.pow_le_mono_r; lia.
    - apply Z.pow_le_mono_r; lia. }
  assert (Enum : shl v (- (k - 52)) = v * S).
  { unfold shl, S. f_equal. f_equal. lia. }
  assert (Eden : shl 100 (k - 52) = 100).
  { unfold shl. replace (Z.max (k - 52) 0) with 0 by lia. reflexivity. }
  rewrite Enum, Eden.
  destruct (round_then_truncate v S ltac:(lia) ltac:(lia)) as [Hm0 Hm].
  cbv zeta in Hm0, Hm.
  set (m := if 2 * ((v * S) mod 100) <? 100 then v * S / 100
            else if 100 <? 2 * ((v * S) mod 100) then v * S / 100 + 1
            else if Z.even (v * S / 100) then v * S / 100
            else v * S / 100 + 1) in *.
  assert (Hn : v / 100 < 2 ^ 47) by (apply Z.div_lt_upper_bound; lia).
  assert (HmS : m < (v / 100 + 1) * S).
  { rewrite <- Hm. pose proof (Z.div_mod m S ltac:(lia)).
    pose proof (Z.mod_pos_bound m S ltac:(lia)). nia. }
  assert (Hsmall : too_large (m, k - 52) = false).
  { unfold too_large, shl. replace (Z.max (k - 52) 0) with 0 by lia.
    rewrite Z.abs_eq by lia. apply Z.leb_gt.
    apply Z.lt_le_trans with (2 ^ 47 * 2 ^ 59); [nia|].
    rewrite <- Z.pow_add_r by lia. apply Z.pow_le_mono_r; lia. }
  rewrite Hsmall. cbn [bind fst snd py_int].
  destruct (0 <=? k - 52) eqn:He; [apply Z.leb_le in He; lia|].
  replace (- (k - 52)) with (52 - k) by lia. fold S.
  rewrite Z.quot_div_nonneg by lia. rewrite Hm. reflexivity.
Qed.

(** ** Claims on the page parser *)

(** C7, as the programs have it.  For a non-negative minor-unit price
    whose quotient by 100 is below [2^47], [int(value / 100)] is the floor
    of the quotient; both programs apply this conversion to [priceU] and
    to [salePriceU] of an item. *)
Theorem price_truncation (d : list (string * json)) (v1 v2 : Z) :
  0 <= v1 < 100 * 2 ^ 47 -> 0 <= v2 < 100 * 2 ^ 47 ->
  int_div_100 (JInt v1) = Ok (v1 / 100)
  /\
  (forall i n b bi r f,
      dict_get "id" d = Some i -> dict_get "name" d = Some n ->
      dict_get "brand" d = Some b -> dict_get "brandId" d = Some bi ->
      dict_get "priceU" d = Some (JInt v1) ->
      dict_get "salePriceU" d = Some (JInt v2) ->
      dict_get "rating" d = Some r -> dict_get "feedbacks" d = Some f ->
      Stable.product_card (JObj d)
      = Ok (Stable.mkCard i i n b bi (v1 / 100) (v2 / 100) r f None))
  /\
  (dict_get "priceU" d = Some (JInt v1) ->
   dict_get "salePriceU" d = Some (JInt v2) ->
   exists p, Legacy.product (JObj d) = Ok p
             /\ Legacy.p_price p = v1 / 100
             /\ Legacy.p_salePriceU p = v2 / 100).
Proof.
  intros H1 H2.
  pose proof (int_div_100_floor v1 H1) as E1.
  pose proof (int_div_100_floor v2 H2) as E2.
  split; [exact E1|]. split.
  - intros i n b bi r f Hi Hn Hb Hbi Hp Hs Hr Hf.
    unfold Stable.product_card, getitem.
    rewrite Hi, Hn, Hb, Hbi, Hp, Hs, Hr, Hf. cbn [bind].
    rewrite E1. cbn [bind]. rewrite E2. reflexivity.
  - intros Hp Hs. unfold Legacy.product, dot_get. rewrite Hp, Hs.
    destruct (dict_get "id" d), (dict_get "name" d); cbn [bind];
      rewrite E1; cbn [bind]; rewrite E2; cbn [bind];
      destruct (dict_get "feedbackPoints" d), (dict_get "sale" d),
        (dict_get "brand" d), (dict_get "rating" d), (dict_get "supplier" d),
        (dict_get "supplierRating" d), (dict_get "feedbacks" d),
        (dict_get "reviewRating" d), (dict_get "promoTextCard" d),
        (dict_get "promoTextCat" d); cbn [bind];
      eexists; (split; [reflexivity|split; reflexivity]).
Qed.

Lemma price_truncation_witness :
  int_div_100 (JInt 123456) = Ok 1234
  /\ Stable.product_card (item 42)
     = Ok (Stable.mkCard (JInt 42) (JInt 42) (JStr "Boot") (JStr "Acme") (JInt 7)
             1234 999 (JInt 5) (JInt 12) None)
  /\ exists p, Legacy.product (item 42) = Ok p
               /\ Legacy.p_price p = 1234 /\ Legacy.p_salePriceU p = 999.
Proof.
  destruct (price_truncation
              [("id", JInt 42); ("name", JStr "Boot"); ("brand", JStr "Acme");
               ("brandId", JInt 7); ("priceU", JInt 123456);
               ("salePriceU", JInt 99999); ("rating", JInt 5);
               ("feedbacks", JInt 12)] 123456 99999)
    as (H1 & H2 & H3); [lia|lia|].
  split; [exact H1|].
  split; [apply H2; reflexivity|apply H3; reflexivity].
Defined.

(** C7 as stated fails outside that range: a negative value is truncated
    toward zero, not floored, and from [100 * 2^47] on the quotient is
    rounded to a float before it is truncated. *)
Lemma price_truncation_counterexample :
  int_div_100 (JInt (-150)) = Ok (-1) /\ -150 / 100 = -2
  /\ int_div_100 (JInt 14073748835532899) = Ok 140737488355329
  /\ 14073748835532899 / 100 = 140737488355328.
Proof. repeat split; reflexivity. Qed.

(** C6, as the programs have it.  A response whose [data.products] is the
    empty list parses to the empty list, in both programs.  A response
    without [data], or whose [data] has no [products], raises the built-in
    [KeyError] with the missing key; neither program has an exception
    class of its own. *)
Theorem parse_empty_or_missing (r dd : list (string * json)) :
  (dict_get "data" r = Some (JObj dd) -> dict_get "products" dd = Some (JArr []) ->
   Stable.get_products_on_page (JObj r) = Ok []
   /\ Legacy.extract_product_data (JObj r) = Ok [])
  /\
  (dict_get "data" r = None ->
   Stable.get_products_on_page (JObj r) = Raise (KeyError (JStr "data"))
   /\ Legacy.extract_product_data (JObj r) = Raise (KeyError (JStr "data")))
  /\
  (dict_get "data" r = Some (JObj dd) -> dict_get "products" dd = None ->
   Stable.get_products_on_page (JObj r) = Raise (KeyError (JStr "products"))
   /\ Legacy.extract_product_data (JObj r) = Raise (KeyError (JStr "products")))
  /\
  (forall k, exn_name (KeyError k) = "KeyError").
Proof.
  unfold Stable.get_products_on_page, Legacy.extract_product_data, getitem.
  split; [|split; [|split]].
  - intros Hd Hp. rewrite Hd. cbn [bind]. rewrite Hp. split; reflexivity.
  - intros Hd. rewrite Hd. split; reflexivity.
  - intros Hd Hp. rewrite Hd. cbn [bind]. rewrite Hp. split; reflexivity.
  - reflexivity.
Qed.

Lemma parse_empty_or_missing_witness :
  (Stable.get_products_on_page (page_body []) = Ok []
   /\ Legacy.extract_product_data (page_body []) = Ok [])
  /\
  (Stable.get_products_on_page (JObj [("error", JStr "bad parameters")])
   = Raise (KeyError (JStr "data"))
   /\ Legacy.extract_product_data (JObj [("error", JStr "bad parameters")])
      = Raise (KeyError (JStr "data")))
  /\
  (Stable.get_products_on_page (JObj [("data", JObj [])])
   = Raise (KeyError (JStr "products"))
   /\ Legacy.extract_product_data (JObj [("data", JObj [])])
      = Raise (KeyError (JStr "products"))).
Proof.
  split; [|split].
  - apply (parse_empty_or_missing [("data", JObj [("products", JArr [])])]
             [("products", JArr [])]); reflexivity.
  - apply (parse_empty_or_missing [("error", JStr "bad parameters")] []).
    reflexivity.
  - apply (parse_empty_or_missing [("data", JObj [])] []); reflexivity.
Defined.

(** C6 as stated fails: on a response without [data] both parsers raise
    [KeyError], and no exception of the programs is a [SchemaError]. *)
Lemma parse_empty_or_missing_counterexample :
  Stable.get_products_on_page (JObj []) = Raise (KeyError (JStr "data"))
  /\ Legacy.extract_product_data (JObj []) = Raise (KeyError (JStr "data"))
  /\ forall e, exn_name e <> "SchemaError".
Proof.
  split; [reflexivity|]. split; [reflexivity|].
  intros e. destruct e; discriminate.
Qed.

(** ** The page loops *)

Lemma requested_app tr1 tr2 : requested (tr1 ++ tr2) = requested tr1 ++ requested tr2.
Proof.
  induction tr1 as [|ev tr1 IH]; [reflexivity|].
  destruct ev; cbn [app requested]; rewrite IH; reflexivity.
Qed.

Lemma stable_add_nonempty remote p self l :
  stable_page_gives remote p l -> l <> [] ->
  Stable.add_data_from_page remote p self
  = (Stable.mkParser (Stable.product_cards self ++ l)
       (Stable.trace self ++ [Request p; Print (Items_added (List.length l))]),
     Ok false).
Proof.
  intros (body & Hb & Hl) Hne.
  unfold Stable.add_data_from_page, Stable.get_json. fold (reply_json (remote p 0%nat)).
  rewrite Hb, Hl. destruct l as [|c l]; [destruct (Hne eq_refl)|].
  unfold Stable.emit, Stable.extend. cbn [Stable.product_cards Stable.trace].
  rewrite <- app_assoc. reflexivity.
Qed.

Lemma stable_add_empty remote p self :
  stable_page_gives remote p [] ->
  Stable.add_data_from_page remote p self
  = (Stable.mkParser (Stable.product_cards self)
       (Stable.trace self ++ [Request p; Print Loading_finished]),
     Ok true).
Proof.
  intros (body & Hb & Hl).
  unfold Stable.add_data_from_page, Stable.get_json. fold (reply_json (remote p 0%nat)).
  rewrite Hb, Hl.
  unfold Stable.emit. cbn [Stable.product_cards Stable.trace].
  rewrite <- app_assoc. reflexivity.
Qed.

Lemma stable_add_raises remote p self e :
  stable_page_raises remote p e ->
  Stable.add_data_from_page remote p self
  = (Stable.mkParser (Stable.product_cards self) (Stable.trace self ++ [Request p]),
     Raise e).
Proof.
  unfold Stable.add_data_from_page, Stable.get_json. fold (reply_json (remote p 0%nat)).
  intros [Hb|(body & Hb & Hl)]; rewrite Hb; [|rewrite Hl]; reflexivity.
Qed.

Lemma requested_stable_log recs pages : requested (stable_log recs pages) = pages.
Proof.
  induction pages as [|q pages IH]; [reflexivity|].
  cbn. f_equal. exact IH.
Qed.

(** Over pages that all have records the stable loop goes on, the records
    appended in page order. *)
Lemma stable_for_pages_full remote recs pages :
  forall rest self,
    (forall q, In q pages -> stable_page_gives remote q (recs q) /\ recs q <> []) ->
    Stable.for_pages remote (pages ++ rest) self
    = Stable.for_pages remote rest
        (Stable.mkParser (Stable.product_cards self ++ flat_map recs pages)
           (Stable.trace self ++ stable_log recs pages)).
Proof.
  induction pages as [|q pages IH]; intros rest self H.
  - cbn [app flat_map stable_log]. rewrite !app_nil_r. destruct self; reflexivity.
  - cbn [app Stable.for_pages].
    destruct (H q (or_introl eq_refl)) as [Hq Hne].
    rewrite (stable_add_nonempty _ _ _ _ Hq Hne).
    rewrite IH by (intros x Hx; apply H; right; exact Hx).
    cbn [Stable.product_cards Stable.trace Stable.emit flat_map stable_log].
    rewrite <- !app_assoc. reflexivity.
Qed.

Lemma seq_split_at (k n : nat) :
  (k < n)%nat -> seq 1 n = seq 1 k ++ S k :: seq (S (S k)) (n - S k).
Proof.
  intros H. replace n with (k + S (n - S k))%nat at 1 by lia.
  rewrite seq_app. reflexivity.
Qed.

Lemma in_seq_1 q k : In q (seq 1 k) <-> (1 <= q <= k)%nat.
Proof. rewrite in_seq. lia. Qed.

(** *** Legacy *)

(** A page whose first [n] requests from attempt [a] on raise and whose
    next one is answered: [scrape_page] asks [S n] times and returns the
    answer, given fuel for it. *)
Lemma scrape_page_retries remote p body :
  forall n a fuel tr,
    (forall i, (i < n)%nat -> exists e, reply_json (remote p (a + i)%nat) = Raise e) ->
    reply_json (remote p (a + n)%nat) = Ok body ->
    (n < fuel)%nat ->
    exists tr', Legacy.scrape_page fuel remote p a tr = Some (tr ++ tr', body)
                /\ requested tr' = repeat p (S n).
Proof.
  induction n as [|n IH]; intros a fuel tr Hfail Hok Hfuel;
    (destruct fuel as [|fuel]; [lia|]); cbn [Legacy.scrape_page].
  - rewrite Nat.add_0_r in Hok. unfold reply_json in Hok.
    destruct (remote p a) as [resp|e]; [|discriminate]. cbn [bind] in Hok.
    rewrite Hok. eexists. rewrite <- app_assoc. split; reflexivity.
  - destruct (IH (S a) fuel) with (tr := tr ++ [Request p])
      as (tr1 & E1 & R1);
      [intros i Hi; rewrite Nat.add_succ_l, <- Nat.add_succ_r; apply Hfail; lia
      |rewrite Nat.add_succ_l, <- Nat.add_succ_r; exact Hok|lia|].
    destruct (Hfail 0%nat ltac:(lia)) as [e He]. rewrite Nat.add_0_r in He.
    unfold reply_json in He.
    destruct (remote p a) as [resp|e']; cbn [bind] in He.
    + rewrite He.
      destruct (IH (S a) fuel)
        with (tr := (tr ++ [Request p])
                      ++ [Print (Status_scraping_page (status_code resp) p)])
        as (tr2 & E2 & R2);
        [intros i Hi; rewrite Nat.add_succ_l, <- Nat.add_succ_r; apply Hfail; lia
        |rewrite Nat.add_succ_l, <- Nat.add_succ_r; exact Hok|lia|].
      rewrite E2. eexists. rewrite <- !app_assoc. split; [reflexivity|].
      cbn [app requested]. rewrite R2. reflexivity.
    + rewrite E1. eexists. rewrite <- app_assoc. split; [reflexivity|].
      cbn [app requested]. rewrite R1. reflexivity.
Qed.

Lemma scrape_page_body remote p failed body fuel tr :
  legacy_page_body remote p failed body -> (failed < fuel)%nat ->
  exists tr', Legacy.scrape_page fuel remote p 0 tr = Some (tr ++ tr', body)
              /\ requested tr' = repeat p (S failed).
Proof.
  intros [Hfail Hok] Hfuel.
  apply scrape_page_retries; [intros i Hi; apply Hfail; exact Hi|exact Hok|exact Hfuel].
Qed.

(** A request that raises is made again. *)
Lemma scrape_page_again remote p a fuel tr e :
  reply_json (remote p a) = Raise e ->
  exists tr', Legacy.scrape_page (S fuel) remote p a tr
              = Legacy.scrape_page fuel remote p (S a) (tr ++ tr')
              /\ requested tr' = [p].
Proof.
  intros He. cbn [Legacy.scrape_page]. unfold reply_json in He.
  destruct (remote p a) as [resp|e']; cbn [bind] in He.
  - rewrite He. eexists. rewrite <- app_assoc. split; reflexivity.
  - exists [Request p]. split; reflexivity.
Qed.

(** When every request of a page raises, [scrape_page] does not return. *)
Lemma scrape_page_never remote p :
  (forall a, exists e, reply_json (remote p a) = Raise e) ->
  forall fuel a tr, Legacy.scrape_page fuel remote p a tr = None.
Proof.
  intros H. induction fuel as [|fuel IH]; intros a tr; [reflexivity|].
  cbn [Legacy.scrape_page]. destruct (H a) as [e He]. unfold reply_json in He.
  destruct (remote p a) as [resp|e']; cbn [bind] in He; [rewrite He|]; apply IH.
Qed.

Lemma asked_app failed l1 l2 : asked failed (l1 ++ l2) = asked failed l1 ++ asked failed l2.
Proof. unfold asked. apply flat_map_app. Qed.

Lemma asked_once pages : asked (fun _ => 0%nat) pages = pages.
Proof.
  induction pages as [|p pages IH]; [reflexivity|].
  cbn. f_equal. exact IH.
Qed.

(** Over pages that all have records the legacy loop goes on, the records
    appended in page order. *)
Lemma legacy_for_pages_full fuel remote failed recs pages :
  forall rest products tr,
    (forall q, In q pages ->
               legacy_page_gives remote q (failed q) (recs q)
               /\ recs q <> [] /\ (failed q < fuel)%nat) ->
    exists tr',
      Legacy.for_pages fuel remote (pages ++ rest) products tr
      = Legacy.for_pages fuel remote rest (products ++ flat_map recs pages) (tr ++ tr')
      /\ requested tr' = asked failed pages.
Proof.
  induction pages as [|q pages IH]; intros rest products tr H.
  - exists []. cbn [app flat_map]. rewrite !app_nil_r. split; reflexivity.
  - destruct (H q (or_introl eq_refl)) as ((body & Hb & Hl) & Hne & Hf).
    destruct (scrape_page_body remote q _ body fuel tr Hb Hf) as (tr1 & E1 & R1).
    cbn [app Legacy.for_pages]. rewrite E1, Hl.
    destruct (recs q) as [|r0 rq] eqn:Erq; [destruct (Hne eq_refl)|].
    destruct (IH rest (products ++ r0 :: rq)
                ((tr ++ tr1) ++ [Print (Products_added (List.length (r0 :: rq)))]))
      as (tr2 & E2 & R2); [intros x Hx; apply H; right; exact Hx|].
    rewrite E2. eexists. split.
    + cbn [flat_map]. rewrite Erq, <- !app_assoc. reflexivity.
    + rewrite !requested_app, R1, R2. cbn [requested app]. reflexivity.
Qed.

(** ** Claims on the harvest *)

(** C4.  When the pages 1 to [k] have records and page [k + 1] has none,
    [k] below the ceiling, the harvest ends well after page [k + 1] with
    the records of the pages 1 to [k], in page order and within a page in
    the order of the page; its length is the sum of the page counts.  The
    stable loop makes exactly the requests 1 to [k + 1].  The legacy loop
    asks for the pages 1 to [k + 1] in turn, each until it is answered:
    exactly the requests 1 to [k + 1] when no request raises. *)
Theorem harvest_until_empty (remote : Remote) (k : nat) :
  (forall recs self,
      (k < 100)%nat ->
      (forall q, (1 <= q <= k)%nat ->
                 stable_page_gives remote q (recs q) /\ recs q <> []) ->
      stable_page_gives remote (S k) [] ->
      exists self',
        Stable.get_all_products_in_category remote self = (self', Ok tt)
        /\ Stable.product_cards self'
           = Stable.product_cards self ++ flat_map recs (seq 1 k)
        /\ List.length (flat_map recs (seq 1 k))
           = list_sum (map (fun q => List.length (recs q)) (seq 1 k))
        /\ requested (Stable.trace self')
           = requested (Stable.trace self) ++ seq 1 (S k))
  /\
  (forall recs failed fuel,
      (k < 50)%nat ->
      (forall q, (1 <= q <= k)%nat ->
                 legacy_page_gives remote q (failed q) (recs q) /\ recs q <> []) ->
      legacy_page_gives remote (S k) (failed (S k)) [] ->
      (forall q, (1 <= q <= S k)%nat -> (failed q < fuel)%nat) ->
      exists tr,
        Legacy.collect_products fuel remote = Some (tr, Ok (flat_map recs (seq 1 k)))
        /\ List.length (flat_map recs (seq 1 k))
           = list_sum (map (fun q => List.length (recs q)) (seq 1 k))
        /\ requested tr = asked failed (seq 1 (S k))
        /\ ((forall q, failed q = 0%nat) -> requested tr = seq 1 (S k))).
Proof.
  assert (Hlen : forall A (recs : nat -> list A) pages,
             List.length (flat_map recs pages)
             = list_sum (map (fun q => List.length (recs q)) pages)).
  { intros A recs pages. induction pages as [|q pages IH]; [reflexivity|].
    cbn [flat_map map list_sum]. rewrite length_app, IH. reflexivity. }
  split.
  - intros recs self Hk Hfull Hempty.
    unfold Stable.get_all_products_in_category, Stable.page_range.
    rewrite (seq_split_at k 100 Hk).
    rewrite (stable_for_pages_full remote recs)
      by (intros q Hq; apply Hfull, in_seq_1, Hq).
    cbn [Stable.for_pages]. rewrite (stable_add_empty _ _ _ Hempty).
    eexists. split; [reflexivity|]. cbn [Stable.product_cards Stable.trace Stable.emit].
    split; [reflexivity|]. split; [apply Hlen|].
    rewrite <- !app_assoc, !requested_app, requested_stable_log.
    cbn [requested app]. rewrite seq_S. reflexivity.
  - intros recs failed fuel Hk Hfull (body & Hb & Hl) Hfuel.
    unfold Legacy.collect_products, Legacy.page_range.
    rewrite (seq_split_at k 50 Hk).
    destruct (legacy_for_pages_full fuel remote failed recs (seq 1 k)
                (S k :: seq (S (S k)) (50 - S k)) [] [])
      as (tr1 & E1 & R1).
    { intros q Hq. apply in_seq_1 in Hq. destruct (Hfull q Hq) as [Hg Hne].
      repeat split; [exact Hg|exact Hne|apply Hfuel; lia]. }
    rewrite E1. cbn [Legacy.for_pages app].
    destruct (scrape_page_body remote (S k) _ body fuel tr1 Hb
                (Hfuel (S k) ltac:(lia))) as (tr2 & E2 & R2).
    rewrite E2, Hl. eexists. split; [reflexivity|]. split; [apply Hlen|].
    assert (Hreq : requested
                     (((tr1 ++ tr2) ++ [Print (Products_added (List.length (@nil Legacy.Product)))])
                        ++ [Print (Finished_collecting
                                     (List.length (flat_map recs (seq 1 k))))])
                   = asked failed (seq 1 (S k))).
    { rewrite !requested_app, R1, R2. cbn [requested]. rewrite !app_nil_r.
      rewrite seq_S, asked_app. cbn [asked flat_map Nat.add]. rewrite app_nil_r.
      reflexivity. }
    split; [exact Hreq|].
    intros H0. rewrite Hreq.
    replace (asked failed (seq 1 (S k))) with (asked (fun _ => 0%nat) (seq 1 (S k)));
      [apply asked_once|].
    unfold asked. apply flat_map_ext. intros q. rewrite H0. reflexivity.
Qed.

Lemma harvest_until_empty_witness :
  (exists self',
      Stable.get_all_products_in_category (remote_all_at_once 2) fresh = (self', Ok tt)
      /\ Stable.product_cards self' = [card_of 1; card_of 2]
      /\ requested (Stable.trace self') = [1; 2]%nat)
  /\
  (exists tr,
      Legacy.collect_products 1 (remote_all_at_once 2)
      = Some (tr, Ok [product_of 1; product_of 2])
      /\ requested tr = [1; 2]%nat).
Proof.
  destruct (harvest_until_empty (remote_all_at_once 2) 1) as [HS HL].
  split.
  - destruct (HS (fun _ => [card_of 1; card_of 2]) fresh) as (self' & E & C & _ & R).
    + lia.
    + intros q Hq. assert (q = 1%nat) as -> by lia.
      split; [eexists; split; reflexivity|discriminate].
    + eexists. split; reflexivity.
    + exists self'. repeat split; assumption.
  - destruct (HL (fun _ => [product_of 1; product_of 2]) (fun _ => 0%nat) 1%nat)
      as (tr & E & _ & _ & R).
    + lia.
    + intros q Hq. assert (q = 1%nat) as -> by lia.
      split; [|discriminate].
      eexists. split; [split; [intros a Ha; lia|reflexivity]|reflexivity].
    + eexists. split; [split; [intros a Ha; lia|reflexivity]|reflexivity].
    + intros q _. lia.
    + exists tr. split; [exact E|]. apply R. reflexivity.
Defined.

(** C5, as the programs have it.  When no page is empty the harvest ends
    well at the ceiling written in the loop, 100 pages in the stable
    program and 50 in the legacy one: the stable loop after exactly the
    requests 1 to 100, the legacy loop after asking for the pages 1 to 50,
    each until answered.  What the caller gets is the same kind of value as
    at an empty page, nothing in the stable program and the list of
    records in the legacy one. *)
Theorem harvest_ceiling (remote : Remote) :
  (forall recs self,
      (forall q, (1 <= q <= 100)%nat ->
                 stable_page_gives remote q (recs q) /\ recs q <> []) ->
      exists self',
        Stable.get_all_products_in_category remote self = (self', Ok tt)
        /\ Stable.product_cards self'
           = Stable.product_cards self ++ flat_map recs (seq 1 100)
        /\ requested (Stable.trace self')
           = requested (Stable.trace self) ++ seq 1 100)
  /\
  (forall recs failed fuel,
      (forall q, (1 <= q <= 50)%nat ->
                 legacy_page_gives remote q (failed q) (recs q) /\ recs q <> []) ->
      (forall q, (1 <= q <= 50)%nat -> (failed q < fuel)%nat) ->
      exists tr,
        Legacy.collect_products fuel remote = Some (tr, Ok (flat_map recs (seq 1 50)))
        /\ requested tr = asked failed (seq 1 50)
        /\ ((forall q, failed q = 0%nat) -> requested tr = seq 1 50)).
Proof.
  split.
  - intros recs self Hfull.
    unfold Stable.get_all_products_in_category, Stable.page_range.
    replace (Stable.for_pages remote (seq 1 100) self)
      with (Stable.for_pages remote (seq 1 100 ++ []) self)
      by (rewrite app_nil_r; reflexivity).
    rewrite (stable_for_pages_full remote recs)
      by (intros q Hq; apply Hfull, in_seq_1, Hq).
    eexists. split; [reflexivity|]. cbn [Stable.product_cards Stable.trace].
    split; [reflexivity|].
    rewrite requested_app, requested_stable_log. reflexivity.
  - intros recs failed fuel Hfull Hfuel.
    unfold Legacy.collect_products, Legacy.page_range.
    replace (Legacy.for_pages fuel remote (seq 1 50) [] [])
      with (Legacy.for_pages fuel remote (seq 1 50 ++ []) [] [])
      by (rewrite app_nil_r; reflexivity).
    destruct (legacy_for_pages_full fuel remote failed recs (seq 1 50) [] [] [])
      as (tr1 & E1 & R1).
    { intros q Hq. apply in_seq_1 in Hq. destruct (Hfull q Hq) as [Hg Hne].
      repeat split; [exact Hg|exact Hne|apply Hfuel; exact Hq]. }
    rewrite E1. cbn [Legacy.for_pages app]. eexists. split; [reflexivity|].
    assert (Hreq : requested
                     (tr1 ++ [Print (Finished_collecting
                                       (List.length (flat_map recs (seq 1 50))))])
                   = asked failed (seq 1 50)).
    { rewrite requested_app, R1. cbn [requested]. apply app_nil_r. }
    split; [exact Hreq|].
    intros H0. rewrite Hreq.
    replace (asked failed (seq 1 50)) with (asked (fun _ => 0%nat) (seq 1 50));
      [apply asked_once|].
    unfold asked. apply flat_map_ext. intros q. rewrite H0. reflexivity.
Qed.

Lemma remote_one_each_stable q :
  stable_page_gives remote_one_each q [card_of (Z.of_nat q)].
Proof. eexists. split; reflexivity. Qed.

Lemma remote_one_each_legacy q :
  legacy_page_gives remote_one_each q 0 [product_of (Z.of_nat q)].
Proof.
  eexists. split; [split; [intros a Ha; lia|reflexivity]|reflexivity].
Qed.

Lemma harvest_ceiling_witness :
  (exists self',
      Stable.get_all_products_in_category remote_one_each fresh = (self', Ok tt)
      /\ Stable.product_cards self'
         = flat_map (fun q => [card_of (Z.of_nat q)]) (seq 1 100)
      /\ requested (Stable.trace self') = seq 1 100)
  /\
  (exists tr,
      Legacy.collect_products 1 remote_one_each
      = Some (tr, Ok (flat_map (fun q => [product_of (Z.of_nat q)]) (seq 1 50)))
      /\ requested tr = seq 1 50).
Proof.
  destruct (harvest_ceiling remote_one_each) as [HS HL].
  split.
  - apply (HS (fun q => [card_of (Z.of_nat q)]) fresh).
    intros q _. split; [apply remote_one_each_stable|discriminate].
  - destruct (HL (fun q => [product_of (Z.of_nat q)]) (fun _ => 0%nat) 1%nat)
      as (tr & E & _ & R).
    + intros q _. split; [apply remote_one_each_legacy|discriminate].
    + intros q _. lia.
    + exists tr. split; [exact E|]. apply R. reflexivity.
Defined.

(** C5 as stated fails: the caller cannot tell the two endings apart.  A
    remote side with one item on each page runs into the ceiling; one with
    the same items on its first page and an empty second page ends there;
    both runs hand back the same value and leave the same records. *)
Lemma harvest_ceiling_counterexample :
  snd (Stable.get_all_products_in_category remote_one_each fresh)
  = snd (Stable.get_all_products_in_category (remote_all_at_once 100) fresh)
  /\ Stable.product_cards (fst (Stable.get_all_products_in_category remote_one_each fresh))
     = Stable.product_cards
         (fst (Stable.get_all_products_in_category (remote_all_at_once 100) fresh))
  /\ requested (Stable.trace (fst (Stable.get_all_products_in_category
                                     remote_one_each fresh))) = seq 1 100
  /\ requested (Stable.trace (fst (Stable.get_all_products_in_category
                                     (remote_all_at_once 100) fresh))) = [1; 2]%nat
  /\ option_map snd (Legacy.collect_products 1 remote_one_each)
     = option_map snd (Legacy.collect_products 1 (remote_all_at_once 50))
  /\ option_map (fun r => requested (fst r)) (Legacy.collect_products 1 remote_one_each)
     = Some (seq 1 50)
  /\ option_map (fun r => requested (fst r))
       (Legacy.collect_products 1 (remote_all_at_once 50))
     = Some [1; 2]%nat.
Proof. repeat split; vm_compute; reflexivity. Qed.

(** C1, as the programs have it.  Stable: when the request of page [p], or
    the parsing of its answer, raises [e], whatever its kind, the harvest
    raises [e] and page [p] is the last page requested, once.  Legacy:
    when the answer to page [p] does not parse (an error payload in place
    of the listing), the harvest raises likewise and no later page is
    requested; but an exception raised by the request itself, whatever its
    kind, makes [scrape_page] ask again, and when every request of a page
    raises, the loop neither raises nor returns. *)
Theorem fetch_failure (remote : Remote) (p : nat) (e : exn) :
  (forall recs self,
      (1 <= p <= 100)%nat ->
      (forall q, (1 <= q < p)%nat ->
                 stable_page_gives remote q (recs q) /\ recs q <> []) ->
      stable_page_raises remote p e ->
      exists self',
        Stable.get_all_products_in_category remote self = (self', Raise e)
        /\ requested (Stable.trace self') = requested (Stable.trace self) ++ seq 1 p)
  /\
  (forall recs failed fuel body,
      (1 <= p <= 50)%nat ->
      (forall q, (1 <= q < p)%nat ->
                 legacy_page_gives remote q (failed q) (recs q) /\ recs q <> []) ->
      legacy_page_body remote p (failed p) body ->
      Legacy.extract_product_data body = Raise e ->
      (forall q, (1 <= q <= p)%nat -> (failed q < fuel)%nat) ->
      exists tr,
        Legacy.collect_products fuel remote = Some (tr, Raise e)
        /\ requested tr = asked failed (seq 1 p))
  /\
  (forall a fuel tr,
      reply_json (remote p a) = Raise e ->
      exists tr',
        Legacy.scrape_page (S fuel) remote p a tr
        = Legacy.scrape_page fuel remote p (S a) (tr ++ tr')
        /\ requested tr' = [p])
  /\
  ((forall a, exists e', reply_json (remote p a) = Raise e') ->
   forall fuel rest products tr,
     Legacy.for_pages fuel remote (p :: rest) products tr = None).
Proof.
  split; [|split; [|split]].
  - intros recs self Hp Hfull Hraise.
    destruct p as [|k]; [lia|].
    unfold Stable.get_all_products_in_category, Stable.page_range.
    rewrite (seq_split_at k 100) by lia.
    rewrite (stable_for_pages_full remote recs)
      by (intros q Hq; apply in_seq_1 in Hq; apply Hfull; lia).
    cbn [Stable.for_pages]. rewrite (stable_add_raises _ _ _ _ Hraise).
    eexists. split; [reflexivity|]. cbn [Stable.trace Stable.emit].
    rewrite <- !app_assoc, !requested_app, requested_stable_log.
    cbn [requested app]. rewrite seq_S. reflexivity.
  - intros recs failed fuel body Hp Hfull Hb Hl Hfuel.
    destruct p as [|k]; [lia|].
    unfold Legacy.collect_products, Legacy.page_range.
    rewrite (seq_split_at k 50) by lia.
    destruct (legacy_for_pages_full fuel remote failed recs (seq 1 k)
                (S k :: seq (S (S k)) (50 - S k)) [] [])
      as (tr1 & E1 & R1).
    { intros q Hq. apply in_seq_1 in Hq.
      destruct (Hfull q ltac:(lia)) as [Hg Hne].
      repeat split; [exact Hg|exact Hne|apply Hfuel; lia]. }
    rewrite E1. cbn [Legacy.for_pages app].
    destruct (scrape_page_body remote (S k) _ body fuel tr1 Hb
                (Hfuel (S k) ltac:(lia))) as (tr2 & E2 & R2).
    rewrite E2, Hl. eexists. split; [reflexivity|].
    rewrite requested_app, R1, R2, seq_S, asked_app.
    cbn [asked flat_map Nat.add]. rewrite app_nil_r. reflexivity.
  - intros a fuel tr He. apply (scrape_page_again remote p a fuel tr e He).
  - intros Hall fuel rest products tr. cbn [Legacy.for_pages].
    rewrite (scrape_page_never remote p Hall). reflexivity.
Qed.

Lemma fetch_failure_witness :
  (exists self',
      Stable.get_all_products_in_category remote_rejects_second fresh
      = (self', Raise (KeyError (JStr "data")))
      /\ requested (Stable.trace self') = [1; 2]%nat)
  /\
  (exists tr,
      Legacy.collect_products 1 remote_rejects_second
      = Some (tr, Raise (KeyError (JStr "data")))
      /\ requested tr = [1; 2]%nat)
  /\
  (exists tr',
      Legacy.scrape_page 3 remote_unreachable 1 0 []
      = Legacy.scrape_page 2 remote_unreachable 1 1 ([] ++ tr')
      /\ requested tr' = [1%nat])
  /\
  Legacy.for_pages 7 remote_unreachable [1; 2]%nat [] [] = None.
Proof.
  destruct (fetch_failure remote_rejects_second 2 (KeyError (JStr "data")))
    as (HS & HL & _).
  destruct (fetch_failure remote_unreachable 1 ConnectTimeout)
    as (_ & _ & HR & HN).
  split; [|split; [|split]].
  - apply (HS (fun _ => [card_of 1]) fresh).
    + lia.
    + intros q Hq. assert (q = 1%nat) as -> by lia.
      split; [eexists; split; reflexivity|discriminate].
    + right. eexists. split; reflexivity.
  - apply (HL (fun _ => [product_of 1]) (fun _ => 0%nat) 1%nat
              (JObj [("error", JStr "bad parameters")])).
    + lia.
    + intros q Hq. assert (q = 1%nat) as -> by lia.
      split; [|discriminate].
      eexists. split; [split; [intros a Ha; lia|reflexivity]|reflexivity].
    + split; [intros a Ha; lia|reflexivity].
    + reflexivity.
    + intros q _. lia.
  - apply HR. reflexivity.
  - apply HN. intros a. exists ConnectTimeout. reflexivity.
Defined.

(** C1 as stated fails on the legacy program: the first request of page 1
    raises an exception that the specification counts as permanent, the
    page is requested a second time, and the harvest goes on to end
    well. *)
Lemma fetch_failure_counterexample :
  remote_redirects_once 1%nat 0%nat = Raise TooManyRedirects
  /\ spec_transient TooManyRedirects = false
  /\ option_map snd (Legacy.collect_products 2 remote_redirects_once) = Some (Ok [])
  /\ option_map (fun r => requested (fst r))
       (Legacy.collect_products 2 remote_redirects_once)
     = Some [1; 1]%nat.
Proof. repeat split; reflexivity. Qed.

(** ** Claims on the sales enrichment *)

Lemma set_selled_at done c rest v :
  Stable.set_selled (List.length done) v (done ++ c :: rest)
  = done ++ Stable.with_selled c v :: rest.
Proof.
  induction done as [|x done IH]; [reflexivity|].
  cbn [List.length app Stable.set_selled]. rewrite IH. reflexivity.
Qed.

Lemma sales_requested_app tr1 tr2 :
  sales_requested (tr1 ++ tr2) = sales_requested tr1 ++ sales_requested tr2.
Proof.
  induction tr1 as [|ev tr1 IH]; [reflexivity|].
  destruct ev; cbn [app sales_requested]; rewrite IH; reflexivity.
Qed.

Lemma sales_requested_map cards :
  sales_requested (map (fun c => Sales_request (Stable.ID c)) cards)
  = map Stable.ID cards.
Proof.
  induction cards as [|c cards IH]; [reflexivity|].
  cbn [map sales_requested]. rewrite IH. reflexivity.
Qed.

(** The loop of [get_sales_data] over cards whose requests all give a
    quantity or time out on connecting. *)
Lemma sales_loop_all sales sold :
  forall todo done tr,
    (forall j, (j < List.length todo)%nat ->
               Stable.sold_quantity (sales (List.length done + j)%nat)
               = Ok (sold (List.length done + j)%nat)
               \/ (Stable.sold_quantity (sales (List.length done + j)%nat) = Raise ConnectTimeout
                   /\ sold (List.length done + j)%nat = JStr "no data")) ->
    Stable.sales_loop sales (List.length done) todo (Stable.mkParser (done ++ todo) tr)
    = (Stable.mkParser (done ++ enriched sold (List.length done) todo)
         (tr ++ map (fun c => Sales_request (Stable.ID c)) todo),
       Ok tt).
Proof.
  induction todo as [|c rest IH]; intros done tr H.
  - cbn. rewrite !app_nil_r. reflexivity.
  - cbn [Stable.sales_loop Stable.emit Stable.product_cards Stable.trace enriched map].
    pose proof (H 0%nat ltac:(cbn; lia)) as H0. rewrite Nat.add_0_r in H0.
    assert (Hstep :
              Stable.sales_loop sales (S (List.length done)) rest
                (Stable.mkParser
                   (Stable.set_selled (List.length done) (sold (List.length done))
                      (done ++ c :: rest))
                   (tr ++ [Sales_request (Stable.ID c)]))
              = (Stable.mkParser
                   (done ++ Stable.with_selled c (sold (List.length done))
                         :: enriched sold (S (List.length done)) rest)
                   (tr ++ Sales_request (Stable.ID c)
                       :: map (fun c => Sales_request (Stable.ID c)) rest),
                 Ok tt)).
    { rewrite set_selled_at.
      specialize (IH (done ++ [Stable.with_selled c (sold (List.length done))])
                     (tr ++ [Sales_request (Stable.ID c)])).
      rewrite length_app in IH. cbn [List.length] in IH.
      rewrite Nat.add_1_r, <- !app_assoc in IH. cbn [app] in IH.
      apply IH. intros j Hj.
      replace (S (List.length done) + j)%nat with (List.length done + S j)%nat by lia.
      apply H. cbn. lia. }
    destruct H0 as [E|[E Es]]; rewrite E.
    + exact Hstep.
    + rewrite <- Es. exact Hstep.
Qed.

(** C8, as the program has it.  [get_sales_data] asks the sales endpoint
    once per card, in order.  When every request either gives a reply
    whose first element has [qnt] or raises [requests.ConnectTimeout], it
    ends well with all the cards, each with its quantity in [Selled], or
    with the sentinel ['no data'] after the timeout.  No other exception
    is handled. *)
Theorem sales_enrichment (sales : nat -> result Response) (self : Stable.Parser)
  (sold : nat -> json) :
  (forall i, (i < List.length (Stable.product_cards self))%nat ->
             Stable.sold_quantity (sales i) = Ok (sold i)
             \/ (Stable.sold_quantity (sales i) = Raise ConnectTimeout
                 /\ sold i = JStr "no data")) ->
  exists self',
    Stable.get_sales_data sales self = (self', Ok tt)
    /\ Stable.product_cards self' = enriched sold 0 (Stable.product_cards self)
    /\ List.length (Stable.product_cards self') = List.length (Stable.product_cards self)
    /\ sales_requested (Stable.trace self')
       = sales_requested (Stable.trace self) ++ map Stable.ID (Stable.product_cards self).
Proof.
  intros H. unfold Stable.get_sales_data. destruct self as [cards tr].
  cbn [Stable.product_cards Stable.trace] in *.
  pose proof (sales_loop_all sales sold cards [] tr H) as E.
  cbn [List.length app] in E. rewrite E.
  eexists. split; [reflexivity|]. cbn [Stable.product_cards Stable.trace].
  split; [reflexivity|]. split.
  - clear. generalize 0%nat. induction cards as [|c cards IH]; intros n;
      [reflexivity|]. cbn [enriched List.length]. rewrite IH. reflexivity.
  - rewrite sales_requested_app, sales_requested_map. reflexivity.
Qed.

Lemma sales_enrichment_witness :
  exists self',
    Stable.get_sales_data sales_second_connect_timeout three_cards = (self', Ok tt)
    /\ Stable.product_cards self'
       = [Stable.with_selled (card_of 1) (JInt 5);
          Stable.with_selled (card_of 2) (JStr "no data");
          Stable.with_selled (card_of 3) (JInt 5)]
    /\ sales_requested (Stable.trace self') = [JInt 1; JInt 2; JInt 3].
Proof.
  destruct (sales_enrichment sales_second_connect_timeout three_cards
              (fun i => match i with 1%nat => JStr "no data" | _ => JInt 5 end))
    as (self' & E & C & _ & R).
  - intros i Hi. cbn in Hi.
    destruct i as [|[|[|i]]]; [left|right; split|left|lia]; reflexivity.
  - exists self'. repeat split; assumption.
Defined.

(** C8 as stated fails: a failure other than the connect timeout, here a
    timeout while the second reply is read, leaves [get_sales_data] with
    the exception; the third card is never asked for and stays without
    [Selled]. *)
Lemma sales_enrichment_counterexample :
  snd (Stable.get_sales_data sales_second_read_timeout three_cards) = Raise ReadTimeout
  /\ Stable.product_cards (fst (Stable.get_sales_data sales_second_read_timeout three_cards))
     = [Stable.with_selled (card_of 1) (JInt 5); card_of 2; card_of 3]
  /\ sales_requested
       (Stable.trace (fst (Stable.get_sales_data sales_second_read_timeout three_cards)))
     = [JInt 1; JInt 2].
Proof. repeat split; reflexivity. Qed.

(** ** More on the catalogue walks *)

Lemma category_raises d e :
  Legacy.category d = Raise e ->
  e = KeyError (JStr "name") \/ e = KeyError (JStr "url").
Proof.
  intros H. destruct (dict_mem "name" d && dict_mem "url" d) eqn:Hn.
  - destruct (category_named d Hn) as [c Hc]. congruence.
  - rewrite (category_unnamed d Hn) in H. injection H as <-.
    destruct (dict_mem "name" d); auto.
Qed.

Lemma stable_walk_raises catalog e :
  Stable.process_catalogue catalog = Raise e -> e = TypeError.
Proof.
  revert e.
  induction catalog as [| | | |s|l IH|d IH] using json_deep_ind; intros e H;
    try (cbv in H; congruence).
  - destruct s; cbv in H; congruence.
  - revert e H. induction IH as [|x l [_ Hx] _ IHl]; intros e H.
    + discriminate H.
    + destruct x; try (cbv in H; congruence).
      rewrite process_cons_obj in H.
      destruct (stable_entry d) as [c|]; [|apply IHl; exact H].
      unfold stable_below in H.
      destruct (dict_get "childs" d) as [childs|] eqn:Hc.
      * destruct (Stable.process_catalogue childs) as [lc|e'] eqn:Ec.
        { cbn [bind] in H.
          destruct (Stable.process_catalogue (JArr l)) as [lr|e'] eqn:Er;
            [discriminate H|].
          injection H as <-. apply IHl. reflexivity. }
        injection H as <-. apply (Hx d _ _ eq_refl Hc). exact Ec.
      * cbn [bind] in H.
        destruct (Stable.process_catalogue (JArr l)) as [lr|e'] eqn:Er;
          [discriminate H|].
        injection H as <-. apply IHl. reflexivity.
  - destruct d; cbv in H; congruence.
Qed.

Lemma legacy_walk_raises catalog e :
  Legacy.extract_category_data catalog = Raise e ->
  e = KeyError (JStr "name") \/ e = KeyError (JStr "url")
  \/ e = TypeError \/ e = RecursionError.
Proof.
  revert e.
  induction catalog as [| | | |s|l IH|d IH] using json_deep_ind; intros e H;
    try (cbv in H; injection H as <-; auto).
  - destruct s; cbv in H; [discriminate H|injection H as <-; auto].
  - revert e H. induction IH as [|x l [Hx _] _ IHl]; intros e H.
    + discriminate H.
    + rewrite extract_cons in H.
      destruct (Legacy.extract_category_data x) as [lx|e'] eqn:Ex.
      * cbn [bind] in H.
        destruct (Legacy.extract_category_data (JArr l)) as [lr|e''] eqn:Er;
          [discriminate H|].
        injection H as <-. apply IHl. reflexivity.
      * injection H as <-. apply Hx. reflexivity.
  - rewrite extract_obj in H.
    destruct (Legacy.category d) as [c|e'] eqn:Ec.
    + cbn [bind] in H. unfold legacy_below in H.
      destruct (dict_get "childs" d) as [childs|] eqn:Hc; [|discriminate H].
      destruct (Legacy.extract_category_data childs) as [lc|e'] eqn:El;
        [discriminate H|].
      injection H as <-. apply (IH _ _ Hc). exact El.
    + injection H as <-. destruct (category_raises d e' Ec); auto.
Qed.

(** X1.  The exceptions of the walks, [frames] being the nested calls that
    the interpreter still allows when the walk is called.  The stable walk
    catches every [KeyError], so what it lets out is the [TypeError] of a
    value that cannot be subscripted or iterated, or the [RecursionError]
    of a catalogue too deep for [frames]; on a catalogue less deep than
    [frames], [TypeError] only.  The legacy walk subscripts [name] and
    [url] unguarded: it lets out [KeyError] for one of these two keys,
    [TypeError], or [RecursionError], and nothing else. *)
Theorem walk_exceptions (frames : nat) (catalog : json) (e : exn) :
  (Stable.process_catalogue_within frames catalog = Raise e ->
   e = TypeError \/ e = RecursionError)
  /\
  ((stable_depth catalog < frames)%nat ->
   Stable.process_catalogue_within frames catalog = Raise e -> e = TypeError)
  /\
  (Legacy.extract_category_data_within frames catalog = Raise e ->
   e = KeyError (JStr "name") \/ e = KeyError (JStr "url")
   \/ e = TypeError \/ e = RecursionError).
Proof.
  unfold Stable.process_catalogue_within. split; [|split].
  - intros H. destruct (stable_within_cases frames catalog []) as [E|E].
    + right. congruence.
    + left. apply (stable_walk_raises catalog). unfold Stable.process_catalogue.
      congruence.
  - intros Hf H. rewrite stable_within_enough in H by lia.
    apply (stable_walk_raises catalog). exact H.
  - intros H. destruct (legacy_within_cases frames catalog) as [E|E].
    + right. right. right. congruence.
    + apply (legacy_walk_raises catalog). congruence.
Qed.

Lemma walk_exceptions_witness :
  ((stable_depth (JArr [JObj hats; JStr "Hats"]) < 1000)%nat
   /\ Stable.process_catalogue_within 1000 (JArr [JObj hats; JStr "Hats"])
      = Raise TypeError
   /\ (TypeError = TypeError \/ TypeError = RecursionError)
   /\ TypeError = TypeError)
  /\
  (Stable.process_catalogue_within 1000 (chain 1200) = Raise RecursionError
   /\ (RecursionError = TypeError \/ RecursionError = RecursionError))
  /\
  (Legacy.extract_category_data_within 1000 (JArr [JObj hats; JObj nameless])
   = Raise (KeyError (JStr "name"))
   /\ (KeyError (JStr "name") = KeyError (JStr "name")
       \/ KeyError (JStr "name") = KeyError (JStr "url")
       \/ KeyError (JStr "name") = TypeError
       \/ KeyError (JStr "name") = RecursionError)).
Proof.
  assert (H0 : (stable_depth (JArr [JObj hats; JStr "Hats"]) < 1000)%nat)
    by (vm_compute; lia).
  assert (H1 : Stable.process_catalogue_within 1000 (JArr [JObj hats; JStr "Hats"])
               = Raise TypeError) by (vm_compute; reflexivity).
  assert (H2 : Stable.process_catalogue_within 1000 (chain 1200)
               = Raise RecursionError) by (vm_compute; reflexivity).
  assert (H3 : Legacy.extract_category_data_within 1000 (JArr [JObj hats; JObj nameless])
               = Raise (KeyError (JStr "name"))) by (vm_compute; reflexivity).
  split; [|split].
  - split; [exact H0|]. split; [exact H1|]. split.
    + exact (proj1 (walk_exceptions 1000 _ TypeError) H1).
    + exact (proj1 (proj2 (walk_exceptions 1000 _ TypeError)) H0 H1).
  - split; [exact H2|].
    exact (proj1 (walk_exceptions 1000 _ RecursionError) H2).
  - split; [exact H3|].
    exact (proj2 (proj2 (walk_exceptions 1000 _ (KeyError (JStr "name")))) H3).
Defined.

Lemma complete_entry d :
  complete d = true ->
  exists c, stable_entry d = Some c /\ Legacy.category d = Ok c.
Proof.
  unfold complete, stable_entry, dict_mem, Legacy.category, getitem, dot_get.
  destruct (dict_get "name" d), (dict_get "url" d),
    (dict_get "shard" d), (dict_get "query" d); try discriminate.
  intros _. eexists. split; reflexivity.
Qed.

Lemma complete_tree_walks catalog :
  complete_tree catalog = true ->
  exists l, Stable.process_catalogue catalog = Ok l
            /\ Legacy.extract_category_data catalog = Ok l.
Proof.
  induction catalog as [| | | |s|l IH|d IH] using json_deep_ind;
    try discriminate.
  induction IH as [|x l [_ Hx] _ IHl]; intros Hs.
  - exists []. split; reflexivity.
  - destruct x; try discriminate.
    cbn [complete_tree] in Hs.
    apply andb_true_iff in Hs as [Hs Hrest].
    apply andb_true_iff in Hs as [Hd Hch].
    destruct (IHl Hrest) as (lr & Sr & Lr).
    destruct (complete_entry d Hd) as (c & Sc & Lc).
    rewrite process_cons_obj, extract_cons, extract_obj, Sc, Lc, Sr, Lr.
    rewrite dict_find_get in Hch. unfold stable_below, legacy_below.
    destruct (dict_get "childs" d) as [childs|] eqn:Hc.
    + destruct (Hx d _ _ eq_refl Hc Hch) as (lc & Slc & Llc).
      rewrite Slc, Llc. eexists. split; reflexivity.
    + eexists. split; reflexivity.
Qed.

(** X2.  The two walks agree on a catalogue of complete nodes that is less
    deep than the nested calls each walk is allowed, [frames_stable] and
    [frames_legacy]: the stable walk, which appends to the list it is
    handed, and the legacy walk, which builds and concatenates lists,
    return the same entries in the same order.  The legacy walk takes two
    calls for every level of the catalogue and the stable walk one, so on
    a deep catalogue the legacy walk meets the limit where the stable walk
    still returns. *)
Theorem walks_agree (frames_stable frames_legacy : nat) (catalog : json) :
  complete_tree catalog = true ->
  (stable_depth catalog < frames_stable)%nat ->
  (legacy_depth catalog < frames_legacy)%nat ->
  exists l, Stable.process_catalogue_within frames_stable catalog = Ok l
            /\ Legacy.extract_category_data_within frames_legacy catalog = Ok l.
Proof.
  intros Hs Hfs Hfl. unfold Stable.process_catalogue_within.
  rewrite stable_within_enough, legacy_within_enough by lia.
  apply complete_tree_walks. exact Hs.
Qed.

Lemma walks_agree_witness :
  (exists l,
      Stable.process_catalogue_within 1000 (JArr [JObj hats; JObj shoes; JObj toys])
      = Ok l
      /\ Legacy.extract_category_data_within 1000
           (JArr [JObj hats; JObj shoes; JObj toys])
         = Ok l)
  /\ (exists l, Stable.process_catalogue_within 1000 (chain 400) = Ok l
                /\ Legacy.extract_category_data_within 1000 (chain 400) = Ok l).
Proof.
  split.
  - apply (walks_agree 1000 1000 (JArr [JObj hats; JObj shoes; JObj toys]));
      [reflexivity|vm_compute; lia|vm_compute; lia].
  - apply (walks_agree 1000 1000 (chain 400));
      [vm_compute; reflexivity|vm_compute; lia|vm_compute; lia].
Defined.

(** With the 1000 nested calls of the default limit, a catalogue 600
    levels deep is flattened by the stable walk and ends the legacy walk. *)
Example walks_part_on_a_deep_catalogue :
  (exists l, Stable.process_catalogue_within 1000 (chain 600) = Ok l
             /\ List.length l = 600%nat)
  /\ Legacy.extract_category_data_within 1000 (chain 600) = Raise RecursionError.
Proof.
  split; [|vm_compute; reflexivity].
  eexists. split; [vm_compute; reflexivity|vm_compute; reflexivity].
Qed.

Lemma map_result_app {A B} (f : A -> result B) xs ys :
  map_result f (xs ++ ys)
  = a <- map_result f xs ;; b <- map_result f ys ;; Ok (a ++ b).
Proof.
  induction xs as [|x xs IH]; cbn [app map_result].
  - cbn [bind]. destruct (map_result f ys); reflexivity.
  - destruct (f x) as [y|e]; [|reflexivity]. cbn [bind]. rewrite IH.
    destruct (map_result f xs) as [a|e]; [|reflexivity]. cbn [bind].
    destruct (map_result f ys); reflexivity.
Qed.

(** X3.  What the legacy walk returns is the list of the catalogue's
    mappings in pre-order, each turned into its entry: no mapping reached
    through lists and [childs] is left out, none is listed twice, and the
    order is that of the tree. *)
Theorem legacy_walk_lists_mappings (catalog : json) (l : list FlatCategory) :
  Legacy.extract_category_data catalog = Ok l ->
  map_result Legacy.category (mappings catalog) = Ok l
  /\ List.length l = List.length (mappings catalog).
Proof.
  assert (Hlen : forall ds cs, map_result Legacy.category ds = Ok cs ->
                               List.length cs = List.length ds).
  { induction ds as [|d ds IHd]; intros cs H; cbn [map_result] in H.
    - injection H as <-. reflexivity.
    - destruct (Legacy.category d); [|discriminate H]. cbn [bind] in H.
      destruct (map_result Legacy.category ds) as [cs'|]; [|discriminate H].
      injection H as <-. cbn [List.length]. f_equal. apply IHd. reflexivity. }
  intros H.
  enough (E : map_result Legacy.category (mappings catalog) = Ok l)
    by (split; [exact E|apply Hlen, E]).
  revert l H.
  induction catalog as [| | | |s|l0 IH|d IH] using json_deep_ind; intros l H;
    try (cbv in H; discriminate H).
  - destruct s; cbv in H; [injection H as <-; reflexivity|discriminate H].
  - revert l H. induction IH as [|x l0 [Hx _] _ IHl]; intros l H.
    + injection H as <-. reflexivity.
    + rewrite extract_cons in H.
      destruct (Legacy.extract_category_data x) as [lx|] eqn:Ex; [|discriminate H].
      cbn [bind] in H.
      destruct (Legacy.extract_category_data (JArr l0)) as [lr|] eqn:Er;
        [|discriminate H].
      injection H as <-.
      change (mappings (JArr (x :: l0))) with (mappings x ++ mappings (JArr l0)).
      rewrite map_result_app, (Hx lx eq_refl), (IHl lr eq_refl). reflexivity.
  - rewrite extract_obj in H.
    destruct (Legacy.category d) as [c|] eqn:Ec; [|discriminate H].
    cbn [bind] in H. cbn [mappings map_result]. rewrite Ec. cbn [bind].
    rewrite dict_find_get. unfold legacy_below in H.
    destruct (dict_get "childs" d) as [childs|] eqn:Hc.
    + destruct (Legacy.extract_category_data childs) as [lc|] eqn:El;
        [|discriminate H].
      injection H as <-. rewrite (IH _ _ Hc lc El). reflexivity.
    + injection H as <-. reflexivity.
Qed.

Lemma legacy_walk_lists_mappings_witness :
  map_result Legacy.category (mappings (JObj shoes))
  = Ok [mkFlat (JStr "Shoes") (JStr "/shoes") (JStr "s1") (JStr "cat=1");
        mkFlat (JStr "Boots") (JStr "/shoes/boots") (JStr "s2") (JStr "cat=2")]
  /\ 2%nat = List.length (mappings (JObj shoes)).
Proof.
  apply (legacy_walk_lists_mappings (JObj shoes)). reflexivity.
Defined.

(** X4.  [traverse_json] only appends to the list it is given: what was in
    the list stays in front, unchanged, and what is appended does not
    depend on it; and whether the walk raises does not depend on the list
    either. *)
Theorem traverse_only_appends (catalog : json) (acc : list FlatCategory) :
  (forall l, Stable.traverse_json catalog acc = Ok l ->
             exists added, l = acc ++ added
                           /\ forall acc', Stable.traverse_json catalog acc'
                                           = Ok (acc' ++ added))
  /\
  (forall e, Stable.traverse_json catalog acc = Raise e ->
             forall acc', Stable.traverse_json catalog acc' = Raise e).
Proof.
  split.
  - intros l H. rewrite traverse_acc in H.
    destruct (Stable.traverse_json catalog []) as [added|] eqn:E; [|discriminate H].
    injection H as <-. exists added. split; [reflexivity|].
    intros acc'. rewrite traverse_acc, E. reflexivity.
  - intros e H acc'. rewrite traverse_acc in H.
    destruct (Stable.traverse_json catalog []) as [added|e'] eqn:E; [discriminate H|].
    injection H as <-. rewrite traverse_acc, E. reflexivity.
Qed.

Lemma traverse_only_appends_witness :
  (exists added,
      [mkFlat (JStr "Toys") (JStr "/toys") (JStr "s4") (JStr "cat=4");
       mkFlat (JStr "Hats") (JStr "/hats") (JStr "s3") (JStr "cat=3")]
      = [mkFlat (JStr "Toys") (JStr "/toys") (JStr "s4") (JStr "cat=4")] ++ added
      /\ forall acc', Stable.traverse_json (JArr [JObj hats]) acc' = Ok (acc' ++ added))
  /\
  (forall acc', Stable.traverse_json (JArr [JObj hats; JInt 7]) acc' = Raise TypeError).
Proof.
  split.
  - apply (traverse_only_appends (JArr [JObj hats])
             [mkFlat (JStr "Toys") (JStr "/toys") (JStr "s4") (JStr "cat=4")]).
    reflexivity.
  - apply (traverse_only_appends (JArr [JObj hats; JInt 7]) []). reflexivity.
Defined.

(** ** More on the category lookup *)

Lemma stable_lookup_decompose (catalogue : list FlatCategory) (q : string) :
  (forall t, Stable.extract_category_data catalogue q = Some t ->
             exists pre c post,
               catalogue = pre ++ c :: post
               /\ (url c = JStr (url_suffix q) \/ name c = JStr q)
               /\ (forall c', In c' pre ->
                              url c' <> JStr (url_suffix q) /\ name c' <> JStr q)
               /\ t = (name c, shard c, query c))
  /\
  (Stable.extract_category_data catalogue q = None ->
   forall c, In c catalogue -> url c <> JStr (url_suffix q) /\ name c <> JStr q).
Proof.
  induction catalogue as [|c rest [IHs IHn]]; split.
  - discriminate.
  - intros _ c [].
  - intros t H. cbn [Stable.extract_category_data] in H.
    destruct (str_eq (url_suffix q) (url c)) eqn:Hu.
    + injection H as <-. exists [], c, rest.
      apply str_eq_true in Hu. repeat split; auto; intros c' [].
    + destruct (str_eq q (name c)) eqn:Hn; cbn [orb] in H.
      * injection H as <-. exists [], c, rest.
        apply str_eq_true in Hn. repeat split; auto; intros c' [].
      * destruct (IHs t H) as (pre & c0 & post & -> & Hm & Hpre & ->).
        exists (c :: pre), c0, post.
        split; [reflexivity|]. split; [exact Hm|]. split; [|reflexivity].
        intros c' [<-|Hin];
          [split; apply str_eq_false; assumption|apply (Hpre c' Hin)].
  - intros H. cbn [Stable.extract_category_data] in H.
    destruct (str_eq (url_suffix q) (url c)) eqn:Hu; [discriminate H|].
    destruct (str_eq q (name c)) eqn:Hn; [discriminate H|]. cbn [orb] in H.
    intros c' [<-|Hin]; [split; apply str_eq_false; assumption|].
    apply (IHn H c' Hin).
Qed.

(** X5.  The stable lookup finds nothing else than a first match: a result
    is the name, shard and query of an entry of the catalogue that matches
    the input by url suffix or by name and has no matching entry before it;
    and [None] is returned only when no entry of the catalogue matches. *)
Theorem stable_lookup_sound (catalogue : list FlatCategory) (q : string) :
  (forall t, Stable.extract_category_data catalogue q = Some t ->
             exists pre c post,
               catalogue = pre ++ c :: post
               /\ (url c = JStr (url_suffix q) \/ name c = JStr q)
               /\ (forall c', In c' pre ->
                              url c' <> JStr (url_suffix q) /\ name c' <> JStr q)
               /\ t = (name c, shard c, query c))
  /\
  (Stable.extract_category_data catalogue q = None ->
   forall c, In c catalogue -> url c <> JStr (url_suffix q) /\ name c <> JStr q).
Proof. exact (stable_lookup_decompose catalogue q). Qed.

Lemma stable_lookup_sound_witness :
  (exists pre c post,
      clashing = pre ++ c :: post
      /\ (url c = JStr (url_suffix "/hats") \/ name c = JStr "/hats")
      /\ (forall c', In c' pre ->
                     url c' <> JStr (url_suffix "/hats") /\ name c' <> JStr "/hats")
      /\ (JStr "/hats", JStr "s9", JStr "cat=9") = (name c, shard c, query c))
  /\
  (forall c, In c clashing ->
             url c <> JStr (url_suffix "Coats") /\ name c <> JStr "Coats").
Proof.
  split.
  - apply (stable_lookup_sound clashing "/hats"). reflexivity.
  - apply (stable_lookup_sound clashing "Coats"). reflexivity.
Defined.

Lemma legacy_find_in_sound catalog_list self_url :
  (forall c, Legacy.find_in catalog_list self_url = Ok c ->
             exists pre post,
               catalog_list = pre ++ c :: post
               /\ url c = JStr (url_suffix self_url)
               /\ forall c', In c' pre -> url c' <> JStr (url_suffix self_url))
  /\
  (forall e, Legacy.find_in catalog_list self_url = Raise e ->
             e = ValueError
             /\ forall c, In c catalog_list -> url c <> JStr (url_suffix self_url)).
Proof.
  induction catalog_list as [|c rest [IHs IHn]]; split.
  - discriminate.
  - intros e [= <-]. split; [reflexivity|intros c []].
  - intros c0 H. cbn [Legacy.find_in] in H.
    destruct (str_eq (url_suffix self_url) (url c)) eqn:Hu.
    + injection H as <-. exists [], rest. apply str_eq_true in Hu.
      repeat split; auto; intros c' [].
    + destruct (IHs c0 H) as (pre & post & -> & Hm & Hpre).
      exists (c :: pre), post.
      split; [reflexivity|]. split; [exact Hm|].
      intros c' [<-|Hin]; [apply str_eq_false; assumption|apply (Hpre c' Hin)].
  - intros e H. cbn [Legacy.find_in] in H.
    destruct (str_eq (url_suffix self_url) (url c)) eqn:Hu; [discriminate H|].
    destruct (IHn e H) as [-> Hall]. split; [reflexivity|].
    intros c' [<-|Hin]; [apply str_eq_false; assumption|apply (Hall c' Hin)].
Qed.

(** X6.  [find_category_in_catalog] of the legacy program flattens the whole
    catalogue before it looks at the url.  It returns an entry of the
    flattened catalogue whose [url] is the url suffix of the input, the
    first such; when it raises, either the walk raised that exception, or
    the walk went through, no entry has that [url], and the exception is
    [ValueError]. *)
Theorem legacy_lookup_sound (catalog_data : json) (self_url : string) :
  (forall c, Legacy.find_category_in_catalog catalog_data self_url = Ok c ->
             exists pre post,
               Legacy.extract_category_data catalog_data = Ok (pre ++ c :: post)
               /\ url c = JStr (url_suffix self_url)
               /\ forall c', In c' pre -> url c' <> JStr (url_suffix self_url))
  /\
  (forall e, Legacy.find_category_in_catalog catalog_data self_url = Raise e ->
             Legacy.extract_category_data catalog_data = Raise e
             \/ (e = ValueError
                 /\ exists l, Legacy.extract_category_data catalog_data = Ok l
                              /\ forall c, In c l ->
                                           url c <> JStr (url_suffix self_url))).
Proof.
  unfold Legacy.find_category_in_catalog.
  destruct (Legacy.extract_category_data catalog_data) as [l|e0]; cbn [bind]; split.
  - intros c H.
    destruct (proj1 (legacy_find_in_sound l self_url) c H) as (pre & post & -> & Hm & Hp).
    exists pre, post. auto.
  - intros e H. right.
    destruct (proj2 (legacy_find_in_sound l self_url) e H) as [-> Hall].
    split; [reflexivity|]. exists l. auto.
  - discriminate.
  - intros e [= <-]. left. reflexivity.
Qed.

Lemma legacy_lookup_sound_witness :
  (exists pre post,
      Legacy.extract_category_data (JArr [JObj hats; JObj shoes])
      = Ok (pre ++ mkFlat (JStr "Boots") (JStr "/shoes/boots") (JStr "s2") (JStr "cat=2")
                :: post)
      /\ JStr "/shoes/boots" = JStr (url_suffix "https://www.wildberries.ru/shoes/boots")
      /\ forall c', In c' pre ->
                    url c' <> JStr (url_suffix "https://www.wildberries.ru/shoes/boots"))
  /\
  (Legacy.extract_category_data (JArr [JObj hats; JObj nameless])
   = Raise (KeyError (JStr "name"))
   \/ (KeyError (JStr "name") = ValueError
       /\ exists l, Legacy.extract_category_data (JArr [JObj hats; JObj nameless]) = Ok l
                    /\ forall c, In c l -> url c <> JStr (url_suffix "/hats"))).
Proof.
  split.
  - apply (proj1 (legacy_lookup_sound (JArr [JObj hats; JObj shoes])
                    "https://www.wildberries.ru/shoes/boots")
             (mkFlat (JStr "Boots") (JStr "/shoes/boots") (JStr "s2") (JStr "cat=2"))).
    reflexivity.
  - apply (legacy_lookup_sound (JArr [JObj hats; JObj nameless]) "/hats").
    reflexivity.
Defined.

Lemma stable_entries_from_mappings catalog :
  forall l, Stable.process_catalogue catalog = Ok l ->
            forall c, In c l ->
                      exists d, In d (mappings catalog) /\ stable_entry d = Some c.
Proof.
  induction catalog as [| | | |s|l0 IH|d IH] using json_deep_ind; intros l H c Hin;
    try (cbv in H; discriminate H).
  - destruct s; cbv in H; [injection H as <-; destruct Hin|discriminate H].
  - revert l H c Hin. induction IH as [|x l0 [_ Hx] _ IHl]; intros l H c Hin.
    + injection H as <-. destruct Hin.
    + destruct x; try (cbv in H; discriminate H).
      change (mappings (JArr (JObj d :: l0)))
        with (mappings (JObj d) ++ mappings (JArr l0)).
      rewrite process_cons_obj in H.
      destruct (stable_entry d) as [e|] eqn:He.
      * unfold stable_below in H.
        assert (Hd : mappings (JObj d)
                     = d :: match dict_get "childs" d with
                            | Some childs => mappings childs
                            | None => []
                            end).
        { cbn [mappings]. rewrite dict_find_get. reflexivity. }
        destruct (dict_get "childs" d) as [childs|] eqn:Hc.
        -- destruct (Stable.process_catalogue childs) as [lc|] eqn:Ec;
             [|discriminate H].
           cbn [bind] in H.
           destruct (Stable.process_catalogue (JArr l0)) as [lr|] eqn:Er;
             [|discriminate H].
           injection H as <-.
           destruct Hin as [<-|Hin].
           { exists d. split; [|exact He]. apply in_or_app. left.
             rewrite Hd. left. reflexivity. }
           apply in_app_or in Hin as [Hin|Hin].
           ++ destruct (Hx d _ _ eq_refl Hc lc Ec c Hin) as (d' & Hd' & Hs').
              exists d'. split; [|exact Hs']. apply in_or_app. left.
              rewrite Hd. right. exact Hd'.
           ++ destruct (IHl lr eq_refl c Hin) as (d' & Hd' & Hs').
              exists d'. split; [|exact Hs']. apply in_or_app. right. exact Hd'.
        -- cbn [bind] in H.
           destruct (Stable.process_catalogue (JArr l0)) as [lr|] eqn:Er;
             [|discriminate H].
           injection H as <-. cbn [app] in Hin.
           destruct Hin as [<-|Hin].
           { exists d. split; [|exact He]. apply in_or_app. left.
             rewrite Hd. left. reflexivity. }
           destruct (IHl lr eq_refl c Hin) as (d' & Hd' & Hs').
           exists d'. split; [|exact Hs']. apply in_or_app. right. exact Hd'.
      * destruct (IHl l H c Hin) as (d' & Hd' & Hs').
        exists d'. split; [|exact Hs']. apply in_or_app. right. exact Hd'.
  - destruct d; cbv in H; [injection H as <-; destruct Hin|discriminate H].
Qed.

(** X7.  In the stable program a category that the lookup finds in the
    processed catalogue always comes from a mapping of the catalogue file
    that has all four keys: the name, shard and query returned are the
    values stored under [name], [shard] and [query] of that mapping, so the
    shard and the query of a found category are never missing. *)
Theorem stable_found_category_is_complete (catalogue_file : json)
  (catalogue : list FlatCategory) (user_input : string) (n s q : json) :
  Stable.process_catalogue catalogue_file = Ok catalogue ->
  Stable.extract_category_data catalogue user_input = Some (n, s, q) ->
  exists d, In d (mappings catalogue_file)
            /\ complete d = true
            /\ dict_get "name" d = Some n
            /\ dict_get "shard" d = Some s
            /\ dict_get "query" d = Some q.
Proof.
  intros Hp Hl.
  destruct (proj1 (stable_lookup_decompose catalogue user_input) _ Hl)
    as (pre & c & post & -> & _ & _ & E).
  injection E as -> -> ->.
  destruct (stable_entries_from_mappings catalogue_file _ Hp c) as (d & Hd & He).
  { apply in_or_app. right. left. reflexivity. }
  exists d. split; [exact Hd|].
  split; [apply stable_entry_complete; eauto|].
  unfold stable_entry in He.
  destruct (dict_get "name" d), (dict_get "url" d),
    (dict_get "shard" d), (dict_get "query" d); try discriminate He.
  injection He as <-. auto.
Qed.

Lemma stable_found_category_is_complete_witness :
  exists d, In d (mappings (JArr [JObj grouping; JObj shoes]))
            /\ complete d = true
            /\ dict_get "name" d = Some (JStr "Boots")
            /\ dict_get "shard" d = Some (JStr "s2")
            /\ dict_get "query" d = Some (JStr "cat=2").
Proof.
  apply (stable_found_category_is_complete (JArr [JObj grouping; JObj shoes])
           [mkFlat (JStr "Shoes") (JStr "/shoes") (JStr "s1") (JStr "cat=1");
            mkFlat (JStr "Boots") (JStr "/shoes/boots") (JStr "s2") (JStr "cat=2")]
           "Boots"); reflexivity.
Defined.

(** ** More on the page parsers *)

Lemma map_result_Forall2 {A B} (f : A -> result B) xs ys :
  map_result f xs = Ok ys -> Forall2 (fun x y => f x = Ok y) xs ys.
Proof.
  revert ys. induction xs as [|x xs IH]; intros ys H; cbn [map_result] in H.
  - injection H as <-. constructor.
  - destruct (f x) as [y|] eqn:Ey; [|discriminate H]. cbn [bind] in H.
    destruct (map_result f xs) as [ys'|]; [|discriminate H].
    injection H as <-. constructor; [exact Ey|apply IH; reflexivity].
Qed.

Lemma stable_card_fields item card :
  Stable.product_card item = Ok card ->
  getitem item "id" = Ok (Stable.ID card)
  /\ Stable.Link card = Stable.ID card
  /\ getitem item "name" = Ok (Stable.Name card)
  /\ Stable.Selled card = None.
Proof.
  unfold Stable.product_card. intros H.
  destruct (getitem item "id") as [i|]; [|discriminate H]. cbn [bind] in H.
  destruct (getitem item "name") as [n|]; [|discriminate H]. cbn [bind] in H.
  destruct (getitem item "brand"); [|discriminate H]. cbn [bind] in H.
  destruct (getitem item "brandId"); [|discriminate H]. cbn [bind] in H.
  destruct (getitem item "priceU") as [pu|]; [|discriminate H]. cbn [bind] in H.
  destruct (int_div_100 pu); [|discriminate H]. cbn [bind] in H.
  destruct (getitem item "salePriceU") as [su|]; [|discriminate H]. cbn [bind] in H.
  destruct (int_div_100 su); [|discriminate H]. cbn [bind] in H.
  destruct (getitem item "rating"); [|discriminate H]. cbn [bind] in H.
  destruct (getitem item "feedbacks"); [|discriminate H]. cbn [bind] in H.
  injection H as <-. repeat split.
Qed.

Lemma legacy_product_fields item p :
  Legacy.product item = Ok p ->
  dot_get item "id" = Ok (Legacy.p_id p)
  /\ Legacy.p_link p = Legacy.p_id p
  /\ dot_get item "name" = Ok (Legacy.p_name p).
Proof.
  unfold Legacy.product. intros H.
  destruct (dot_get item "id") as [i|]; [|discriminate H]. cbn [bind] in H.
  destruct (dot_get item "name") as [n|]; [|discriminate H]. cbn [bind] in H.
  destruct (dot_get item "priceU") as [pu|]; [|discriminate H]. cbn [bind] in H.
  destruct (int_div_100 pu); [|discriminate H]. cbn [bind] in H.
  destruct (dot_get item "salePriceU") as [su|]; [|discriminate H]. cbn [bind] in H.
  destruct (int_div_100 su); [|discriminate H]. cbn [bind] in H.
  destruct (dot_get item "feedbackPoints"); [|discriminate H]. cbn [bind] in H.
  destruct (dot_get item "sale"); [|discriminate H]. cbn [bind] in H.
  destruct (dot_get item "brand"); [|discriminate H]. cbn [bind] in H.
  destruct (dot_get item "rating"); [|discriminate H]. cbn [bind] in H.
  destruct (dot_get item "supplier"); [|discriminate H]. cbn [bind] in H.
  destruct (dot_get item "supplierRating"); [|discriminate H]. cbn [bind] in H.
  destruct (dot_get item "feedbacks"); [|discriminate H]. cbn [bind] in H.
  destruct (dot_get item "reviewRating"); [|discriminate H]. cbn [bind] in H.
  destruct (dot_get item "promoTextCard"); [|discriminate H]. cbn [bind] in H.
  destruct (dot_get item "promoTextCat"); [|discriminate H]. cbn [bind] in H.
  injection H as <-. repeat split.
Qed.

(** X8.  A page that parses gives one record per item of [data.products],
    in the order of the items: the record at a position carries the id and
    the name of the item at that position, its link is rendered from that
    id, and in the stable program it has no [Selled] yet. *)
Theorem parse_one_record_per_item (r dd : list (string * json)) (items : list json) :
  dict_get "data" r = Some (JObj dd) ->
  dict_get "products" dd = Some (JArr items) ->
  (forall cards,
      Stable.get_products_on_page (JObj r) = Ok cards ->
      Forall2 (fun item card =>
                 getitem item "id" = Ok (Stable.ID card)
                 /\ Stable.Link card = Stable.ID card
                 /\ getitem item "name" = Ok (Stable.Name card)
                 /\ Stable.Selled card = None) items cards)
  /\
  (forall products,
      Legacy.extract_product_data (JObj r) = Ok products ->
      Forall2 (fun item p =>
                 dot_get item "id" = Ok (Legacy.p_id p)
                 /\ Legacy.p_link p = Legacy.p_id p
                 /\ dot_get item "name" = Ok (Legacy.p_name p)) items products).
Proof.
  intros Hd Hp.
  assert (Ed : getitem (JObj r) "data" = Ok (JObj dd))
    by (unfold getitem; rewrite Hd; reflexivity).
  assert (Ep : getitem (JObj dd) "products" = Ok (JArr items))
    by (unfold getitem; rewrite Hp; reflexivity).
  unfold Stable.get_products_on_page, Legacy.extract_product_data.
  rewrite Ed. cbn [bind]. rewrite Ep. cbn [bind iter]. split.
  - intros cards H. apply map_result_Forall2 in H.
    eapply Forall2_impl; [|exact H]. apply stable_card_fields.
  - intros products H. apply map_result_Forall2 in H.
    eapply Forall2_impl; [|exact H]. apply legacy_product_fields.
Qed.

Lemma parse_one_record_per_item_witness :
  Forall2 (fun item card =>
             getitem item "id" = Ok (Stable.ID card)
             /\ Stable.Link card = Stable.ID card
             /\ getitem item "name" = Ok (Stable.Name card)
             /\ Stable.Selled card = None)
    [item 1; item 2] [card_of 1; card_of 2]
  /\
  Forall2 (fun item p =>
             dot_get item "id" = Ok (Legacy.p_id p)
             /\ Legacy.p_link p = Legacy.p_id p
             /\ dot_get item "name" = Ok (Legacy.p_name p))
    [item 1; item 2] [product_of 1; product_of 2].
Proof.
  destruct (parse_one_record_per_item
              [("data", JObj [("products", JArr [item 1; item 2])])]
              [("products", JArr [item 1; item 2])] [item 1; item 2]
              eq_refl eq_refl) as [HS HL].
  split; [apply HS|apply HL]; reflexivity.
Defined.

(** X9.  One item that does not parse fails the whole page: when the items
    before it parse and it raises, the parser raises that exception, and
    the records of the items before it are not returned.  Neither parser
    skips an item. *)
Theorem parse_fails_on_one_item (r dd : list (string * json))
  (before : list json) (bad : json) (after : list json) (e : exn) :
  dict_get "data" r = Some (JObj dd) ->
  dict_get "products" dd = Some (JArr (before ++ bad :: after)) ->
  (forall cards,
      map_result Stable.product_card before = Ok cards ->
      Stable.product_card bad = Raise e ->
      Stable.get_products_on_page (JObj r) = Raise e)
  /\
  (forall products,
      map_result Legacy.product before = Ok products ->
      Legacy.product bad = Raise e ->
      Legacy.extract_product_data (JObj r) = Raise e).
Proof.
  intros Hd Hp.
  assert (Ed : getitem (JObj r) "data" = Ok (JObj dd))
    by (unfold getitem; rewrite Hd; reflexivity).
  assert (Ep : getitem (JObj dd) "products" = Ok (JArr (before ++ bad :: after)))
    by (unfold getitem; rewrite Hp; reflexivity).
  unfold Stable.get_products_on_page, Legacy.extract_product_data.
  rewrite Ed. cbn [bind]. rewrite Ep. cbn [bind iter].
  split; intros l Hb He; rewrite map_result_app, Hb; cbn [bind map_result];
    rewrite He; reflexivity.
Qed.

Lemma parse_fails_on_one_item_witness :
  Stable.get_products_on_page
    (page_body ([item 1] ++ JObj [("id", JInt 2)] :: [item 3]))
  = Raise (KeyError (JStr "name"))
  /\
  Legacy.extract_product_data
    (page_body ([item 1] ++ JObj [("id", JInt 2)] :: [item 3]))
  = Raise TypeError.
Proof.
  split.
  - apply (parse_fails_on_one_item
             [("data", JObj [("products",
                              JArr ([item 1] ++ JObj [("id", JInt 2)] :: [item 3]))])]
             [("products", JArr ([item 1] ++ JObj [("id", JInt 2)] :: [item 3]))]
             [item 1] (JObj [("id", JInt 2)]) [item 3] (KeyError (JStr "name"))
             eq_refl eq_refl) with (cards := [card_of 1]); reflexivity.
  - apply (parse_fails_on_one_item
             [("data", JObj [("products",
                              JArr ([item 1] ++ JObj [("id", JInt 2)] :: [item 3]))])]
             [("products", JArr ([item 1] ++ JObj [("id", JInt 2)] :: [item 3]))]
             [item 1] (JObj [("id", JInt 2)]) [item 3] TypeError
             eq_refl eq_refl) with (products := [product_of 1]); reflexivity.
Defined.

(** The price of an item as each parser reads and converts it. *)
Lemma stable_card_accepts d :
  (exists card, Stable.product_card (JObj d) = Ok card)
  <-> (dict_mem "id" d = true /\ dict_mem "name" d = true
       /\ dict_mem "brand" d = true /\ dict_mem "brandId" d = true
       /\ dict_mem "rating" d = true /\ dict_mem "feedbacks" d = true
       /\ (exists pu a, dict_get "priceU" d = Some pu /\ int_div_100 pu = Ok a)
       /\ (exists su b, dict_get "salePriceU" d = Some su /\ int_div_100 su = Ok b)).
Proof.
  unfold Stable.product_card, getitem, dict_mem. split.
  - intros [card H].
    destruct (dict_get "id" d); [|discriminate H]. cbn [bind] in H.
    destruct (dict_get "name" d); [|discriminate H]. cbn [bind] in H.
    destruct (dict_get "brand" d); [|discriminate H]. cbn [bind] in H.
    destruct (dict_get "brandId" d); [|discriminate H]. cbn [bind] in H.
    destruct (dict_get "priceU" d) as [pu|]; [|discriminate H]. cbn [bind] in H.
    destruct (int_div_100 pu) as [za|] eqn:Ea; [|discriminate H]. cbn [bind] in H.
    destruct (dict_get "salePriceU" d) as [su|]; [|discriminate H]. cbn [bind] in H.
    destruct (int_div_100 su) as [zb|] eqn:Eb; [|discriminate H]. cbn [bind] in H.
    destruct (dict_get "rating" d); [|discriminate H]. cbn [bind] in H.
    destruct (dict_get "feedbacks" d); [|discriminate H].
    repeat split; eauto.
  - intros (Hi & Hn & Hb & Hbi & Hr & Hf & (pu & a & Hpu & Ea) & (su & b & Hsu & Eb)).
    destruct (dict_get "id" d); [|discriminate Hi].
    destruct (dict_get "name" d); [|discriminate Hn].
    destruct (dict_get "brand" d); [|discriminate Hb].
    destruct (dict_get "brandId" d); [|discriminate Hbi].
    destruct (dict_get "rating" d); [|discriminate Hr].
    destruct (dict_get "feedbacks" d); [|discriminate Hf].
    rewrite Hpu, Hsu. cbn [bind]. rewrite Ea. cbn [bind]. rewrite Eb. cbn [bind].
    eexists. reflexivity.
Qed.

Lemma legacy_product_accepts d :
  (exists p, Legacy.product (JObj d) = Ok p)
  <-> ((exists a, (pu <- dot_get (JObj d) "priceU" ;; int_div_100 pu) = Ok a)
       /\ (exists b, (su <- dot_get (JObj d) "salePriceU" ;; int_div_100 su) = Ok b)).
Proof.
  unfold Legacy.product. split.
  - intros [p H].
    destruct (dot_get (JObj d) "id"); [|discriminate H]. cbn [bind] in H.
    destruct (dot_get (JObj d) "name"); [|discriminate H]. cbn [bind] in H.
    destruct (dot_get (JObj d) "priceU") as [pu|]; [|discriminate H]. cbn [bind] in *.
    destruct (int_div_100 pu) as [za|]; [|discriminate H]. cbn [bind] in H.
    destruct (dot_get (JObj d) "salePriceU") as [su|]; [|discriminate H].
    cbn [bind] in *.
    destruct (int_div_100 su) as [zb|]; [|discriminate H].
    split; eexists; reflexivity.
  - intros [[a Ha] [b Hb]].
    assert (Hget : forall k, exists v, dot_get (JObj d) k = Ok v).
    { intros k. unfold dot_get. destruct (dict_get k d); eauto. }
    destruct (Hget "id") as [? ->], (Hget "name") as [? ->]. cbn [bind].
    destruct (dot_get (JObj d) "priceU") as [pu|]; [|discriminate Ha].
    cbn [bind] in *. rewrite Ha. cbn [bind].
    destruct (dot_get (JObj d) "salePriceU") as [su|]; [|discriminate Hb].
    cbn [bind] in *. rewrite Hb. cbn [bind].
    destruct (Hget "feedbackPoints") as [? ->], (Hget "sale") as [? ->],
      (Hget "brand") as [? ->], (Hget "rating") as [? ->],
      (Hget "supplier") as [? ->], (Hget "supplierRating") as [? ->],
      (Hget "feedbacks") as [? ->], (Hget "reviewRating") as [? ->],
      (Hget "promoTextCard") as [? ->], (Hget "promoTextCat") as [? ->].
    cbn [bind]. eexists. reflexivity.
Qed.

(** X10.  Which items the parsers accept.  The stable parser subscripts
    the item: a mapping gives a card exactly when it has all eight keys
    and both prices convert.  The legacy parser reads the item with
    [.get]: a mapping gives a product exactly when both prices convert,
    whatever else is missing; a missing price is [None] and does not
    convert. *)
Theorem parsers_accept (d : list (string * json)) :
  ((exists card, Stable.product_card (JObj d) = Ok card)
   <-> (dict_mem "id" d = true /\ dict_mem "name" d = true
        /\ dict_mem "brand" d = true /\ dict_mem "brandId" d = true
        /\ dict_mem "rating" d = true /\ dict_mem "feedbacks" d = true
        /\ (exists pu a, dict_get "priceU" d = Some pu /\ int_div_100 pu = Ok a)
        /\ (exists su b, dict_get "salePriceU" d = Some su /\ int_div_100 su = Ok b)))
  /\
  ((exists p, Legacy.product (JObj d) = Ok p)
   <-> ((exists a, (pu <- dot_get (JObj d) "priceU" ;; int_div_100 pu) = Ok a)
        /\ (exists b, (su <- dot_get (JObj d) "salePriceU" ;; int_div_100 su) = Ok b)))
  /\
  (dict_get "priceU" d = None -> Legacy.product (JObj d) = Raise TypeError).
Proof.
  split; [apply stable_card_accepts|]. split; [apply legacy_product_accepts|].
  intros H. unfold Legacy.product, dot_get. rewrite H.
  destruct (dict_get "id" d), (dict_get "name" d); reflexivity.
Qed.

Lemma parsers_accept_witness :
  (exists card,
      Stable.product_card
        (JObj [("id", JInt 42); ("name", JStr "Boot"); ("brand", JStr "Acme");
               ("brandId", JInt 7); ("priceU", JInt 123456);
               ("salePriceU", JInt 99999); ("rating", JInt 5);
               ("feedbacks", JInt 12)]) = Ok card)
  /\ (exists p,
         Legacy.product (JObj [("priceU", JInt 123456); ("salePriceU", JInt 99999)])
         = Ok p)
  /\ Legacy.product (JObj [("id", JInt 2)]) = Raise TypeError.
Proof.
  split; [|split].
  - apply (parsers_accept
             [("id", JInt 42); ("name", JStr "Boot"); ("brand", JStr "Acme");
              ("brandId", JInt 7); ("priceU", JInt 123456);
              ("salePriceU", JInt 99999); ("rating", JInt 5);
              ("feedbacks", JInt 12)]).
    repeat split; try reflexivity.
    + exists (JInt 123456), 1234. split; reflexivity.
    + exists (JInt 99999), 999. split; reflexivity.
  - apply (parsers_accept [("priceU", JInt 123456); ("salePriceU", JInt 99999)]).
    split; [exists 1234|exists 999]; reflexivity.
  - apply (parsers_accept [("id", JInt 2)]). reflexivity.
Defined.

(** ** More on the price conversion *)

(** The rounded quotient of a non-negative value by 100, while the
    quotient is below [2^47]: the exponent is negative, and dropping the
    fraction bits of the mantissa gives the floor of the quotient. *)
Lemma round_div_100 (a : Z) :
  0 <= a < 100 * 2 ^ 47 ->
  exists m e, round_div a 100 = (m, e)
              /\ e < 0 /\ 0 <= m < 2 ^ 1024 /\ m / 2 ^ (- e) = a / 100.
Proof.
  intros Ha. pose proof (quot_log2_100_bounds a Ha) as Hk.
  unfold round_div. set (k := quot_log2 a 100) in *.
  replace (Z.max (k - 52) (-1074)) with (k - 52) by lia.
  set (S := 2 ^ (52 - k)).
  assert (HS : 64 <= S <= 2 ^ 59).
  { unfold S. split.
    - change 64 with (2 ^ 6). apply Z.pow_le_mono_r; lia.
    - apply Z.pow_le_mono_r; lia. }
  assert (Enum : shl a (- (k - 52)) = a * S).
  { unfold shl, S. f_equal. f_equal. lia. }
  assert (Eden : shl 100 (k - 52) = 100).
  { unfold shl. replace (Z.max (k - 52) 0) with 0 by lia. reflexivity. }
  rewrite Enum, Eden.
  destruct (round_then_truncate a S ltac:(lia) ltac:(lia)) as [Hm0 Hm].
  cbv zeta in Hm0, Hm.
  eexists. exists (k - 52). split; [reflexivity|].
  split; [lia|].
  replace (- (k - 52)) with (52 - k) by lia. fold S.
  split; [|exact Hm]. split; [exact Hm0|].
  assert (Hn : a / 100 < 2 ^ 47) by (apply Z.div_lt_upper_bound; lia).
  match goal with |- ?m < _ =>
    assert (HmS : m < (a / 100 + 1) * S)
      by (rewrite <- Hm; pose proof (Z.div_mod m S ltac:(lia));
          pose proof (Z.mod_pos_bound m S ltac:(lia)); nia)
  end.
  apply Z.lt_le_trans with (2 ^ 47 * 2 ^ 59); [nia|].
  rewrite <- Z.pow_add_r by lia. apply Z.pow_le_mono_r; lia.
Qed.

(** X11.  [int(v / 100)] truncates toward zero.  For every integer [v]
    whose quotient by 100 is between [-2^47] and [2^47], of either sign,
    the converted price is the quotient with its fraction dropped: the
    floor for a non-negative value, the ceiling for a negative one. *)
Theorem int_div_100_truncates (v : Z) :
  - (100 * 2 ^ 47) < v < 100 * 2 ^ 47 ->
  int_div_100 (JInt v) = Ok (Z.quot v 100)
  /\ (0 <= v -> Z.quot v 100 = v / 100)
  /\ (v <= 0 -> Z.quot v 100 = - ((- v) / 100)).
Proof.
  intros Hv. split; [|split].
  - unfold int_div_100, truediv, int_truediv, signed_round_div.
    destruct (v <? 0) eqn:Hneg.
    + apply Z.ltb_lt in Hneg.
      destruct (round_div_100 (- v) ltac:(lia)) as (m & e & E & He & Hm & Hq).
      rewrite E. unfold too_large, shl.
      replace (Z.max e 0) with 0 by lia. rewrite Z.abs_opp, Z.abs_eq by lia.
      replace (2 ^ 1024 <=? m * 2 ^ 0) with false
        by (symmetry; apply Z.leb_gt; lia).
      cbn [bind fst snd py_int].
      destruct (0 <=? e) eqn:C; [apply Z.leb_le in C; lia|].
      f_equal. rewrite Z.quot_opp_l by (apply Z.pow_nonzero; lia).
      rewrite Z.quot_div_nonneg by (try apply Z.pow_pos_nonneg; lia).
      rewrite Hq. rewrite <- (Z.opp_involutive v) at 2.
      rewrite Z.quot_opp_l by lia. rewrite Z.quot_div_nonneg by lia. reflexivity.
    + apply Z.ltb_ge in Hneg.
      destruct (round_div_100 v ltac:(lia)) as (m & e & E & He & Hm & Hq).
      rewrite E. unfold too_large, shl.
      replace (Z.max e 0) with 0 by lia. rewrite Z.abs_eq by lia.
      replace (2 ^ 1024 <=? m * 2 ^ 0) with false
        by (symmetry; apply Z.leb_gt; lia).
      cbn [bind fst snd py_int].
      destruct (0 <=? e) eqn:C; [apply Z.leb_le in C; lia|].
      f_equal. rewrite Z.quot_div_nonneg by (try apply Z.pow_pos_nonneg; lia).
      rewrite Hq. symmetry. apply Z.quot_div_nonneg; lia.
  - intros H0. apply Z.quot_div_nonneg; lia.
  - intros H0. rewrite <- (Z.opp_involutive v) at 1.
    rewrite Z.quot_opp_l by lia. rewrite Z.quot_div_nonneg by lia. reflexivity.
Qed.

Lemma int_div_100_truncates_witness :
  int_div_100 (JInt (-12345)) = Ok (-123)
  /\ Z.quot 12399 100 = 12399 / 100
  /\ Z.quot (-12345) 100 = - ((- -12345) / 100).
Proof.
  split; [|split].
  - apply (int_div_100_truncates (-12345)). lia.
  - apply (int_div_100_truncates 12399); lia.
  - apply (int_div_100_truncates (-12345)); lia.
Defined.

(** ** More on the harvest *)

(** A run of the stable loop over any pages: it stops at the first page
    that is empty or raises, or after the last page. *)
Lemma stable_for_pages_run remote pages :
  forall self,
    (pages = [] /\ Stable.for_pages remote pages self = (self, Ok tt))
    \/ exists full lastp rest,
         pages = full ++ lastp :: rest
         /\ (forall q, In q full ->
                       exists l, stable_page_outcome remote q = Ok l /\ l <> [])
         /\ requested (Stable.trace (fst (Stable.for_pages remote pages self)))
            = requested (Stable.trace self) ++ full ++ [lastp]
         /\ Stable.product_cards (fst (Stable.for_pages remote pages self))
            = Stable.product_cards self
              ++ flat_map (stable_records remote) full ++ stable_records remote lastp
         /\ match stable_page_outcome remote lastp with
            | Raise e => snd (Stable.for_pages remote pages self) = Raise e
            | Ok [] => snd (Stable.for_pages remote pages self) = Ok tt
            | Ok (_ :: _) =>
              rest = [] /\ snd (Stable.for_pages remote pages self) = Ok tt
            end.
Proof.
  induction pages as [|p pages IH]; intros self; [left; split; reflexivity|].
  right. cbn [Stable.for_pages].
  destruct (stable_page_outcome remote p) as [l|e] eqn:Ep.
  - destruct l as [|c l].
    + assert (Hg : stable_page_gives remote p []).
      { unfold stable_page_outcome in Ep.
        destruct (reply_json (remote p 0%nat)) as [body|] eqn:Eb; [|discriminate Ep].
        exists body. split; [exact Eb|exact Ep]. }
      rewrite (stable_add_empty _ _ _ Hg).
      exists [], p, pages. cbn [fst snd Stable.product_cards Stable.trace Stable.emit].
      split; [reflexivity|]. split; [intros q []|].
      split; [rewrite <- !app_assoc, !requested_app; reflexivity|].
      unfold stable_records. rewrite Ep. cbn [flat_map app].
      rewrite app_nil_r. split; reflexivity.
    + assert (Hg : stable_page_gives remote p (c :: l)).
      { unfold stable_page_outcome in Ep.
        destruct (reply_json (remote p 0%nat)) as [body|] eqn:Eb; [|discriminate Ep].
        exists body. split; [exact Eb|exact Ep]. }
      rewrite (stable_add_nonempty _ _ _ _ Hg) by discriminate.
      set (self1 := Stable.mkParser _ _).
      destruct (IH self1) as [[-> E]|(full & lastp & rest & -> & Hfull & Hr & Hc & Ho)].
      * exists [], p, []. rewrite E, Ep.
        cbn [fst snd]. subst self1.
        cbn [Stable.product_cards Stable.trace Stable.emit].
        split; [reflexivity|]. split; [intros q []|].
        split; [rewrite <- !app_assoc, !requested_app; reflexivity|].
        unfold stable_records. rewrite Ep. cbn [flat_map app].
        repeat split; reflexivity.
      * exists (p :: full), lastp, rest. split; [reflexivity|].
        split.
        { intros q [<-|Hq]; [exists (c :: l); split; [exact Ep|discriminate]|].
          apply Hfull, Hq. }
        rewrite Hr, Hc. subst self1.
        cbn [Stable.product_cards Stable.trace Stable.emit].
        split.
        { rewrite <- !app_assoc, !requested_app. cbn [requested app].
          rewrite <- !app_assoc. reflexivity. }
        split; [|exact Ho].
        cbn [flat_map]. unfold stable_records at 3. rewrite Ep.
        rewrite <- !app_assoc. reflexivity.
  - assert (Hg : stable_page_raises remote p e).
    { unfold stable_page_outcome in Ep.
      destruct (reply_json (remote p 0%nat)) as [body|] eqn:Eb.
      - right. exists body. split; [exact Eb|exact Ep].
      - left. injection Ep as <-. exact Eb. }
    rewrite (stable_add_raises _ _ _ _ Hg).
    exists [], p, pages. cbn [fst snd Stable.product_cards Stable.trace Stable.emit].
    split; [reflexivity|]. split; [intros q []|].
    split; [rewrite <- !app_assoc, !requested_app; reflexivity|].
    unfold stable_records. rewrite Ep. cbn [flat_map app].
    rewrite app_nil_r. split; reflexivity.
Qed.

Lemma seq_split_inv (full : list nat) :
  forall a len lastp rest,
    seq a len = full ++ lastp :: rest ->
    full = seq a (List.length full)
    /\ lastp = (a + List.length full)%nat
    /\ (List.length full < len)%nat
    /\ (rest = [] -> len = S (List.length full)).
Proof.
  induction full as [|x full IH]; intros a len lastp rest H.
  - destruct len as [|len]; [discriminate H|]. cbn [seq app] in H.
    injection H as <- <-. cbn [List.length].
    repeat split; [lia|lia|].
    intros E. symmetry in E. destruct len; [reflexivity|discriminate E].
  - destruct len as [|len]; [discriminate H|]. cbn [seq app] in H.
    injection H as <- H. destruct (IH _ _ _ _ H) as (E1 & E2 & E3 & E4).
    cbn [List.length seq]. repeat split; [f_equal; exact E1|lia|lia|].
    intros E. rewrite (E4 E). reflexivity.
Qed.

Lemma stable_harvest_shape (remote : Remote) (self : Stable.Parser) :
  Stable.get_all_products_in_search_result remote self
  = Stable.get_all_products_in_category remote self
  /\
  exists n,
    (1 <= n <= 100)%nat
    /\ requested (Stable.trace (fst (Stable.get_all_products_in_category remote self)))
       = requested (Stable.trace self) ++ seq 1 n
    /\ Stable.product_cards (fst (Stable.get_all_products_in_category remote self))
       = Stable.product_cards self ++ flat_map (stable_records remote) (seq 1 n)
    /\ (forall q, (1 <= q < n)%nat ->
                  exists l, stable_page_outcome remote q = Ok l /\ l <> [])
    /\ match stable_page_outcome remote n with
       | Raise e => snd (Stable.get_all_products_in_category remote self) = Raise e
       | Ok [] => snd (Stable.get_all_products_in_category remote self) = Ok tt
       | Ok (_ :: _) =>
         n = 100%nat /\ snd (Stable.get_all_products_in_category remote self) = Ok tt
       end.
Proof.
  split; [reflexivity|].
  unfold Stable.get_all_products_in_category, Stable.page_range.
  destruct (stable_for_pages_run remote (seq 1 100) self)
    as [[E _]|(full & lastp & rest & E & Hfull & Hr & Hc & Ho)];
    [discriminate E|].
  destruct (seq_split_inv full _ _ _ _ E) as (Ef & El & Hlen & Hrest).
  exists (S (List.length full)).
  assert (Eseq : seq 1 (S (List.length full)) = full ++ [lastp]).
  { rewrite seq_S, <- Ef, El. reflexivity. }
  split; [lia|]. split; [rewrite Hr, Eseq; reflexivity|].
  split.
  { rewrite Hc, Eseq, flat_map_app. cbn [flat_map]. rewrite app_nil_r. reflexivity. }
  split.
  { intros q Hq. apply Hfull. rewrite Ef. apply in_seq. lia. }
  replace (S (List.length full)) with lastp by lia.
  destruct (stable_page_outcome remote lastp) as [[|c l]|e]; try exact Ho.
  destruct Ho as [Hnil Hs]. split; [|exact Hs].
  rewrite El. specialize (Hrest Hnil). lia.
Qed.

(** X12.  Every run of the stable harvest, whatever the remote side does,
    for a category as for a search.  It requests the pages 1 to [n] for
    some [n] from 1 to 100, each once and in this order; every page before
    [n] had records; the cards it leaves are those it was started with,
    followed by the records of the pages 1 to [n] in order; and it ends at
    page [n] in one of three ways: page [n] raises, and the harvest raises
    the same; page [n] is empty, and the harvest ends well; or page [n]
    has records, [n] is 100, and the harvest ends well. *)
Theorem stable_harvest_run (remote : Remote) (self : Stable.Parser) :
  Stable.get_all_products_in_search_result remote self
  = Stable.get_all_products_in_category remote self
  /\
  exists n,
    (1 <= n <= 100)%nat
    /\ requested (Stable.trace (fst (Stable.get_all_products_in_category remote self)))
       = requested (Stable.trace self) ++ seq 1 n
    /\ Stable.product_cards (fst (Stable.get_all_products_in_category remote self))
       = Stable.product_cards self ++ flat_map (stable_records remote) (seq 1 n)
    /\ (forall q, (1 <= q < n)%nat ->
                  exists l, stable_page_outcome remote q = Ok l /\ l <> [])
    /\ match stable_page_outcome remote n with
       | Raise e => snd (Stable.get_all_products_in_category remote self) = Raise e
       | Ok [] => snd (Stable.get_all_products_in_category remote self) = Ok tt
       | Ok (_ :: _) =>
         n = 100%nat /\ snd (Stable.get_all_products_in_category remote self) = Ok tt
       end.
Proof. exact (stable_harvest_shape remote self). Qed.

(** The legacy loop over pages that are all answered in the end: its
    result is that of the loop on the bodies. *)
Lemma legacy_for_pages_bodies fuel remote failed body pages :
  forall products tr,
    (forall p, In p pages ->
               legacy_page_body remote p (failed p) (body p)
               /\ (failed p < fuel)%nat) ->
    exists tr',
      Legacy.for_pages fuel remote pages products tr
      = Some (tr', legacy_on_bodies body pages products).
Proof.
  induction pages as [|p pages IH]; intros products tr H.
  - eexists. reflexivity.
  - destruct (H p (or_introl eq_refl)) as [Hb Hf].
    destruct (scrape_page_body remote p _ (body p) fuel tr Hb Hf) as (tr1 & E1 & _).
    cbn [Legacy.for_pages legacy_on_bodies]. rewrite E1.
    destruct (Legacy.extract_product_data (body p)) as [[|x l]|e].
    + eexists. reflexivity.
    + apply IH. intros q Hq. apply H. right. exact Hq.
    + eexists. reflexivity.
Qed.

(** X13.  In the legacy harvest the retries do not show in the result.
    Two remote sides that answer every page, after however many raising
    requests, with the same body give the same result, records or
    exception; and the harvest does return once the fuel exceeds the
    raising requests of each page, whatever the fuel beyond that. *)
Theorem legacy_retries_invisible (remote1 remote2 : Remote)
  (failed1 failed2 : nat -> nat) (body : nat -> json) (fuel1 fuel2 : nat) :
  (forall p, (1 <= p <= 50)%nat ->
             legacy_page_body remote1 p (failed1 p) (body p)
             /\ (failed1 p < fuel1)%nat) ->
  (forall p, (1 <= p <= 50)%nat ->
             legacy_page_body remote2 p (failed2 p) (body p)
             /\ (failed2 p < fuel2)%nat) ->
  exists tr1 tr2 r,
    Legacy.collect_products fuel1 remote1 = Some (tr1, r)
    /\ Legacy.collect_products fuel2 remote2 = Some (tr2, r).
Proof.
  intros H1 H2. unfold Legacy.collect_products, Legacy.page_range.
  destruct (legacy_for_pages_bodies fuel1 remote1 failed1 body (seq 1 50) [] [])
    as [tr1 E1]; [intros p Hp; apply H1, in_seq_1, Hp|].
  destruct (legacy_for_pages_bodies fuel2 remote2 failed2 body (seq 1 50) [] [])
    as [tr2 E2]; [intros p Hp; apply H2, in_seq_1, Hp|].
  exists tr1, tr2, (legacy_on_bodies body (seq 1 50) []). split; assumption.
Qed.

Lemma legacy_retries_invisible_witness :
  exists tr1 tr2 r,
    Legacy.collect_products 2 remote_redirects_once = Some (tr1, r)
    /\ Legacy.collect_products 1 (remote_all_at_once 0) = Some (tr2, r).
Proof.
  apply (legacy_retries_invisible remote_redirects_once (remote_all_at_once 0)
           (fun _ => 1%nat) (fun _ => 0%nat) (fun _ => page_body [])).
  - intros p _. split; [|lia]. split; [|reflexivity].
    intros a Ha. assert (a = 0%nat) as -> by lia.
    exists TooManyRedirects. reflexivity.
  - intros p Hp. split; [|lia]. split; [intros a Ha; lia|].
    destruct p as [|[|p]]; reflexivity.
Defined.

(** ** More on the sales enrichment *)

Lemma Forall2_same_refl cards : Forall2 same_but_selled cards cards.
Proof. induction cards; constructor; [left; reflexivity|assumption]. Qed.

(** Any run of the loop of [get_sales_data] from a position on. *)
Lemma sales_loop_run sales :
  forall todo done tr,
    exists todo' asked_for,
      fst (Stable.sales_loop sales (List.length done) todo
             (Stable.mkParser (done ++ todo) tr))
      = Stable.mkParser (done ++ todo') (tr ++ sales_requests asked_for)
      /\ Forall2 same_but_selled todo todo'
      /\ (exists later, todo = asked_for ++ later)
      /\ (snd (Stable.sales_loop sales (List.length done) todo
                 (Stable.mkParser (done ++ todo) tr)) = Ok tt ->
          asked_for = todo
          /\ Forall (fun c' => Stable.Selled c' <> None) todo').
Proof.
  induction todo as [|c rest IH]; intros done tr.
  - exists [], []. cbn. rewrite !app_nil_r.
    repeat split; [constructor|exists []; reflexivity|constructor].
  - cbn [Stable.sales_loop Stable.emit Stable.product_cards Stable.trace].
    assert (Hstep : forall v,
               exists todo' asked_for,
                 fst (Stable.sales_loop sales (S (List.length done)) rest
                        (Stable.mkParser
                           (Stable.set_selled (List.length done) v (done ++ c :: rest))
                           (tr ++ [Sales_request (Stable.ID c)])))
                 = Stable.mkParser (done ++ todo') (tr ++ sales_requests asked_for)
                 /\ Forall2 same_but_selled (c :: rest) todo'
                 /\ (exists later, c :: rest = asked_for ++ later)
                 /\ (snd (Stable.sales_loop sales (S (List.length done)) rest
                            (Stable.mkParser
                               (Stable.set_selled (List.length done) v
                                  (done ++ c :: rest))
                               (tr ++ [Sales_request (Stable.ID c)]))) = Ok tt ->
                     asked_for = c :: rest
                     /\ Forall (fun c' => Stable.Selled c' <> None) todo')).
    { intros v. rewrite set_selled_at.
      destruct (IH (done ++ [Stable.with_selled c v])
                   (tr ++ [Sales_request (Stable.ID c)]))
        as (todo' & asked_for & E & HF & [later Hl] & Hok).
      rewrite length_app in E, Hok. cbn [List.length] in E, Hok.
      rewrite Nat.add_1_r, <- !app_assoc in E. rewrite Nat.add_1_r in Hok.
      rewrite <- !app_assoc in Hok. cbn [app] in E, Hok.
      exists (Stable.with_selled c v :: todo'), (c :: asked_for).
      rewrite E. split; [reflexivity|].
      split; [constructor; [right; exists v; reflexivity|exact HF]|].
      split; [exists later; rewrite Hl; reflexivity|].
      intros H. destruct (Hok H) as [-> HS]. split; [reflexivity|].
      constructor; [discriminate|exact HS]. }
    destruct (Stable.sold_quantity (sales (List.length done))) as [qnt|e].
    + apply Hstep.
    + destruct e; try apply Hstep;
        (exists (c :: rest), [c]; cbn [fst snd];
         split; [reflexivity|];
         split; [apply Forall2_same_refl|];
         split; [exists rest; reflexivity|discriminate]).
Qed.

Lemma sales_run_shape (sales : nat -> result Response) (self : Stable.Parser) :
  exists asked_for,
    Forall2 same_but_selled (Stable.product_cards self)
      (Stable.product_cards (fst (Stable.get_sales_data sales self)))
    /\ List.length (Stable.product_cards (fst (Stable.get_sales_data sales self)))
       = List.length (Stable.product_cards self)
    /\ sales_requested (Stable.trace (fst (Stable.get_sales_data sales self)))
       = sales_requested (Stable.trace self) ++ map Stable.ID asked_for
    /\ (exists later, Stable.product_cards self = asked_for ++ later)
    /\ (snd (Stable.get_sales_data sales self) = Ok tt ->
        asked_for = Stable.product_cards self
        /\ Forall (fun c' => Stable.Selled c' <> None)
             (Stable.product_cards (fst (Stable.get_sales_data sales self)))).
Proof.
  unfold Stable.get_sales_data. destruct self as [cards tr].
  cbn [Stable.product_cards Stable.trace].
  destruct (sales_loop_run sales cards [] tr)
    as (cards' & asked_for & E & HF & Hl & Hok).
  cbn [List.length app] in E, Hok. exists asked_for. rewrite E.
  cbn [Stable.product_cards Stable.trace].
  split; [exact HF|].
  split; [symmetry; apply (Forall2_length HF)|].
  split; [unfold sales_requests;
          rewrite sales_requested_app, sales_requested_map; reflexivity|].
  split; [exact Hl|exact Hok].
Qed.

(** X14.  Every run of [get_sales_data], whatever the sales endpoint
    does.  It leaves as many cards as it found, in the same order, each
    one unchanged or changed in [Selled] only; it asks for the cards from
    the first on, one request each, with no card skipped; and when it
    ends well it has asked for every card and every card has a [Selled]
    value. *)
Theorem sales_run (sales : nat -> result Response) (self : Stable.Parser) :
  exists asked_for,
    Forall2 same_but_selled (Stable.product_cards self)
      (Stable.product_cards (fst (Stable.get_sales_data sales self)))
    /\ List.length (Stable.product_cards (fst (Stable.get_sales_data sales self)))
       = List.length (Stable.product_cards self)
    /\ sales_requested (Stable.trace (fst (Stable.get_sales_data sales self)))
       = sales_requested (Stable.trace self) ++ map Stable.ID asked_for
    /\ (exists later, Stable.product_cards self = asked_for ++ later)
    /\ (snd (Stable.get_sales_data sales self) = Ok tt ->
        asked_for = Stable.product_cards self
        /\ Forall (fun c' => Stable.Selled c' <> None)
             (Stable.product_cards (fst (Stable.get_sales_data sales self)))).
Proof. exact (sales_run_shape sales self). Qed.

Lemma sales_run_witness :
  exists asked_for,
    asked_for = Stable.product_cards three_cards
    /\ Forall (fun c' => Stable.Selled c' <> None)
         (Stable.product_cards
            (fst (Stable.get_sales_data sales_second_connect_timeout three_cards))).
Proof.
  destruct (sales_run sales_second_connect_timeout three_cards)
    as (asked_for & _ & _ & _ & _ & H).
  exists asked_for. apply H. reflexivity.
Defined.

Lemma sales_loop_prefix sales sold :
  forall todo1 todo2 done tr,
    (forall j, (j < List.length todo1)%nat ->
               Stable.sold_quantity (sales (List.length done + j)%nat)
               = Ok (sold (List.length done + j)%nat)
               \/ (Stable.sold_quantity (sales (List.length done + j)%nat)
                   = Raise ConnectTimeout
                   /\ sold (List.length done + j)%nat = JStr "no data")) ->
    Stable.sales_loop sales (List.length done) (todo1 ++ todo2)
      (Stable.mkParser (done ++ todo1 ++ todo2) tr)
    = Stable.sales_loop sales (List.length done + List.length todo1) todo2
        (Stable.mkParser ((done ++ enriched sold (List.length done) todo1) ++ todo2)
           (tr ++ sales_requests todo1)).
Proof.
  induction todo1 as [|c rest IH]; intros todo2 done tr H.
  - cbn [app List.length enriched sales_requests map].
    rewrite Nat.add_0_r, !app_nil_r. reflexivity.
  - cbn [app Stable.sales_loop Stable.emit Stable.product_cards Stable.trace
           enriched sales_requests map List.length].
    pose proof (H 0%nat ltac:(cbn; lia)) as H0. rewrite Nat.add_0_r in H0.
    assert (Hstep :
              Stable.sales_loop sales (S (List.length done)) (rest ++ todo2)
                (Stable.mkParser
                   (Stable.set_selled (List.length done) (sold (List.length done))
                      (done ++ c :: rest ++ todo2))
                   (tr ++ [Sales_request (Stable.ID c)]))
              = Stable.sales_loop sales (List.length done + S (List.length rest)) todo2
                  (Stable.mkParser
                     ((done ++ Stable.with_selled c (sold (List.length done))
                            :: enriched sold (S (List.length done)) rest) ++ todo2)
                     (tr ++ Sales_request (Stable.ID c)
                         :: map (fun c => Sales_request (Stable.ID c)) rest))).
    { rewrite set_selled_at.
      specialize (IH todo2 (done ++ [Stable.with_selled c (sold (List.length done))])
                     (tr ++ [Sales_request (Stable.ID c)])).
      rewrite length_app in IH. cbn [List.length] in IH.
      rewrite Nat.add_1_r, <- !app_assoc in IH. cbn [app] in IH.
      unfold sales_requests in IH.
      replace (List.length done + S (List.length rest))%nat
        with (S (List.length done) + List.length rest)%nat by lia.
      rewrite <- !app_assoc. cbn [app].
      apply IH. intros j Hj.
      replace (S (List.length done) + j)%nat with (List.length done + S j)%nat by lia.
      apply H. cbn. lia. }
    destruct H0 as [E|[E Es]]; rewrite E.
    + exact Hstep.
    + rewrite <- Es. exact Hstep.
Qed.

(** X15.  A failure of [get_sales_data] other than the connect timeout.
    When the cards before a card were all handled (a quantity, or the
    connect timeout) and the request for the card itself, or the reading
    of its reply, raises another exception, [get_sales_data] raises that
    exception: the cards before it keep what was set, the card itself and
    every later card stay as they were, and no request is made for the
    later cards. *)
Theorem sales_failure (sales : nat -> result Response)
  (before : list Stable.ProductCard) (card : Stable.ProductCard)
  (after : list Stable.ProductCard) (tr : list event)
  (sold : nat -> json) (e : exn) :
  (forall i, (i < List.length before)%nat ->
             Stable.sold_quantity (sales i) = Ok (sold i)
             \/ (Stable.sold_quantity (sales i) = Raise ConnectTimeout
                 /\ sold i = JStr "no data")) ->
  Stable.sold_quantity (sales (List.length before)) = Raise e ->
  e <> ConnectTimeout ->
  Stable.get_sales_data sales (Stable.mkParser (before ++ card :: after) tr)
  = (Stable.mkParser (enriched sold 0 before ++ card :: after)
       (tr ++ sales_requests before ++ [Sales_request (Stable.ID card)]),
     Raise e).
Proof.
  intros Hb He Hne. unfold Stable.get_sales_data.
  cbn [Stable.product_cards].
  pose proof (sales_loop_prefix sales sold before (card :: after) [] tr Hb) as E.
  cbn [List.length app Nat.add] in E. rewrite E.
  cbn [Stable.sales_loop Stable.emit Stable.product_cards Stable.trace].
  rewrite He.
  destruct e; try (exfalso; apply Hne; reflexivity);
    cbv beta iota; rewrite (app_assoc tr); reflexivity.
Qed.

Lemma sales_failure_witness :
  Stable.get_sales_data sales_second_read_timeout
    (Stable.mkParser ([card_of 1] ++ card_of 2 :: [card_of 3]) [])
  = (Stable.mkParser
       (enriched (fun _ => JInt 5) 0 [card_of 1] ++ card_of 2 :: [card_of 3])
       ([] ++ sales_requests [card_of 1] ++ [Sales_request (Stable.ID (card_of 2))]),
     Raise ReadTimeout).
Proof.
  apply (sales_failure sales_second_read_timeout [card_of 1] (card_of 2) [card_of 3]
           [] (fun _ => JInt 5) ReadTimeout).
  - intros i Hi. cbn in Hi. assert (i = 0%nat) as -> by lia. left. reflexivity.
  - reflexivity.
  - discriminate.
Defined.

(** ** The request URLs *)

Lemma codes_inj s1 s2 : codes s1 = codes s2 -> s1 = s2.
Proof.
  unfold codes. revert s2.
  induction s1 as [|a s1 IH]; intros [|b s2] H; try discriminate H; [reflexivity|].
  cbn in H. injection H as Hab H.
  rewrite <- (ascii_N_embedding a), <- (ascii_N_embedding b), Hab.
  f_equal. apply IH. exact H.
Qed.

Lemma decimal_inj p q : decimal p = decimal q -> p = q.
Proof.
  unfold decimal. intros H. apply codes_inj in H.
  apply DecimalNat.Unsigned.to_uint_inj.
  pose proof (DecimalString.NilEmpty.usu (Nat.to_uint p)) as Hp.
  pose proof (DecimalString.NilEmpty.usu (Nat.to_uint q)) as Hq.
  rewrite H in Hp. congruence.
Qed.

(** X16.  The URLs are one-to-one in the page: for a fixed category, a
    fixed keyword, or fixed legacy filters, two different page numbers
    never give the same URL, so no page is requested under the URL of
    another one. *)
Theorem urls_differ_by_page (p q : nat) :
  p <> q ->
  (forall shard query,
      Stable.build_catalogue_url shard query p
      <> Stable.build_catalogue_url shard query q)
  /\ (forall key_word,
         Stable.build_search_url key_word p <> Stable.build_search_url key_word q)
  /\ (forall shard query min_price max_price discount,
         Legacy.page_url shard query min_price max_price discount p
         <> Legacy.page_url shard query min_price max_price discount q).
Proof.
  intros Hpq. split; [|split].
  - intros shard query H. apply Hpq. unfold Stable.build_catalogue_url in H.
    do 7 apply app_inv_head in H. apply app_inv_tail in H.
    apply decimal_inj, H.
  - intros key_word H. apply Hpq. unfold Stable.build_search_url in H.
    cbv zeta in H. do 2 apply app_inv_head in H. apply app_inv_tail in H.
    apply decimal_inj, H.
  - intros shard query mn mx disc H. apply Hpq. unfold Legacy.page_url in H.
    do 4 apply app_inv_head in H. apply app_inv_tail in H.
    apply decimal_inj, H.
Qed.

Lemma urls_differ_by_page_witness :
  Stable.build_catalogue_url (codes "s1") (codes "cat=1") 1
  <> Stable.build_catalogue_url (codes "s1") (codes "cat=1") 2
  /\ Stable.build_search_url (codes "red boots") 1
     <> Stable.build_search_url (codes "red boots") 2
  /\ Legacy.page_url (codes "s1") (codes "cat=1") 1 1000000 0 1
     <> Legacy.page_url (codes "s1") (codes "cat=1") 1 1000000 0 2.
Proof.
  destruct (urls_differ_by_page 1 2 ltac:(lia)) as (H1 & H2 & H3).
  split; [apply H1|split; [apply H2|apply H3]].
Defined.

Lemma split_ws_spaces lead :
  (forall c, In c lead -> is_space c = true) -> split_ws lead [] = [].
Proof.
  induction lead as [|c lead IH]; intros H; [reflexivity|].
  cbn [split_ws]. rewrite (H c (or_introl eq_refl)).
  apply IH. intros x Hx. apply H. right. exact Hx.
Qed.

Lemma split_ws_leading lead s :
  (forall c, In c lead -> is_space c = true) ->
  split_ws (lead ++ s) [] = split_ws s [].
Proof.
  induction lead as [|c lead IH]; intros H; [reflexivity|].
  cbn [app split_ws]. rewrite (H c (or_introl eq_refl)).
  apply IH. intros x Hx. apply H. right. exact Hx.
Qed.

Lemma split_ws_trailing s trail :
  (forall c, In c trail -> is_space c = true) ->
  forall cur, split_ws (s ++ trail) cur = split_ws s cur.
Proof.
  intros H. induction s as [|c s IH]; intros cur.
  - cbn [app]. destruct trail as [|t trail]; [reflexivity|].
    cbn [split_ws]. rewrite (H t (or_introl eq_refl)).
    rewrite split_ws_spaces by (intros x Hx; apply H; right; exact Hx).
    destruct cur; reflexivity.
  - cbn [app split_ws]. destruct (is_space c); [|apply IH].
    destruct cur; rewrite IH; reflexivity.
Qed.

Lemma split_ws_run a s s' b :
  is_space s = true -> is_space s' = true ->
  forall cur,
    split_ws (a ++ s :: s' :: b) cur = split_ws (a ++ s :: b) cur
    /\ split_ws (a ++ s :: b) cur = split_ws (a ++ s' :: b) cur.
Proof.
  intros Hs Hs'. induction a as [|c a IH]; intros cur.
  - cbn [app split_ws]. rewrite Hs, Hs'. destruct cur; split; reflexivity.
  - cbn [app split_ws]. destruct (is_space c); [|apply IH].
    destruct cur; destruct (IH []) as [E1 E2]; rewrite E1, E2; split; reflexivity.
Qed.

Lemma split_ws_no_space s :
  forall cur,
    Forall (fun c => is_space c = false) cur ->
    Forall (Forall (fun c => is_space c = false)) (split_ws s cur).
Proof.
  induction s as [|c s IH]; intros cur Hcur; cbn [split_ws].
  - destruct cur; constructor; [exact Hcur|constructor].
  - destruct (is_space c) eqn:Hc.
    + destruct cur; [apply IH; constructor|].
      constructor; [exact Hcur|apply IH; constructor].
    + apply IH. apply Forall_app. split; [exact Hcur|].
      constructor; [exact Hc|constructor].
Qed.

Lemma join_no_space sep words :
  Forall (fun c => is_space c = false) sep ->
  Forall (Forall (fun c => is_space c = false)) words ->
  Forall (fun c => is_space c = false) (join sep words).
Proof.
  intros Hsep. induction 1 as [|w ws Hw Hws IH]; [constructor|].
  cbn [join]. destruct ws as [|w' ws]; [exact Hw|].
  apply Forall_app. split; [exact Hw|].
  apply Forall_app. split; [exact Hsep|exact IH].
Qed.

Lemma decimal_no_space n : Forall (fun c => is_space c = false) (decimal n).
Proof.
  unfold decimal. generalize (Nat.to_uint n). intros d.
  induction d; cbn; constructor; try reflexivity; assumption.
Qed.

Lemma forallb_Forall {A} (f : A -> bool) l :
  forallb f l = true -> Forall (fun c => f c = true) l.
Proof.
  induction l as [|x l IH]; cbn; [constructor|].
  intros H. apply andb_true_iff in H as [Hx Hl]. constructor; auto.
Qed.

Lemma codes_no_space s :
  forallb (fun c => negb (is_space c)) (codes s) = true ->
  Forall (fun c => is_space c = false) (codes s).
Proof.
  intros H. apply forallb_Forall in H.
  eapply Forall_impl; [|exact H]. intros c Hc. cbv beta in Hc.
  destruct (is_space c); [discriminate Hc|reflexivity].
Qed.

(** X17.  The search URL and the whitespace of the keyword.  Whatever the
    keyword, the URL contains no whitespace: the words of the keyword are
    joined by [%20].  Whitespace before the first word and after the last
    one is dropped, and between two words neither the kind of whitespace
    nor its amount changes the URL. *)
Theorem search_url_whitespace (key_word lead trail a b : text) (s s' : N) (page : nat) :
  Forall (fun c => is_space c = false) (Stable.build_search_url key_word page)
  /\
  ((forall c, In c lead -> is_space c = true) ->
   (forall c, In c trail -> is_space c = true) ->
   Stable.build_search_url (lead ++ key_word ++ trail) page
   = Stable.build_search_url key_word page)
  /\
  (is_space s = true -> is_space s' = true ->
   Stable.build_search_url (a ++ s :: s' :: b) page
   = Stable.build_search_url (a ++ s :: b) page
   /\ Stable.build_search_url (a ++ s :: b) page
      = Stable.build_search_url (a ++ s' :: b) page).
Proof.
  split; [|split].
  - unfold Stable.build_search_url. cbv zeta.
    repeat (apply Forall_app; split);
      try (apply codes_no_space; reflexivity);
      [apply decimal_no_space|].
    apply join_no_space; [apply codes_no_space; reflexivity|].
    apply split_ws_no_space. constructor.
  - intros Hl Ht. unfold Stable.build_search_url.
    rewrite (split_ws_leading lead _ Hl), (split_ws_trailing key_word trail Ht).
    reflexivity.
  - intros Hs Hs'. unfold Stable.build_search_url.
    destruct (split_ws_run a s s' b Hs Hs' []) as [E1 E2].
    rewrite E1, E2. split; reflexivity.
Qed.

Lemma search_url_whitespace_witness :
  Stable.build_search_url (codes "  " ++ codes "red boots" ++ codes " ") 3
  = Stable.build_search_url (codes "red boots") 3
  /\
  (Stable.build_search_url (codes "red" ++ 32%N :: 9%N :: codes "boots") 3
   = Stable.build_search_url (codes "red" ++ 32%N :: codes "boots") 3
   /\ Stable.build_search_url (codes "red" ++ 32%N :: codes "boots") 3
      = Stable.build_search_url (codes "red" ++ 9%N :: codes "boots") 3).
Proof.
  destruct (search_url_whitespace (codes "red boots") (codes "  ") (codes " ")
              (codes "red") (codes "boots") 32%N 9%N 3) as (_ & H1 & H2).
  split; [apply H1|apply H2; reflexivity].
  - intros c [<-|[<-|[]]]; reflexivity.
  - intros c [<-|[]]; reflexivity.
Defined.

(** ** The harvest followed by the sales enrichment *)

Lemma harvest_then_sales remote sales self self1 self2 :
  Stable.for_pages remote Stable.page_range self = (self1, Ok tt) ->
  Stable.get_sales_data sales self1 = (self2, Ok tt) ->
  exists n,
    (1 <= n <= 100)%nat
    /\ requested (Stable.trace self1) = requested (Stable.trace self) ++ seq 1 n
    /\ (forall q, (1 <= q < n)%nat ->
                  exists l, stable_page_outcome remote q = Ok l /\ l <> [])
    /\ (n = 100%nat \/ stable_page_outcome remote n = Ok [])
    /\ Stable.product_cards self1
       = Stable.product_cards self ++ flat_map (stable_records remote) (seq 1 n)
    /\ sales_requested (Stable.trace self2)
       = sales_requested (Stable.trace self1)
         ++ map Stable.ID (Stable.product_cards self1)
    /\ Forall2 same_but_selled (Stable.product_cards self1) (Stable.product_cards self2)
    /\ Forall (fun c => Stable.Selled c <> None) (Stable.product_cards self2).
Proof.
  intros H1 H2.
  destruct (stable_harvest_shape remote self) as (_ & n & Hn & Hr & Hc & Hfull & Ho).
  unfold Stable.get_all_products_in_category in Hr, Hc, Ho. rewrite H1 in Hr, Hc, Ho.
  cbn [fst snd] in Hr, Hc, Ho.
  destruct (sales_run_shape sales self1) as (asked_for & HF & _ & Hs & _ & Hok).
  rewrite H2 in HF, Hs, Hok. cbn [fst snd] in HF, Hs, Hok.
  destruct (Hok eq_refl) as [-> Hsel].
  exists n. split; [exact Hn|]. split; [exact Hr|]. split; [exact Hfull|].
  split.
  { destruct (stable_page_outcome remote n) as [[|c l]|e].
    - right. reflexivity.
    - left. apply Ho.
    - discriminate Ho. }
  split; [exact Hc|]. split; [exact Hs|]. split; [exact HF|exact Hsel].
Qed.

(** X18.  The harvest followed by the sales enrichment, as [run_parser]
    runs them for a category and for a search, when both end well; [remote]
    is the listing that the harvest asks.  The harvest has requested the
    pages 1 to [n] of [remote], in order, where [n] is the first page
    without items, or 100 when the pages before it all have items.  The
    cards that the enrichment leaves are the cards that were there before
    followed by the records of the pages 1 to [n] of [remote], in order,
    each changed in [Selled] only and each with a [Selled] value; and the
    enrichment has made one sales request for each of them, in this
    order. *)
Theorem harvest_then_enrichment (remote : Remote) (sales : nat -> result Response)
  (self self1 self2 : Stable.Parser) :
  Stable.get_all_products_in_category remote self = (self1, Ok tt)
  \/ Stable.get_all_products_in_search_result remote self = (self1, Ok tt) ->
  Stable.get_sales_data sales self1 = (self2, Ok tt) ->
  exists n,
    (1 <= n <= 100)%nat
    /\ requested (Stable.trace self1) = requested (Stable.trace self) ++ seq 1 n
    /\ (forall q, (1 <= q < n)%nat ->
                  exists l, stable_page_outcome remote q = Ok l /\ l <> [])
    /\ (n = 100%nat \/ stable_page_outcome remote n = Ok [])
    /\ Forall2 same_but_selled
         (Stable.product_cards self ++ flat_map (stable_records remote) (seq 1 n))
         (Stable.product_cards self2)
    /\ Forall (fun c => Stable.Selled c <> None) (Stable.product_cards self2)
    /\ sales_requested (Stable.trace self2)
       = sales_requested (Stable.trace self1)
         ++ map Stable.ID
              (Stable.product_cards self
               ++ flat_map (stable_records remote) (seq 1 n)).
Proof.
  intros H1 H2.
  assert (H : Stable.for_pages remote Stable.page_range self = (self1, Ok tt))
    by (destruct H1 as [H1|H1]; exact H1).
  destruct (harvest_then_sales remote sales self self1 self2 H H2)
    as (n & Hn & Hr & Hfull & Hlast & Hc & Hs & HF & Hsel).
  exists n. rewrite <- Hc. repeat split; try assumption; apply Hn.
Qed.

Lemma harvest_then_enrichment_witness :
  exists n,
    (1 <= n <= 100)%nat
    /\ requested
         (Stable.trace
            (fst (Stable.get_all_products_in_search_result (remote_all_at_once 2) fresh)))
       = requested (Stable.trace fresh) ++ seq 1 n
    /\ (forall q, (1 <= q < n)%nat ->
                  exists l, stable_page_outcome (remote_all_at_once 2) q = Ok l
                            /\ l <> [])
    /\ (n = 100%nat \/ stable_page_outcome (remote_all_at_once 2) n = Ok [])
    /\ Forall2 same_but_selled
         (Stable.product_cards fresh
          ++ flat_map (stable_records (remote_all_at_once 2)) (seq 1 n))
         [Stable.with_selled (card_of 1) (JInt 5);
          Stable.with_selled (card_of 2) (JInt 5)]
    /\ Forall (fun c => Stable.Selled c <> None)
         [Stable.with_selled (card_of 1) (JInt 5);
          Stable.with_selled (card_of 2) (JInt 5)]
    /\ [JInt 1; JInt 2]
       = sales_requested
           (Stable.trace
              (fst (Stable.get_all_products_in_search_result
                      (remote_all_at_once 2) fresh)))
         ++ map Stable.ID
              (Stable.product_cards fresh
               ++ flat_map (stable_records (remote_all_at_once 2)) (seq 1 n)).
Proof.
  apply (harvest_then_enrichment (remote_all_at_once 2) sales_all_five fresh
           (fst (Stable.get_all_products_in_search_result (remote_all_at_once 2) fresh))
           (fst (Stable.get_sales_data sales_all_five
                   (fst (Stable.get_all_products_in_search_result
                           (remote_all_at_once 2) fresh))))).
  - right. reflexivity.
  - reflexivity.
Defined.

(** ** More on the URL suffix and on the sales reply *)

Lemma site_no_overlap_at (c t b : string) :
  (site ++ t = c ++ site ++ b)%string -> c <> "" ->
  exists c', t = (c' ++ site ++ b)%string
             /\ String.length c = (String.length site + String.length c')%nat.
Proof.
  unfold site. intros E Hc.
  destruct c as [|? c]; [destruct (Hc eq_refl)|clear Hc].
  cbn in E. injection E as _ E.
  do 25 (destruct c as [|? c];
         [discriminate E|cbn in E; injection E as _ E]).
  exists c. split; [exact E|reflexivity].
Qed.

Lemma append_same_length (a a' x y : string) :
  (a ++ x = a' ++ y)%string -> String.length a = String.length a' ->
  a = a' /\ x = y.
Proof.
  revert a'. induction a as [|h a IH]; intros [|h' a'] E L;
    try discriminate L.
  - split; [reflexivity|exact E].
  - cbn in E. injection E as <- E. cbn in L.
    destruct (IH a' E ltac:(lia)) as [-> ->]. split; reflexivity.
Qed.

(** Every occurrence of the site prefix in [a ++ site ++ s] starts in
    [a], at the end of [a], or in [s]. *)
Lemma occurs_after_site a s i :
  occurs_at site (a ++ site ++ s)%string i ->
  (i <= String.length a)%nat
  \/ exists j, occurs_at site s j
               /\ i = (String.length a + String.length site + j)%nat.
Proof.
  intros (a' & b & E & <-).
  destruct (Nat.le_gt_cases (String.length a') (String.length a)) as [|L];
    [left; assumption|right].
  destruct (append_split_longer _ _ _ _ E L) as (c & Hc & -> & E2).
  destruct (site_no_overlap_at _ _ _ E2 Hc) as (c' & E3 & Hlen).
  exists (String.length c'). split; [exists c', b; auto|].
  rewrite length_append. lia.
Qed.

Lemma url_suffix_unique (x a1 r1 a2 r2 : string) :
  x = (a1 ++ site ++ r1)%string -> x = (a2 ++ site ++ r2)%string ->
  (forall i, occurs_at site x i -> (i <= String.length a1)%nat) ->
  (forall i, occurs_at site x i -> (i <= String.length a2)%nat) ->
  r1 = r2.
Proof.
  intros E1 E2 M1 M2.
  assert (L : String.length a1 = String.length a2).
  { apply Nat.le_antisymm.
    - apply M2. exists a1, r1. auto.
    - apply M1. exists a2, r2. auto. }
  rewrite E1 in E2. destruct (append_same_length _ _ _ _ E2 L) as [_ E].
  destruct (append_same_length site site r1 r2 E eq_refl) as [_ Er]. exact Er.
Qed.

Lemma url_suffix_head a s : url_suffix (a ++ site ++ s)%string = url_suffix s.
Proof.
  destruct (url_suffix_after_last (a ++ site ++ s)%string) as [[_ N]|(a1 & E1 & M1)].
  { destruct (N (String.length a)). exists a, s. auto. }
  destruct (url_suffix_after_last s) as [[Es Ns]|(b & Es & Ms)].
  - rewrite Es.
    apply (url_suffix_unique (a ++ site ++ s)%string a1 _ a s E1 eq_refl M1).
    intros i Hi. destruct (occurs_after_site a s i Hi) as [H|(j & Hj & _)];
      [exact H|destruct (Ns j Hj)].
  - apply (url_suffix_unique (a ++ site ++ s)%string a1 _
             (a ++ site ++ b)%string (url_suffix s) E1).
    + rewrite Es at 1. rewrite !append_assoc. reflexivity.
    + exact M1.
    + intros i Hi. rewrite !length_append.
      destruct (occurs_after_site a s i Hi) as [H|(j & Hj & ->)]; [lia|].
      specialize (Ms j Hj). lia.
Qed.

Lemma url_suffix_clean s : forall i, ~ occurs_at site (url_suffix s) i.
Proof.
  unfold url_suffix, split, site.
  destruct (split_aux_last "h" "ttps://www.wildberries.ru" (String.length s) s ""
              (le_n _)) as [[E N]|(a & E & N)].
  - cbn [String.append] in E. rewrite E. exact N.
  - exact N.
Qed.

(** X19.  The URL suffix of an input.  Whatever stands before the site
    prefix in the input is ignored together with the prefix; the suffix
    itself never contains the site prefix; and taking the suffix of a
    suffix changes nothing.  So both lookups treat an input with any text
    before [https://www.wildberries.ru] like the text after it, as far as
    the url is compared. *)
Theorem url_suffix_ignores_head (a s : string) :
  url_suffix (a ++ site ++ s)%string = url_suffix s
  /\ (forall i, ~ occurs_at site (url_suffix s) i)
  /\ url_suffix (url_suffix s) = url_suffix s
  /\ (forall catalog_list,
         Legacy.find_in catalog_list (a ++ site ++ s)%string
         = Legacy.find_in catalog_list s).
Proof.
  split; [apply url_suffix_head|]. split; [apply url_suffix_clean|].
  split.
  - destruct (url_suffix_after_last (url_suffix s)) as [[E _]|(b & E & _)];
      [exact E|].
    destruct (url_suffix_clean s (String.length b)).
    exists b, (url_suffix (url_suffix s)). auto.
  - induction catalog_list as [|c rest IH]; [reflexivity|].
    cbn [Legacy.find_in]. rewrite url_suffix_head, IH. reflexivity.
Qed.

(** X20.  Which replies of the sales endpoint give a quantity.
    [response[0]['qnt']] succeeds exactly on a reply whose body is a list
    with a mapping in front that has [qnt], and gives the value stored
    there; an empty list raises [IndexError], a mapping in place of the
    list [KeyError], a first element without [qnt] [KeyError]. *)
Theorem sales_reply_shape (reply0 : result Response) (q : json) :
  (Stable.sold_quantity reply0 = Ok q
   <-> exists response first rest,
         reply0 = Ok response
         /\ json_of response = Ok (JArr (JObj first :: rest))
         /\ dict_get "qnt" first = Some q)
  /\ (forall response, reply0 = Ok response -> json_of response = Ok (JArr []) ->
                       Stable.sold_quantity reply0 = Raise IndexError)
  /\ (forall response d, reply0 = Ok response -> json_of response = Ok (JObj d) ->
                         Stable.sold_quantity reply0 = Raise (KeyError (JInt 0)))
  /\ (forall response first rest,
         reply0 = Ok response ->
         json_of response = Ok (JArr (JObj first :: rest)) ->
         dict_get "qnt" first = None ->
         Stable.sold_quantity reply0 = Raise (KeyError (JStr "qnt"))).
Proof.
  unfold Stable.sold_quantity. split; [split|].
  - intros H. destruct reply0 as [response|]; [|discriminate H].
    cbn [bind] in H.
    destruct (json_of response) as [body|] eqn:Eb; [|discriminate H].
    cbn [bind] in H.
    destruct body as [| | | |str|l|d]; try discriminate H.
    + destruct str; discriminate H.
    + destruct l as [|x l]; [discriminate H|]. cbn [getitem0 bind] in H.
      destruct x as [| | | | | |first]; try discriminate H.
      cbn [getitem] in H.
      destruct (dict_get "qnt" first) as [v|] eqn:Eq; [|discriminate H].
      injection H as <-. exists response, first, l. auto.
  - intros (response & first & rest & -> & Eb & Eq). cbn [bind].
    rewrite Eb. cbn [bind getitem0 getitem]. rewrite Eq. reflexivity.
  - split; [|split].
    + intros response -> Eb. cbn [bind]. rewrite Eb. reflexivity.
    + intros response d -> Eb. cbn [bind]. rewrite Eb. reflexivity.
    + intros response first rest -> Eb Eq. cbn [bind]. rewrite Eb.
      cbn [bind getitem0 getitem]. rewrite Eq. reflexivity.
Qed.

Lemma sales_reply_shape_witness :
  Stable.sold_quantity (reply (JArr [JObj [("qnt", JInt 5)]])) = Ok (JInt 5)
  /\ Stable.sold_quantity (reply (JArr [])) = Raise IndexError
  /\ Stable.sold_quantity (reply (JObj [])) = Raise (KeyError (JInt 0))
  /\ Stable.sold_quantity (reply (JArr [JObj []; JNull]))
     = Raise (KeyError (JStr "qnt")).
Proof.
  split; [|split; [|split]].
  - apply (sales_reply_shape (reply (JArr [JObj [("qnt", JInt 5)]])) (JInt 5)).
    exists (mkResponse 200 (Ok (JArr [JObj [("qnt", JInt 5)]]))),
      [("qnt", JInt 5)], []. repeat split.
  - destruct (sales_reply_shape (reply (JArr [])) JNull) as (_ & H & _).
    apply (H (mkResponse 200 (Ok (JArr [])))); reflexivity.
  - destruct (sales_reply_shape (reply (JObj [])) JNull) as (_ & _ & H & _).
    apply (H (mkResponse 200 (Ok (JObj []))) []); reflexivity.
  - destruct (sales_reply_shape (reply (JArr [JObj []; JNull])) JNull)
      as (_ & _ & _ & H).
    apply (H (mkResponse 200 (Ok (JArr [JObj []; JNull]))) [] [JNull]);
      reflexivity.
Defined.
